(** * Memory-partitioning simulator: static and dynamic allocators

    A shallow embedding of [src/script.js]: the process control block, the
    static (fixed-partition) manager, the dynamic manager with its three fit
    searches and its coalescing loop, and the event handlers that drive them.

    JavaScript numbers are modelled by [jsnum]: the finite values the program
    manipulates are byte counts and addresses (integers, exact in a double),
    and the three special values appear in the source itself ([Infinity] and
    [-Infinity] seed the best/worst-fit scans, [isNaN] guards [createProcess]).
    Objects mutated in place (processes, partitions, blocks) live in the lists
    that hold them; a mutation is a replacement at the object's position. *)

From Stdlib Require Import String ZArith List Bool Lia Permutation.
From Stdlib Require Import Ascii HexadecimalString DecimalString HexadecimalZ.
Import ListNotations.

(** ** JavaScript numbers *)

Inductive jsnum : Type :=
| NaN
| NegInf
| PosInf
| Fin (z : Z).

Module JS.

Definition isNaN (a : jsnum) : bool :=
  match a with NaN => true | _ => false end.

(** [a < b] *)
Definition lt (a b : jsnum) : bool :=
  match a, b with
  | NaN, _ | _, NaN => false
  | NegInf, NegInf => false
  | NegInf, _ => true
  | _, NegInf => false
  | PosInf, _ => false
  | Fin _, PosInf => true
  | Fin x, Fin y => (x <? y)%Z
  end.

(** [a <= b] *)
Definition le (a b : jsnum) : bool :=
  match a, b with
  | NaN, _ | _, NaN => false
  | NegInf, _ => true
  | _, NegInf => false
  | _, PosInf => true
  | PosInf, Fin _ => false
  | Fin x, Fin y => (x <=? y)%Z
  end.

(** [a > b] and [a >= b] *)
Definition gt (a b : jsnum) : bool := lt b a.
Definition ge (a b : jsnum) : bool := le b a.

(** [a + b] *)
Definition add (a b : jsnum) : jsnum :=
  match a, b with
  | NaN, _ | _, NaN => NaN
  | PosInf, NegInf | NegInf, PosInf => NaN
  | PosInf, _ | _, PosInf => PosInf
  | NegInf, _ | _, NegInf => NegInf
  | Fin x, Fin y => Fin (x + y)
  end.

(** [a - b] *)
Definition sub (a b : jsnum) : jsnum :=
  match a, b with
  | NaN, _ | _, NaN => NaN
  | PosInf, PosInf | NegInf, NegInf => NaN
  | PosInf, _ | _, NegInf => PosInf
  | NegInf, _ | _, PosInf => NegInf
  | Fin x, Fin y => Fin (x - y)
  end.

(** [a * b] *)
Definition mul (a b : jsnum) : jsnum :=
  let inf_times (positive : bool) (z : Z) : jsnum :=
    if (z =? 0)%Z then NaN
    else if Bool.eqb positive (0 <? z)%Z then PosInf else NegInf in
  match a, b with
  | NaN, _ | _, NaN => NaN
  | PosInf, PosInf | NegInf, NegInf => PosInf
  | PosInf, NegInf | NegInf, PosInf => NegInf
  | PosInf, Fin z | Fin z, PosInf => inf_times true z
  | NegInf, Fin z | Fin z, NegInf => inf_times false z
  | Fin x, Fin y => Fin (x * y)
  end.

Definition is_finite (a : jsnum) : Prop := exists z, a = Fin z.

End JS.

(** ** Constants *)

Definition KiB : Z := 1024.
Definition MiB : Z := 1024 * 1024.

(** [const TOTAL_MEMORY = 16 * 1024 * 1024] *)
Definition TOTAL_MEMORY : Z := 16 * 1024 * 1024.
(** [const OS_MEMORY_SIZE = 2 * 1024 * 1024] *)
Definition OS_MEMORY_SIZE : Z := 2 * 1024 * 1024.

(** ** Process control block

    [name] is only read by the rendering code and by the text of the alerts,
    so it is left out of the record. *)

Record ProcessControlBlock : Type := mkPCB {
  pid : Z;                       (* this.id *)
  psize : jsnum;                 (* this.size *)
  allocated : bool;              (* this.allocated *)
  partitionId : option jsnum     (* this.partitionId, null = None *)
}.

(** [new ProcessControlBlock(id, size)] *)
Definition new_ProcessControlBlock (id : Z) (size : jsnum) : ProcessControlBlock :=
  {| pid := id; psize := size; allocated := false; partitionId := None |}.

(** [process.allocated = true; process.partitionId = r] *)
Definition mark_allocated (r : jsnum) (p : ProcessControlBlock) : ProcessControlBlock :=
  {| pid := pid p; psize := psize p; allocated := true; partitionId := Some r |}.

(** [process.allocated = false; process.partitionId = null] *)
Definition mark_unallocated (p : ProcessControlBlock) : ProcessControlBlock :=
  {| pid := pid p; psize := psize p; allocated := false; partitionId := None |}.

(** ** Generic array helpers *)

Section Arrays.
Context {A : Type}.

(** [arr.findIndex(f)], with [-1] rendered as [None]. *)
Fixpoint findIndex_from (f : A -> bool) (l : list A) (index : nat) : option nat :=
  match l with
  | [] => None
  | x :: rest => if f x then Some index else findIndex_from f rest (S index)
  end.

Definition findIndex (f : A -> bool) (l : list A) : option nat :=
  findIndex_from f l 0.

(** [const x = arr.find(f); if (x) { mutate x }]: the first element
    satisfying [f] is replaced by its mutated version. *)
Fixpoint update_first (f : A -> bool) (g : A -> A) (l : list A) : list A :=
  match l with
  | [] => []
  | x :: rest => if f x then g x :: rest else x :: update_first f g rest
  end.

(** [arr[i] = x] for an index inside the array. *)
Fixpoint set_nth (i : nat) (x : A) (l : list A) : list A :=
  match l, i with
  | [], _ => []
  | _ :: rest, O => x :: rest
  | y :: rest, S j => y :: set_nth j x rest
  end.

(** [arr.splice(i, 0, x)] *)
Definition splice_insert (i : nat) (x : A) (l : list A) : list A :=
  firstn i l ++ x :: skipn i l.

(** [arr.splice(i, 1)] *)
Definition splice_remove (i : nat) (l : list A) : list A :=
  firstn i l ++ skipn (S i) l.

End Arrays.

(** [b.processId === processId] where the field is a number or [null] and
    the argument is a number. *)
Definition owner_is (processId : Z) (o : option Z) : bool :=
  match o with
  | Some id => (id =? processId)%Z
  | None => false
  end.

(** ** Alerts raised by the core *)

Inductive Alert : Type :=
| AlertInvalidSize                                  (* createProcess *)
| AlertNoPartition (p : ProcessControlBlock)        (* static allocate *)
| AlertNoMemory (p : ProcessControlBlock) (fit : string). (* dynamic allocate *)

(** Outcome of an [allocate] call: the manager and the process after the
    call (both are mutated in place by the source), the returned boolean and
    the alert shown on failure. *)
Record AllocResult (M : Type) : Type := mkAllocResult {
  ar_manager : M;
  ar_process : ProcessControlBlock;
  ar_ok : bool;
  ar_alert : option Alert
}.
Arguments mkAllocResult {M} _ _ _ _.
Arguments ar_manager {M} _.
Arguments ar_process {M} _.
Arguments ar_ok {M} _.
Arguments ar_alert {M} _.

(** ** Static manager: five fixed partitions *)

Module StaticMemoryManager.

Record Partition : Type := mkPartition {
  id : Z;
  address : jsnum;
  size : jsnum;
  free : bool;
  processId : option Z
}.

Record t : Type := mk {
  totalSize : jsnum;
  memory : list Partition
}.

(** [[1, 2, 4, 8, 1].map(s => s * 1024 * 1024)] *)
Definition partitionSizes : list jsnum :=
  map (fun s => Fin (s * 1024 * 1024)) [1; 2; 4; 8; 1]%Z.

(** [partitionSizes.map((size, index) => ...)] with the running
    [currentAddress]. *)
Fixpoint build (sizes : list jsnum) (index : Z) (currentAddress : jsnum)
  : list Partition :=
  match sizes with
  | [] => []
  | size :: rest =>
      {| id := index; address := currentAddress; size := size;
         free := true; processId := None |}
      :: build rest (index + 1)%Z (JS.add currentAddress size)
  end.

(** [new StaticMemoryManager(totalSize)] *)
Definition new (totalSize : jsnum) : t :=
  {| totalSize := totalSize;
     memory := build partitionSizes 0%Z (Fin OS_MEMORY_SIZE) |}.

(** [partition.free = false; partition.processId = process.id] *)
Definition occupy (process : ProcessControlBlock) (partition : Partition) : Partition :=
  {| id := id partition; address := address partition; size := size partition;
     free := false; processId := Some (pid process) |}.

(** [partition.free = true; partition.processId = null] *)
Definition release (partition : Partition) : Partition :=
  {| id := id partition; address := address partition; size := size partition;
     free := true; processId := None |}.

(** [partition.free && partition.size >= process.size] *)
Definition fits (process : ProcessControlBlock) (partition : Partition) : bool :=
  free partition && JS.ge (size partition) (psize process).

(** The [for (const partition of this.memory)] loop of [allocate]:
    [Some] when the loop returned [true] from inside. *)
Fixpoint allocate_scan (mem : list Partition) (process : ProcessControlBlock)
  : option (list Partition * ProcessControlBlock) :=
  match mem with
  | [] => None
  | partition :: rest =>
      if fits process partition then
        Some (occupy process partition :: rest,
              mark_allocated (Fin (id partition)) process)
      else
        match allocate_scan rest process with
        | Some (rest', process') => Some (partition :: rest', process')
        | None => None
        end
  end.

Definition allocate (m : t) (process : ProcessControlBlock) : AllocResult t :=
  match allocate_scan (memory m) process with
  | Some (mem', process') =>
      mkAllocResult {| totalSize := totalSize m; memory := mem' |} process' true None
  | None =>
      mkAllocResult m process false (Some (AlertNoPartition process))
  end.

(** [p.processId === processId] *)
Definition owned_by (wanted : Z) (partition : Partition) : bool :=
  owner_is wanted (processId partition).

(** [deallocate(processId)]; [processes] is the global registry. *)
Definition deallocate (m : t) (processes : list ProcessControlBlock) (processId : Z)
  : t * list ProcessControlBlock :=
  match find (owned_by processId) (memory m) with
  | Some _ =>
      ({| totalSize := totalSize m;
          memory := update_first (owned_by processId) release (memory m) |},
       update_first (fun p => (pid p =? processId)%Z) mark_unallocated processes)
  | None => (m, processes)
  end.

End StaticMemoryManager.

(** ** Dynamic manager: splitting, three fit searches, coalescing *)

Module DynamicMemoryManager.

Record Block : Type := mkBlock {
  address : jsnum;
  size : jsnum;
  free : bool;
  processId : option Z
}.

Record t : Type := mk {
  totalSize : jsnum;
  coalesceEnabled : bool;
  fitAlgorithm : string;
  memory : list Block
}.

(** [new DynamicMemoryManager(totalSize, coalesceEnabled, fitAlgorithm)] *)
Definition new (totalSize : jsnum) (coalesceEnabled : bool) (fitAlgorithm : string) : t :=
  {| totalSize := totalSize;
     coalesceEnabled := coalesceEnabled;
     fitAlgorithm := fitAlgorithm;
     memory := [ {| address := Fin OS_MEMORY_SIZE;
                    size := JS.sub totalSize (Fin OS_MEMORY_SIZE);
                    free := true;
                    processId := None |} ] |}.

(** [block.free && block.size >= size] *)
Definition qualifies (requested : jsnum) (block : Block) : bool :=
  free block && JS.ge (size block) requested.

(** [_findFirstFit(size)] *)
Definition _findFirstFit (mem : list Block) (requested : jsnum) : option nat :=
  findIndex (qualifies requested) mem.

(** The [forEach] of [_findBestFit], carrying [bestIndex] and [minDiff]. *)
Fixpoint bestFit_scan (requested : jsnum) (mem : list Block) (index : nat)
         (bestIndex : option nat) (minDiff : jsnum) : option nat :=
  match mem with
  | [] => bestIndex
  | block :: rest =>
      if qualifies requested block then
        let diff := JS.sub (size block) requested in
        if JS.lt diff minDiff
        then bestFit_scan requested rest (S index) (Some index) diff
        else bestFit_scan requested rest (S index) bestIndex minDiff
      else bestFit_scan requested rest (S index) bestIndex minDiff
  end.

(** [_findBestFit(size)]: [bestIndex = -1], [minDiff = Infinity]. *)
Definition _findBestFit (mem : list Block) (requested : jsnum) : option nat :=
  bestFit_scan requested mem 0 None PosInf.

(** The [forEach] of [_findWorstFit], carrying [worstIndex] and [maxDiff]. *)
Fixpoint worstFit_scan (requested : jsnum) (mem : list Block) (index : nat)
         (worstIndex : option nat) (maxDiff : jsnum) : option nat :=
  match mem with
  | [] => worstIndex
  | block :: rest =>
      if qualifies requested block then
        let diff := JS.sub (size block) requested in
        if JS.gt diff maxDiff
        then worstFit_scan requested rest (S index) (Some index) diff
        else worstFit_scan requested rest (S index) worstIndex maxDiff
      else worstFit_scan requested rest (S index) worstIndex maxDiff
  end.

(** [_findWorstFit(size)]: [worstIndex = -1], [maxDiff = -Infinity]. *)
Definition _findWorstFit (mem : list Block) (requested : jsnum) : option nat :=
  worstFit_scan requested mem 0 None NegInf.

(** The [if / else if] chain on [this.fitAlgorithm]; any other string
    leaves [blockIndex] at [-1]. *)
Definition find_block (fit : string) (mem : list Block) (requested : jsnum)
  : option nat :=
  if String.eqb fit "first" then _findFirstFit mem requested
  else if String.eqb fit "best" then _findBestFit mem requested
  else if String.eqb fit "worst" then _findWorstFit mem requested
  else None.

(** The block after [block.size = process.size; block.free = false;
    block.processId = process.id]. *)
Definition occupy (process : ProcessControlBlock) (block : Block) : Block :=
  {| address := address block; size := psize process;
     free := false; processId := Some (pid process) |}.

(** The free block spliced in after the occupied one. *)
Definition remainder (process : ProcessControlBlock) (block : Block)
           (remainingSize : jsnum) : Block :=
  {| address := JS.add (address block) (psize process);
     size := remainingSize; free := true; processId := None |}.

(** The body of [if (blockIndex !== -1)], on the block list. *)
Definition split_at (blockIndex : nat) (block : Block)
           (process : ProcessControlBlock) (mem : list Block) : list Block :=
  let remainingSize := JS.sub (size block) (psize process) in
  let mem1 := set_nth blockIndex (occupy process block) mem in
  if JS.gt remainingSize (Fin 0)
  then splice_insert (blockIndex + 1) (remainder process block remainingSize) mem1
  else mem1.

Definition with_memory (m : t) (mem : list Block) : t :=
  {| totalSize := totalSize m; coalesceEnabled := coalesceEnabled m;
     fitAlgorithm := fitAlgorithm m; memory := mem |}.

(** [allocate(process)].  The searches only return indices of
    [this.memory] (see [find_block_in_range]), so the inner [None] branch
    is never taken. *)
Definition allocate (m : t) (process : ProcessControlBlock) : AllocResult t :=
  match find_block (fitAlgorithm m) (memory m) (psize process) with
  | Some blockIndex =>
      match nth_error (memory m) blockIndex with
      | Some block =>
          mkAllocResult
            (with_memory m (split_at blockIndex block process (memory m)))
            (mark_allocated (address block) process)
            true None
      | None => mkAllocResult m process false None
      end
  | None =>
      mkAllocResult m process false
                    (Some (AlertNoMemory process (fitAlgorithm m)))
  end.

(** [current.size += next.size] *)
Definition grow (current next : Block) : Block :=
  {| address := address current; size := JS.add (size current) (size next);
     free := free current; processId := processId current |}.

(** The [for] loop of [coalesce]: [i] is the loop variable, [fuel] bounds
    the number of iterations.  A merge does [i--] and the loop header
    [i++], so the index stays; otherwise it advances. *)
Fixpoint coalesce_loop (fuel : nat) (i : nat) (mem : list Block) : list Block :=
  match fuel with
  | O => mem
  | S fuel' =>
      if (Z.of_nat i <? Z.of_nat (length mem) - 1)%Z then
        match nth_error mem i, nth_error mem (i + 1) with
        | Some current, Some next =>
            if free current && free next
            then coalesce_loop fuel' i
                   (splice_remove (i + 1) (set_nth i (grow current next) mem))
            else coalesce_loop fuel' (i + 1) mem
        | _, _ => mem
        end
      else mem
  end.

(** [coalesce()]: every iteration either removes a block or advances
    [i], so [length] iterations are enough (see [coalesce_loop_fuel]). *)
Definition coalesce (mem : list Block) : list Block :=
  coalesce_loop (length mem) 0 mem.

(** [block.free = true; block.processId = null] *)
Definition release (block : Block) : Block :=
  {| address := address block; size := size block;
     free := true; processId := None |}.

(** [b.processId === processId] *)
Definition owned_by (wanted : Z) (block : Block) : bool :=
  owner_is wanted (processId block).

(** [deallocate(processId)]; [processes] is the global registry. *)
Definition deallocate (m : t) (processes : list ProcessControlBlock) (wanted : Z)
  : t * list ProcessControlBlock :=
  match find (owned_by wanted) (memory m) with
  | Some _ =>
      let mem1 := update_first (owned_by wanted) release (memory m) in
      let processes' :=
        update_first (fun p => (pid p =? wanted)%Z) mark_unallocated processes in
      (with_memory m (if coalesceEnabled m then coalesce mem1 else mem1),
       processes')
  | None => (m, processes)
  end.

End DynamicMemoryManager.

Module SM := StaticMemoryManager.
Module DM := DynamicMemoryManager.

(** ** The simulation: registry, active manager, event handlers *)

(** [let processes = []; let nextProcessId = 0;] *)
Record Registry : Type := mkRegistry {
  processes : list ProcessControlBlock;
  nextProcessId : Z
}.

Definition empty_registry : Registry :=
  {| processes := []; nextProcessId := 0 |}.

(** [createProcess(sizeInBytes)] *)
Definition createProcess (r : Registry) (sizeInBytes : jsnum) : Registry * option Alert :=
  if JS.isNaN sizeInBytes || JS.le sizeInBytes (Fin 0) then
    (r, Some AlertInvalidSize)
  else
    let newProcess := new_ProcessControlBlock (nextProcessId r) sizeInBytes in
    ({| processes := processes r ++ [newProcess];
        nextProcessId := (nextProcessId r + 1)%Z |}, None).

(** [handleAddProcessClick()]: the two [parseInt] results are the inputs. *)
Definition handleAddProcessClick (r : Registry) (size unit : jsnum)
  : Registry * option Alert :=
  createProcess r (JS.mul size unit).

(** The value of [memoryManager]. *)
Inductive Manager : Type :=
| Static (m : SM.t)
| Dynamic (m : DM.t).

Record Simulation : Type := mkSimulation {
  memoryManager : Manager;
  registry : Registry
}.

(** The state of the form controls read by [initialize]. *)
Record Controls : Type := mkControls {
  algorithm : string;          (* algorithmSelect.value *)
  dynamicAlgorithm : string;   (* dynamicAlgorithmSelect.value *)
  coalesceChecked : bool       (* coalesceCheckbox.checked *)
}.

(** [initialize()] *)
Definition initialize (c : Controls) (r : Registry) : Simulation :=
  {| memoryManager :=
       if String.eqb (algorithm c) "static"
       then Static (SM.new (Fin TOTAL_MEMORY))
       else Dynamic (DM.new (Fin TOTAL_MEMORY) (coalesceChecked c) (dynamicAlgorithm c));
     registry :=
       {| processes := map mark_unallocated (processes r);
          nextProcessId := nextProcessId r |} |}.

(** What a click inside the process list can hit. *)
Inductive Target : Type :=
| AllocateButton (dataId : Z)      (* class "allocate", data-id *)
| DeallocateButton (dataId : Z)    (* class "deallocate", data-id *)
| OtherElement.

(** The buttons produced by [renderProcessList()]. *)
Definition renderProcessList (ps : list ProcessControlBlock) : list Target :=
  map (fun process =>
         if allocated process
         then DeallocateButton (pid process)
         else AllocateButton (pid process)) ps.

(** [memoryManager.allocate(process)] for a [process] found in the registry:
    the mutated process is the registry's own object. *)
Definition manager_allocate (st : Simulation) (process : ProcessControlBlock)
  : Simulation * bool :=
  let store (process' : ProcessControlBlock) : Registry :=
    {| processes :=
         update_first (fun p => (pid p =? pid process)%Z) (fun _ => process')
                      (processes (registry st));
       nextProcessId := nextProcessId (registry st) |} in
  match memoryManager st with
  | Static m =>
      let r := SM.allocate m process in
      ({| memoryManager := Static (ar_manager r); registry := store (ar_process r) |},
       ar_ok r)
  | Dynamic m =>
      let r := DM.allocate m process in
      ({| memoryManager := Dynamic (ar_manager r); registry := store (ar_process r) |},
       ar_ok r)
  end.

(** [memoryManager.deallocate(processId)] *)
Definition manager_deallocate (st : Simulation) (processId : Z) : Simulation :=
  match memoryManager st with
  | Static m =>
      let '(m', ps) := SM.deallocate m (processes (registry st)) processId in
      {| memoryManager := Static m';
         registry := {| processes := ps; nextProcessId := nextProcessId (registry st) |} |}
  | Dynamic m =>
      let '(m', ps) := DM.deallocate m (processes (registry st)) processId in
      {| memoryManager := Dynamic m';
         registry := {| processes := ps; nextProcessId := nextProcessId (registry st) |} |}
  end.

(** [handleProcessListClick(e)]; [None] is the [TypeError] of reading
    [process.size] when [processes.find] returned [undefined]. *)
Definition handleProcessListClick (st : Simulation) (target : Target)
  : option Simulation :=
  match target with
  | AllocateButton processId =>
      match find (fun p => (pid p =? processId)%Z) (processes (registry st)) with
      | Some process => Some (fst (manager_allocate st process))
      | None => None
      end
  | DeallocateButton processId => Some (manager_deallocate st processId)
  | OtherElement => Some st
  end.

(** The five default processes of [setupInitialState()]. *)
Definition default_sizes : list jsnum :=
  [Fin (512 * 1024); Fin 1572864 (* 1.5 * 1024 * 1024 *);
   Fin (3 * 1024 * 1024); Fin (700 * 1024); Fin (4 * 1024 * 1024)]%Z.

(** [setupInitialState()], for the controls' initial values [c]. *)
Definition setupInitialState (c : Controls) : Simulation :=
  initialize c (fold_left (fun r s => fst (createProcess r s)) default_sizes empty_registry).

(** Events of the page. *)
Inductive Event : Type :=
| AddProcessClick (size unit : jsnum)
| ControlsChange (c : Controls)       (* any control change, or the reset button *)
| ProcessListClick (target : Target).

(** One event handled to completion.  A click in the process list hits a
    button of the list as last rendered, or some other element. *)
Inductive step : Simulation -> Event -> Simulation -> Prop :=
| step_add st size unit :
    step st (AddProcessClick size unit)
         {| memoryManager := memoryManager st;
            registry := fst (handleAddProcessClick (registry st) size unit) |}
| step_controls st c :
    step st (ControlsChange c) (initialize c (registry st))
| step_click st target st' :
    target = OtherElement \/ In target (renderProcessList (processes (registry st))) ->
    handleProcessListClick st target = Some st' ->
    step st (ProcessListClick target) st'.

Inductive reachable : Simulation -> Prop :=
| reachable_init c : reachable (setupInitialState c)
| reachable_step st ev st' : reachable st -> step st ev st' -> reachable st'.

(** ** Predicates used in the statements *)

(** Coalescing by recursion on the list: [current] absorbs the free blocks
    that follow it. *)
Fixpoint coalesce_from (current : DM.Block) (rest : list DM.Block) : list DM.Block :=
  match rest with
  | [] => [current]
  | next :: tl =>
      if DM.free current && DM.free next
      then coalesce_from (DM.grow current next) tl
      else current :: coalesce_from next tl
  end.

Definition coalesce_rec (mem : list DM.Block) : list DM.Block :=
  match mem with
  | [] => []
  | b :: rest => coalesce_from b rest
  end.

(** Some two neighbouring blocks are both free. *)
Fixpoint adjacent_free (mem : list DM.Block) : bool :=
  match mem with
  | [] => false
  | b1 :: rest =>
      match rest with
      | [] => false
      | b2 :: _ => (DM.free b1 && DM.free b2) || adjacent_free rest
      end
  end.

(** Every block size is a finite number. *)
Definition finite_sizes (mem : list DM.Block) : Prop :=
  Forall (fun b => JS.is_finite (DM.size b)) mem.

(** [block.size - size], the quantity the best and worst fit compare. *)
Definition fit_diff (requested : jsnum) (b : DM.Block) : jsnum :=
  JS.sub (DM.size b) requested.

(** The blocks tile the addresses from [start] to [stop]: each block starts
    where the previous one ends and has a positive size. *)
Fixpoint layout (start : Z) (mem : list DM.Block) (stop : Z) : Prop :=
  match mem with
  | [] => start = stop
  | b :: rest =>
      exists s, DM.address b = Fin start /\ DM.size b = Fin s /\ (0 < s)%Z
                /\ layout (start + s) rest stop
  end.

(** Best fit, as the specification words it: the selected block qualifies,
    no qualifying block has a smaller difference, every qualifying block
    before it has a strictly larger one; failure when nothing qualifies. *)
Definition best_fit_spec (mem : list DM.Block) (requested : jsnum)
           (result : option nat) : Prop :=
  match result with
  | Some i =>
      exists b, nth_error mem i = Some b
                /\ DM.qualifies requested b = true
                /\ forall j b', nth_error mem j = Some b' ->
                                DM.qualifies requested b' = true ->
                                JS.le (fit_diff requested b) (fit_diff requested b') = true
                                /\ (j < i ->
                                    JS.lt (fit_diff requested b) (fit_diff requested b') = true)
  | None => forall b, In b mem -> DM.qualifies requested b = false
  end.

(** Worst fit: the same with the largest difference. *)
Definition worst_fit_spec (mem : list DM.Block) (requested : jsnum)
           (result : option nat) : Prop :=
  match result with
  | Some i =>
      exists b, nth_error mem i = Some b
                /\ DM.qualifies requested b = true
                /\ forall j b', nth_error mem j = Some b' ->
                                DM.qualifies requested b' = true ->
                                JS.le (fit_diff requested b') (fit_diff requested b) = true
                                /\ (j < i ->
                                    JS.lt (fit_diff requested b') (fit_diff requested b) = true)
  | None => forall b, In b mem -> DM.qualifies requested b = false
  end.

(** The selected block has the lowest address among the qualifying blocks
    with the same difference. *)
Definition lowest_address_tie (mem : list DM.Block) (requested : jsnum)
           (result : option nat) : Prop :=
  forall i b b', result = Some i -> nth_error mem i = Some b ->
                 In b' mem -> DM.qualifies requested b' = true ->
                 fit_diff requested b' = fit_diff requested b ->
                 JS.le (DM.address b) (DM.address b') = true.

(** Blocks for the worked examples. *)
Definition free_block (a s : Z) : DM.Block :=
  {| DM.address := Fin a; DM.size := Fin s; DM.free := true; DM.processId := None |}.

Definition occupied_block (a s owner : Z) : DM.Block :=
  {| DM.address := Fin a; DM.size := Fin s; DM.free := false;
     DM.processId := Some owner |}.

(** Free blocks of 512 KiB, 2 MiB and 1 MiB at increasing addresses. *)
Definition scenario_blocks : list DM.Block :=
  [ free_block OS_MEMORY_SIZE (512 * KiB);
    free_block (OS_MEMORY_SIZE + 512 * KiB) (2 * MiB);
    free_block (OS_MEMORY_SIZE + 512 * KiB + 2 * MiB) MiB ].

(** The sizes of the free blocks of a list, in address order. *)
Definition free_sizes (mem : list DM.Block) : list jsnum :=
  map DM.size (filter DM.free mem).

(** The list after a split, written as a concatenation. *)
Definition split_result (process : ProcessControlBlock)
           (pre : list DM.Block) (b : DM.Block) (post : list DM.Block) : list DM.Block :=
  pre ++ DM.occupy process b
      :: (if JS.gt (DM.size b) (psize process)
          then [DM.remainder process b (JS.sub (DM.size b) (psize process))]
          else [])
      ++ post.

(** The first block of a list is free. *)
Definition head_free (mem : list DM.Block) : bool :=
  match mem with
  | [] => false
  | b :: _ => DM.free b
  end.

(** ** Invariants of the running simulation *)

(** A size accepted by [createProcess]: neither branch of its guard fires. *)
Definition valid_size (n : jsnum) : Prop :=
  JS.isNaN n || JS.le n (Fin 0) = false.

(** The same tiling for the partitions of the static manager. *)
Fixpoint static_layout (start : Z) (mem : list SM.Partition) (stop : Z) : Prop :=
  match mem with
  | [] => start = stop
  | x :: rest =>
      exists s, SM.address x = Fin start /\ SM.size x = Fin s /\ (0 < s)%Z
                /\ static_layout (start + s) rest stop
  end.

Definition owner_list (o : option Z) : list Z :=
  match o with Some id => [id] | None => [] end.

(** The process identities that own a region, in address order. *)
Definition owners (mem : list DM.Block) : list Z :=
  flat_map (fun b => owner_list (DM.processId b)) mem.

Definition static_owners (mem : list SM.Partition) : list Z :=
  flat_map (fun x => owner_list (SM.processId x)) mem.

(** [free] and [processId] agree: a region is free iff it has no owner. *)
Definition no_owner (o : option Z) : bool :=
  match o with Some _ => false | None => true end.

Definition block_consistent (b : DM.Block) : Prop :=
  DM.free b = no_owner (DM.processId b).

Definition partition_consistent (x : SM.Partition) : Prop :=
  SM.free x = no_owner (SM.processId x).

(** The registry numbers its processes 0, 1, 2, ... in creation order and
    only holds sizes that passed the guard of [createProcess]. *)
Record registry_inv (r : Registry) : Prop := {
  ri_ids : forall k p, nth_error (processes r) k = Some p -> pid p = Z.of_nat k;
  ri_next : nextProcessId r = Z.of_nat (length (processes r));
  ri_sizes : forall p, In p (processes r) -> valid_size (psize p)
}.

(** Ownership bookkeeping shared by both managers, on the list of owners. *)
Record ownership_inv (own : list Z) (r : Registry) : Prop := {
  oi_nodup : NoDup own;
  oi_unallocated : forall p, In p (processes r) -> allocated p = false -> ~ In (pid p) own;
  oi_registered : forall id, In id own -> (0 <= id < nextProcessId r)%Z
}.

Record dynamic_inv (m : DM.t) (r : Registry) : Prop := {
  di_layout : layout OS_MEMORY_SIZE (DM.memory m) TOTAL_MEMORY;
  di_consistent : Forall block_consistent (DM.memory m);
  di_ownership : ownership_inv (owners (DM.memory m)) r;
  di_coalesced : DM.coalesceEnabled m = true -> adjacent_free (DM.memory m) = false
}.

Definition geometry (x : SM.Partition) : Z * jsnum * jsnum :=
  (SM.id x, SM.address x, SM.size x).

Record static_inv (m : SM.t) (r : Registry) : Prop := {
  si_geometry : map geometry (SM.memory m)
                = map geometry (SM.memory (SM.new (Fin TOTAL_MEMORY)));
  si_consistent : Forall partition_consistent (SM.memory m);
  si_ownership : ownership_inv (static_owners (SM.memory m)) r
}.

Definition simulation_inv (st : Simulation) : Prop :=
  registry_inv (registry st)
  /\ match memoryManager st with
     | Static m => static_inv m (registry st)
     | Dynamic m => dynamic_inv m (registry st)
     end.

(** ** Inputs of the worked examples *)

Definition static_controls : Controls :=
  {| algorithm := "static"; dynamicAlgorithm := "first"; coalesceChecked := true |}.

Definition dynamic_controls (fit : string) (coalesce : bool) : Controls :=
  {| algorithm := "dynamic"; dynamicAlgorithm := fit; coalesceChecked := coalesce |}.

(** The second and third default processes: 1.5 MiB and 3 MiB. *)
Definition process_1_5MiB : ProcessControlBlock :=
  new_ProcessControlBlock 1 (Fin 1572864).

Definition process_3MiB : ProcessControlBlock :=
  new_ProcessControlBlock 2 (Fin (3 * MiB)).

(** The static manager as constructed by the page. *)
Definition static_fresh : SM.t := SM.new (Fin TOTAL_MEMORY).

(** A finite positive number, the sizes the specification lets through. *)
Definition finite_positive (n : jsnum) : Prop :=
  exists z, n = Fin z /\ (0 < z)%Z.

(** The registry after one more process of size [n] was created. *)
Definition registered (r : Registry) (n : jsnum) : Registry :=
  {| processes := processes r ++ [ {| pid := nextProcessId r; psize := n;
                                      allocated := false; partitionId := None |} ];
     nextProcessId := (nextProcessId r + 1)%Z |}.

(** The identity [id] owns at most one region of the list of owners. *)
Definition owned_at_most_once (id : Z) (own : list Z) : Prop :=
  count_occ Z.eq_dec own id <= 1.

(** A 512 KiB process, the first default process. *)
Definition process_512KiB : ProcessControlBlock :=
  new_ProcessControlBlock 0 (Fin (512 * KiB)).

(** The static manager after [allocate] was called twice with the same
    process. *)
Definition static_twice : SM.t :=
  let first := SM.allocate static_fresh process_512KiB in
  ar_manager (SM.allocate (ar_manager first) (ar_process first)).

(** The page in dynamic mode, first fit, coalescing enabled. *)
Definition coalescing_start : Simulation :=
  setupInitialState (dynamic_controls "first" true).

(** How many regions the identity [id] owns. *)
Definition owned_count (id : Z) (own : list Z) : nat :=
  count_occ Z.eq_dec own id.

(** The dynamic manager (first fit, coalescing) after [allocate] was called
    twice with the same process. *)
Definition dynamic_twice : DM.t :=
  let first := DM.allocate (DM.new (Fin TOTAL_MEMORY) true "first") process_512KiB in
  ar_manager (DM.allocate (ar_manager first) (ar_process first)).

(** A fragmented best-fit block list with coalescing: the first three
    default processes are allocated, then the second one is released, which
    leaves a 1.5 MiB hole between two occupied blocks. *)
Definition fragmented : DM.t :=
  let m0 := DM.new (Fin TOTAL_MEMORY) true "best" in
  let m1 := ar_manager (DM.allocate m0 process_512KiB) in
  let m2 := ar_manager (DM.allocate m1 process_1_5MiB) in
  let m3 := ar_manager (DM.allocate m2 process_3MiB) in
  fst (DM.deallocate m3 [] 1).

(** The fourth default process, 700 KiB. *)
Definition process_700KiB : ProcessControlBlock :=
  new_ProcessControlBlock 3 (Fin (700 * KiB)).

(** ** Presentation helpers of the source *)

(** [Number.prototype.toString(16)]: lower-case hexadecimal digits, a minus
    sign for negative numbers, and the names of the special values. *)
Definition toString16 (a : jsnum) : string :=
  match a with
  | NaN => "NaN"
  | PosInf => "Infinity"
  | NegInf => "-Infinity"
  | Fin z => HexadecimalString.NilZero.string_of_int (Z.to_hex_int z)
  end.

(** [String.prototype.toUpperCase()] on ASCII text. *)
Definition toUpperCase_char (c : ascii) : ascii :=
  let n := nat_of_ascii c in
  if (97 <=? n) && (n <=? 122) then ascii_of_nat (n - 32) else c.

Fixpoint toUpperCase (s : string) : string :=
  match s with
  | EmptyString => EmptyString
  | String c rest => String (toUpperCase_char c) (toUpperCase rest)
  end.

Fixpoint repeat_char (c : ascii) (n : nat) : string :=
  match n with
  | O => EmptyString
  | S k => String c (repeat_char c k)
  end.

(** [s.padStart(targetLength, c)] for a one-character filler. *)
Definition padStart (targetLength : nat) (c : ascii) (s : string) : string :=
  if String.length s <? targetLength
  then (repeat_char c (targetLength - String.length s) ++ s)%string
  else s.

(** [formatAddress(address)] *)
Definition formatAddress (address : jsnum) : string :=
  ("0x" ++ padStart 8 "0" (toUpperCase (toString16 address)))%string.

(** Reading an address label back: the text after ["0x"], upper-case
    hexadecimal digits, leading zeros allowed. *)
Definition hex_value (c : ascii) : option Z :=
  let n := nat_of_ascii c in
  if (48 <=? n) && (n <=? 57) then Some (Z.of_nat (n - 48))
  else if (65 <=? n) && (n <=? 70) then Some (Z.of_nat (n - 55))
  else None.

Fixpoint parse_hex (acc : Z) (s : string) : option Z :=
  match s with
  | EmptyString => Some acc
  | String c rest =>
      match hex_value c with
      | Some d => parse_hex (16 * acc + d) rest
      | None => None
      end
  end.

Definition parseAddress (s : string) : option Z :=
  match s with
  | String "0" (String "x" digits) => parse_hex 0 digits
  | _ => None
  end.

(** [process.name]: the constructor's default [`Process ${id}`]; no caller
    passes a name and nothing assigns the field afterwards. *)
Definition process_name (p : ProcessControlBlock) : string :=
  ("Process " ++ DecimalString.NilZero.string_of_int (Z.to_int (pid p)))%string.

(** What [renderMemory] writes for one block of [memoryManager.memory]: the
    class, the name shown, the size handed to [formatBytes] and the two
    address labels.  The percentages of [style.top] and [style.height] are
    floating-point quotients and are not part of the record. *)
Record BlockView : Type := mkBlockView {
  className : string;
  shownName : string;
  shownSize : jsnum;
  startAddr : string;
  endAddr : string
}.

(** The fields of a region that [renderMemory] reads: [address], [size],
    [free], [processId]. *)
Record Region : Type := mkRegion {
  r_address : jsnum;
  r_size : jsnum;
  r_free : bool;
  r_owner : option Z
}.

Definition block_region (b : DM.Block) : Region :=
  {| r_address := DM.address b; r_size := DM.size b;
     r_free := DM.free b; r_owner := DM.processId b |}.

Definition partition_region (x : SM.Partition) : Region :=
  {| r_address := SM.address x; r_size := SM.size x;
     r_free := SM.free x; r_owner := SM.processId x |}.

(** [memoryManager.memory] as the renderer sees it. *)
Definition manager_regions (m : Manager) : list Region :=
  match m with
  | Static s => map partition_region (SM.memory s)
  | Dynamic d => map block_region (DM.memory d)
  end.

(** The body of the [forEach] of [renderMemory]. *)
Definition render_block (ps : list ProcessControlBlock) (block : Region) : BlockView :=
  let process :=
    match r_owner block with
    | Some id => find (fun p => (pid p =? id)%Z) ps
    | None => None
    end in
  {| className := if r_free block then "memory-block free" else "memory-block occupied";
     shownName := match process with
                  | Some p => process_name p
                  | None => "Free"
                  end;
     shownSize := r_size block;
     startAddr := formatAddress (r_address block);
     endAddr := formatAddress (JS.sub (JS.add (r_address block) (r_size block)) (Fin 1)) |}.

(** The operating-system block rendered first. *)
Definition os_view : BlockView :=
  {| className := "memory-block occupied";
     shownName := "Operating System";
     shownSize := Fin OS_MEMORY_SIZE;
     startAddr := formatAddress (Fin 0);
     endAddr := formatAddress (Fin (OS_MEMORY_SIZE - 1)) |}.

(** [renderMemory()] *)
Definition renderMemory (st : Simulation) : list BlockView :=
  os_view :: map (render_block (processes (registry st)))
                 (manager_regions (memoryManager st)).

(** ** The backing reference of a process *)

(** What [process.partitionId] refers to: the partition's [id] in static
    mode, the block's [address] in dynamic mode. *)
Definition static_backing (mem : list SM.Partition) (p : ProcessControlBlock) : Prop :=
  if allocated p
  then exists x, In x mem /\ SM.processId x = Some (pid p) /\ SM.free x = false
                 /\ partitionId p = Some (Fin (SM.id x))
                 /\ JS.ge (SM.size x) (psize p) = true
  else partitionId p = None.

Definition dynamic_backing (mem : list DM.Block) (p : ProcessControlBlock) : Prop :=
  if allocated p
  then exists b, In b mem /\ DM.processId b = Some (pid p) /\ DM.free b = false
                 /\ partitionId p = Some (DM.address b)
                 /\ DM.size b = psize p
  else partitionId p = None.

Definition backing_inv (st : Simulation) : Prop :=
  match memoryManager st with
  | Static m => Forall (static_backing (SM.memory m)) (processes (registry st))
  | Dynamic m => Forall (dynamic_backing (DM.memory m)) (processes (registry st))
  end.

(** The identities and sizes of the registered processes, in order. *)
Definition registry_signature (r : Registry) : list (Z * jsnum) :=
  map (fun p => (pid p, psize p)) (processes r).

(** The memory list of the active manager has [n] regions. *)
Definition region_count (m : Manager) : nat :=
  length (manager_regions m).

(** The start addresses of a block list. *)
Definition boundaries (mem : list DM.Block) : list jsnum :=
  map DM.address mem.

(** The occupied blocks of a list, in order. *)
Definition occupied (mem : list DM.Block) : list DM.Block :=
  filter (fun b => negb (DM.free b)) mem.

(** The identities owning a region of the active manager. *)
Definition manager_owners (m : Manager) : list Z :=
  match m with
  | Static s => static_owners (SM.memory s)
  | Dynamic d => owners (DM.memory d)
  end.

(** The page in dynamic mode after the allocate button of the first default
    process was clicked. *)
Definition after_first_allocation : Simulation :=
  fst (manager_allocate coalescing_start process_512KiB).

(** The first default process as the registry holds it afterwards. *)
Definition first_process_allocated : ProcessControlBlock :=
  mark_allocated (Fin OS_MEMORY_SIZE) process_512KiB.

(** First fit: the selected block qualifies and no block before it does;
    failure when nothing qualifies. *)
Definition first_fit_spec (mem : list DM.Block) (requested : jsnum)
           (result : option nat) : Prop :=
  match result with
  | Some i =>
      exists b, nth_error mem i = Some b
                /\ DM.qualifies requested b = true
                /\ forall j b', j < i -> nth_error mem j = Some b' ->
                                DM.qualifies requested b' = false
  | None => forall b, In b mem -> DM.qualifies requested b = false
  end.

(** The largest size a region of the active manager can have: the 8 MiB
    partition, or the whole usable space. *)
Definition largest_region (m : Manager) : Z :=
  match m with
  | Static _ => 8 * MiB
  | Dynamic _ => TOTAL_MEMORY - OS_MEMORY_SIZE
  end.

(** A process of size [Infinity], as [createProcess(Infinity)] registers it. *)
Definition process_infinite : ProcessControlBlock :=
  new_ProcessControlBlock 5 PosInf.

(** What the handler does for the button of process [p]. *)
Definition button_of (p : ProcessControlBlock) : Target :=
  if allocated p then DeallocateButton (pid p) else AllocateButton (pid p).

Definition click_result (st : Simulation) (p : ProcessControlBlock) : Simulation :=
  if allocated p then manager_deallocate st (pid p) else fst (manager_allocate st p).

(** Address and size of every block, in order. *)
Definition extents (mem : list DM.Block) : list (jsnum * jsnum) :=
  map (fun b => (DM.address b, DM.size b)) mem.

(** A dynamic manager without coalescing whose first block is occupied. *)
Definition uncoalesced : DM.t :=
  ar_manager (DM.allocate (DM.new (Fin TOTAL_MEMORY) false "first") process_512KiB).




(** ** The earlier revision of the page ([src/unnamed/part_000])

    No operating-system prefix, and a dynamic manager that always uses first
    fit.  [StaticMemoryManager.allocate] and [deallocate], [coalesce] and
    [createProcess] are the same code as in [src/script.js] and are reused;
    the constructors and the dynamic [allocate] and [deallocate] differ. *)

Module Legacy.

(** The dynamic manager has no [fitAlgorithm] field. *)
Record t : Type := mk {
  totalSize : jsnum;
  coalesceEnabled : bool;
  memory : list DM.Block
}.

(** [new StaticMemoryManager(totalSize)]: [currentAddress] starts at [0]. *)
Definition new_static (totalSize : jsnum) : SM.t :=
  {| SM.totalSize := totalSize;
     SM.memory := SM.build SM.partitionSizes 0%Z (Fin 0) |}.

(** [new DynamicMemoryManager(totalSize, coalesceEnabled)] *)
Definition new_dynamic (totalSize : jsnum) (coalesceEnabled : bool) : t :=
  {| totalSize := totalSize;
     coalesceEnabled := coalesceEnabled;
     memory := [ {| DM.address := Fin 0; DM.size := totalSize;
                    DM.free := true; DM.processId := None |} ] |}.

(** [process.allocated = flag]: this revision leaves [partitionId] alone in
    dynamic mode. *)
Definition set_allocated (flag : bool) (p : ProcessControlBlock) : ProcessControlBlock :=
  {| pid := pid p; psize := psize p; allocated := flag; partitionId := partitionId p |}.

(** The [for (let i = 0; i < this.memory.length; i++)] loop of [allocate]:
    [rest] holds the blocks from index [i] on, [mem] is [this.memory].  The
    body of the [if] is the split of [DM.split_at]. *)
Fixpoint allocate_scan (rest : list DM.Block) (i : nat) (mem : list DM.Block)
         (process : ProcessControlBlock) : option (list DM.Block) :=
  match rest with
  | [] => None
  | block :: rest' =>
      if DM.free block && JS.ge (DM.size block) (psize process)
      then Some (DM.split_at i block process mem)
      else allocate_scan rest' (S i) mem process
  end.

(** [allocate(process)]; the alert of this revision names no algorithm. *)
Definition allocate (m : t) (process : ProcessControlBlock) : AllocResult t :=
  match allocate_scan (memory m) 0 (memory m) process with
  | Some mem' =>
      mkAllocResult {| totalSize := totalSize m; coalesceEnabled := coalesceEnabled m;
                       memory := mem' |}
                    (set_allocated true process) true None
  | None => mkAllocResult m process false (Some (AlertNoMemory process ""))
  end.

(** [deallocate(processId)] *)
Definition deallocate (m : t) (processes : list ProcessControlBlock) (wanted : Z)
  : t * list ProcessControlBlock :=
  match find (DM.owned_by wanted) (memory m) with
  | Some _ =>
      let mem1 := update_first (DM.owned_by wanted) DM.release (memory m) in
      ({| totalSize := totalSize m; coalesceEnabled := coalesceEnabled m;
          memory := if coalesceEnabled m then DM.coalesce mem1 else mem1 |},
       update_first (fun p => (pid p =? wanted)%Z) (set_allocated false) processes)
  | None => (m, processes)
  end.

(** The same manager in the current revision, configured for first fit. *)
Definition as_first_fit (m : t) : DM.t :=
  {| DM.totalSize := totalSize m; DM.coalesceEnabled := coalesceEnabled m;
     DM.fitAlgorithm := "first"; DM.memory := memory m |}.

(** The managers this revision can hold: constructed for [TOTAL_MEMORY],
    then any calls of [allocate] with a size [createProcess] lets through
    and of [deallocate]. *)
Inductive dynamic_run : t -> Prop :=
| dynamic_run_new coalesce : dynamic_run (new_dynamic (Fin TOTAL_MEMORY) coalesce)
| dynamic_run_allocate m process :
    dynamic_run m -> valid_size (psize process) ->
    dynamic_run (ar_manager (allocate m process))
| dynamic_run_deallocate m ps wanted :
    dynamic_run m -> dynamic_run (fst (deallocate m ps wanted)).

Inductive static_run : SM.t -> Prop :=
| static_run_new : static_run (new_static (Fin TOTAL_MEMORY))
| static_run_allocate m process :
    static_run m -> static_run (ar_manager (SM.allocate m process))
| static_run_deallocate m ps wanted :
    static_run m -> static_run (fst (SM.deallocate m ps wanted)).

End Legacy.

(** Examples for the earlier revision: a dynamic manager after one
    allocation, and a static one after an allocation and a release. *)
Definition legacy_dynamic_example : Legacy.t :=
  ar_manager (Legacy.allocate (Legacy.new_dynamic (Fin TOTAL_MEMORY) true) process_512KiB).

Definition legacy_static_example : SM.t :=
  fst (SM.deallocate
         (ar_manager (SM.allocate (Legacy.new_static (Fin TOTAL_MEMORY)) process_512KiB))
         [process_512KiB] 0).

(** * Properties *)

(** ** Array helpers *)

Lemma set_nth_app {A} (pre : list A) (x y : A) (post : list A) :
  set_nth (length pre) y (pre ++ x :: post) = pre ++ y :: post.
Proof.
  induction pre as [|a pre IH]; simpl; [reflexivity|].
  now rewrite IH.
Qed.

Lemma nth_error_middle {A} (pre : list A) (x : A) (post : list A) :
  nth_error (pre ++ x :: post) (length pre) = Some x.
Proof.
  induction pre as [|a pre IH]; simpl; auto.
Qed.

Lemma nth_error_split_at {A} (l : list A) (i : nat) (x : A) :
  nth_error l i = Some x ->
  exists pre post, l = pre ++ x :: post /\ length pre = i.
Proof.
  revert i; induction l as [|a l IH]; intros [|i] H; simpl in H; try discriminate.
  - injection H as ->. now exists [], l.
  - destruct (IH _ H) as (pre & post & -> & Hlen).
    exists (a :: pre), post. simpl. now rewrite Hlen.
Qed.

Lemma splice_remove_app {A} (pre : list A) (x y : A) (post : list A) :
  splice_remove (length pre + 1) (pre ++ x :: y :: post) = pre ++ x :: post.
Proof.
  unfold splice_remove.
  induction pre as [|a pre IH]; simpl; [reflexivity|].
  simpl in IH. now rewrite IH.
Qed.

Lemma splice_insert_app {A} (pre : list A) (x y : A) (post : list A) :
  splice_insert (length pre + 1) y (pre ++ x :: post) = pre ++ x :: y :: post.
Proof.
  unfold splice_insert.
  induction pre as [|a pre IH]; simpl; [reflexivity|].
  now rewrite IH.
Qed.

(** ** Coalescing *)

(** The [for] loop, started at the block at position [length pre] with
    enough fuel, computes [coalesce_from] on that block and leaves the
    blocks before it alone. *)
Lemma coalesce_loop_from (rest : list DM.Block) :
  forall (fuel : nat) (pre : list DM.Block) (current : DM.Block),
    length rest <= fuel ->
    DM.coalesce_loop fuel (length pre) (pre ++ current :: rest)
    = pre ++ coalesce_from current rest.
Proof.
  induction rest as [|next tl IH]; intros fuel pre current Hfuel.
  - destruct fuel as [|fuel]; simpl; [reflexivity|].
    rewrite length_app. simpl.
    destruct (Z.ltb_spec (Z.of_nat (length pre)) (Z.of_nat (length pre + 1) - 1));
      [lia | reflexivity].
  - destruct fuel as [|fuel]; simpl in Hfuel; [lia|].
    cbn [DM.coalesce_loop coalesce_from].
    rewrite length_app. cbn [length].
    destruct (Z.ltb_spec (Z.of_nat (length pre))
                         (Z.of_nat (length pre + S (S (length tl))) - 1)); [|lia].
    rewrite nth_error_middle.
    replace (pre ++ current :: next :: tl) with ((pre ++ [current]) ++ next :: tl)
      by (rewrite <- app_assoc; reflexivity).
    replace (length pre + 1) with (length (pre ++ [current]))
      by (rewrite length_app; simpl; lia).
    rewrite nth_error_middle.
    destruct (DM.free current && DM.free next).
    + rewrite <- app_assoc. cbn [app].
      rewrite set_nth_app.
      rewrite length_app. cbn [length].
      rewrite splice_remove_app.
      apply IH. lia.
    + rewrite IH by lia. rewrite <- app_assoc. reflexivity.
Qed.

(** [coalesce] is the recursive merge, for every fuel at least the length
    of the list: the loop has run to its exit. *)
Lemma coalesce_loop_fuel (mem : list DM.Block) (fuel : nat) :
  length mem <= fuel -> DM.coalesce_loop fuel 0 mem = coalesce_rec mem.
Proof.
  destruct mem as [|b rest]; intros Hfuel.
  - destruct fuel; reflexivity.
  - simpl in Hfuel. apply (coalesce_loop_from rest fuel [] b). lia.
Qed.

Lemma coalesce_eq (mem : list DM.Block) : DM.coalesce mem = coalesce_rec mem.
Proof. unfold DM.coalesce. apply coalesce_loop_fuel. lia. Qed.

Lemma coalesce_from_head (rest : list DM.Block) :
  forall current, exists c tl,
    coalesce_from current rest = c :: tl /\ DM.free c = DM.free current
    /\ DM.address c = DM.address current /\ DM.processId c = DM.processId current.
Proof.
  induction rest as [|next tl IH]; intros current; simpl.
  - now exists current, [].
  - destruct (DM.free current && DM.free next).
    + destruct (IH (DM.grow current next)) as (c & r & -> & Hf & Ha & Hp).
      now exists c, r.
    + now exists current, (coalesce_from next tl).
Qed.

Lemma coalesce_from_no_adjacent (rest : list DM.Block) :
  forall current, adjacent_free (coalesce_from current rest) = false.
Proof.
  induction rest as [|next tl IH]; intros current; simpl; [reflexivity|].
  destruct (DM.free current && DM.free next) eqn:Hpair; [apply IH|].
  specialize (IH next).
  destruct (coalesce_from_head tl next) as (c & r & Heq & Hf & _).
  rewrite Heq in *.
  change (adjacent_free (current :: c :: r))
    with ((DM.free current && DM.free c) || adjacent_free (c :: r)).
  rewrite Hf, Hpair, IH. reflexivity.
Qed.

Lemma coalesce_rec_no_adjacent (mem : list DM.Block) :
  adjacent_free (coalesce_rec mem) = false.
Proof.
  destruct mem; [reflexivity | apply coalesce_from_no_adjacent].
Qed.

(** Without two free neighbours the merge changes nothing. *)
Lemma coalesce_rec_fixpoint (mem : list DM.Block) :
  adjacent_free mem = false -> coalesce_rec mem = mem.
Proof.
  destruct mem as [|b rest]; [reflexivity|]. simpl coalesce_rec.
  revert b. induction rest as [|next tl IH]; intros b H; [reflexivity|].
  change (adjacent_free (b :: next :: tl))
    with ((DM.free b && DM.free next) || adjacent_free (next :: tl)) in H.
  apply orb_false_iff in H as [Hpair Hrest].
  cbn [coalesce_from]. rewrite Hpair. f_equal. now apply IH.
Qed.

Lemma adjacent_free_nth (mem : list DM.Block) :
  adjacent_free mem = false ->
  forall i b1 b2,
    nth_error mem i = Some b1 -> nth_error mem (S i) = Some b2 ->
    DM.free b1 && DM.free b2 = false.
Proof.
  induction mem as [|a rest IH]; intros H i b1 b2 H1 H2.
  - destruct i; discriminate.
  - destruct rest as [|a' rest']; [destruct i as [|[|i]]; discriminate|].
    change (adjacent_free (a :: a' :: rest'))
      with ((DM.free a && DM.free a') || adjacent_free (a' :: rest')) in H.
    apply orb_false_iff in H as [Hpair Hrest].
    destruct i as [|i].
    + simpl in H1, H2. now injection H1 as <-; injection H2 as <-.
    + apply (IH Hrest i); assumption.
Qed.

(** C5 - coalescing closure: after [coalesce] no two neighbouring blocks of
    the list are both free (whatever run of free blocks there was before),
    and a second [coalesce] returns the same list.  The loop has reached its
    exit: more iterations than the length of the list change nothing. *)
Theorem coalesce_closure (mem : list DM.Block) :
  (forall i b1 b2,
      nth_error (DM.coalesce mem) i = Some b1 ->
      nth_error (DM.coalesce mem) (S i) = Some b2 ->
      DM.free b1 && DM.free b2 = false)
  /\ DM.coalesce (DM.coalesce mem) = DM.coalesce mem
  /\ (forall fuel, length mem <= fuel -> DM.coalesce_loop fuel 0 mem = DM.coalesce mem).
Proof.
  split; [|split].
  - apply adjacent_free_nth. rewrite coalesce_eq. apply coalesce_rec_no_adjacent.
  - rewrite !coalesce_eq. apply coalesce_rec_fixpoint, coalesce_rec_no_adjacent.
  - intros fuel Hfuel. rewrite coalesce_eq. now apply coalesce_loop_fuel.
Qed.

(** Five free blocks in a row, then an occupied one, then a free one: the
    run collapses into a single block. *)
Example coalesce_cascade :
  DM.coalesce [free_block 0 1; free_block 1 2; free_block 3 3; free_block 6 4;
               free_block 10 5; occupied_block 15 1 7; free_block 16 2]
  = [free_block 0 15; occupied_block 15 1 7; free_block 16 2].
Proof. reflexivity. Qed.

(** ** Best fit and worst fit *)

Lemma js_lt_fin (x y : Z) : JS.lt (Fin x) (Fin y) = (x <? y)%Z.
Proof. reflexivity. Qed.

Lemma js_le_fin (x y : Z) : JS.le (Fin x) (Fin y) = (x <=? y)%Z.
Proof. reflexivity. Qed.

Lemma js_lt_false_le (x y : Z) :
  JS.lt (Fin x) (Fin y) = false -> JS.le (Fin y) (Fin x) = true.
Proof. rewrite js_lt_fin, js_le_fin. lia. Qed.

Lemma js_lt_trans_fin (x y : Z) (m : jsnum) :
  JS.lt (Fin x) (Fin y) = true -> JS.lt (Fin y) m = true -> JS.lt (Fin x) m = true.
Proof. destruct m; cbn [JS.lt]; try discriminate; auto; lia. Qed.

Lemma js_lt_between (x y : Z) (m : jsnum) :
  JS.lt (Fin x) m = true -> JS.lt (Fin y) m = false -> JS.lt (Fin x) (Fin y) = true.
Proof. destruct m; cbn [JS.lt]; try discriminate; lia. Qed.

Section FitScans.
Variable r : Z.


Lemma diff_finite (b : DM.Block) :
  JS.is_finite (DM.size b) -> exists d, fit_diff (Fin r) b = Fin d.
Proof. intros [s Hs]. unfold fit_diff. rewrite Hs. now exists (s - r)%Z. Qed.

(** What the best-fit scan returns from any intermediate state: either the
    incoming [bestIndex] (no remaining block beats [minDiff]) or the first
    block of minimal difference among those beating [minDiff]. *)
Lemma bestFit_scan_spec (mem : list DM.Block) :
  finite_sizes mem ->
  forall (k : nat) (best : option nat) (minDiff : jsnum),
    (DM.bestFit_scan (Fin r) mem k best minDiff = best
     /\ forall b, In b mem -> DM.qualifies (Fin r) b = true ->
                  JS.lt (fit_diff (Fin r) b) minDiff = false)
    \/ (exists i b,
           DM.bestFit_scan (Fin r) mem k best minDiff = Some (k + i)
           /\ nth_error mem i = Some b
           /\ DM.qualifies (Fin r) b = true
           /\ JS.lt (fit_diff (Fin r) b) minDiff = true
           /\ forall j b', nth_error mem j = Some b' ->
                           DM.qualifies (Fin r) b' = true ->
                           JS.le (fit_diff (Fin r) b) (fit_diff (Fin r) b') = true
                           /\ (j < i -> JS.lt (fit_diff (Fin r) b) (fit_diff (Fin r) b') = true)).
Proof.
  induction 1 as [|b rest Hb Hrest IH]; intros k best minDiff.
  - left. split; [reflexivity | intros b []].
  - cbn [DM.bestFit_scan]. fold (fit_diff (Fin r) b).
    destruct (diff_finite b Hb) as [d Hd].
    destruct (DM.qualifies (Fin r) b) eqn:Hq.
    + destruct (JS.lt (fit_diff (Fin r) b) minDiff) eqn:Hlt.
      * destruct (IH (S k) (Some k) (fit_diff (Fin r) b)) as [[Hres Hall] | (i & b2 & Hres & Hnth & Hq2 & Hlt2 & Hmin)].
        -- right. exists 0, b. rewrite Hres, Nat.add_0_r.
           repeat split; auto.
           ++ destruct j as [|j]; simpl in H.
              ** injection H as <-. rewrite Hd. rewrite js_le_fin. lia.
              ** apply nth_error_In in H.
                 specialize (Hall _ H H0).
                 rewrite Forall_forall in Hrest.
                 destruct (diff_finite b' (Hrest _ H)) as [d' Hd'].
                 rewrite Hd, Hd' in *. now apply js_lt_false_le.
           ++ lia.
        -- right. exists (S i), b2. rewrite Hres.
           replace (S k + i) with (k + S i) by lia.
           assert (Hfin2 : exists d2, fit_diff (Fin r) b2 = Fin d2).
           { apply diff_finite. rewrite Forall_forall in Hrest.
             eapply Hrest, nth_error_In, Hnth. }
           destruct Hfin2 as [d2 Hd2].
           repeat split; auto.
           ++ rewrite Hd, Hd2 in *. eapply js_lt_trans_fin; eauto.
           ++ destruct j as [|j]; simpl in H.
              ** injection H as <-. rewrite Hd, Hd2 in *.
                 rewrite js_lt_fin in Hlt2. rewrite js_le_fin. lia.
              ** now apply (Hmin j b').
           ++ intros Hj. destruct j as [|j]; simpl in H.
              ** now injection H as <-.
              ** apply (Hmin j b'); auto. lia.
      * destruct (IH (S k) best minDiff) as [[Hres Hall] | (i & b2 & Hres & Hnth & Hq2 & Hlt2 & Hmin)].
        -- left. split; [exact Hres|]. intros b' [<- | Hin] Hq'; auto.
        -- right. exists (S i), b2. rewrite Hres.
           replace (S k + i) with (k + S i) by lia.
           assert (Hfin2 : exists d2, fit_diff (Fin r) b2 = Fin d2).
           { apply diff_finite. rewrite Forall_forall in Hrest.
             eapply Hrest, nth_error_In, Hnth. }
           destruct Hfin2 as [d2 Hd2].
           assert (Hb2b : JS.lt (fit_diff (Fin r) b2) (fit_diff (Fin r) b) = true).
           { rewrite Hd, Hd2 in *. eapply js_lt_between; eauto. }
           repeat split; auto.
           ++ destruct j as [|j]; simpl in H.
              ** injection H as <-. rewrite Hd, Hd2 in *.
                 rewrite js_lt_fin in Hb2b. rewrite js_le_fin. lia.
              ** now apply (Hmin j b').
           ++ intros Hj. destruct j as [|j]; simpl in H.
              ** now injection H as <-.
              ** apply (Hmin j b'); auto. lia.
    + destruct (IH (S k) best minDiff) as [[Hres Hall] | (i & b2 & Hres & Hnth & Hq2 & Hlt2 & Hmin)].
      * left. split; [exact Hres|]. intros b' [<- | Hin] Hq'; auto. congruence.
      * right. exists (S i), b2. rewrite Hres.
        replace (S k + i) with (k + S i) by lia.
        repeat split; auto.
        -- destruct j as [|j]; simpl in H.
           ++ injection H as <-. congruence.
           ++ now apply (Hmin j b').
        -- intros Hj. destruct j as [|j]; simpl in H.
           ++ injection H as <-. congruence.
           ++ apply (Hmin j b'); auto. lia.
Qed.

Lemma js_gt_trans_fin (x y : Z) (m : jsnum) :
  JS.gt (Fin y) m = true -> JS.gt (Fin x) (Fin y) = true -> JS.gt (Fin x) m = true.
Proof. unfold JS.gt. destruct m; cbn [JS.lt]; try discriminate; auto; lia. Qed.

Lemma js_gt_between (x y : Z) (m : jsnum) :
  JS.gt (Fin x) m = true -> JS.gt (Fin y) m = false -> JS.gt (Fin x) (Fin y) = true.
Proof. unfold JS.gt. destruct m; cbn [JS.lt]; try discriminate; lia. Qed.

(** The mirror image for the worst-fit scan. *)
Lemma worstFit_scan_spec (mem : list DM.Block) :
  finite_sizes mem ->
  forall (k : nat) (worst : option nat) (maxDiff : jsnum),
    (DM.worstFit_scan (Fin r) mem k worst maxDiff = worst
     /\ forall b, In b mem -> DM.qualifies (Fin r) b = true ->
                  JS.gt (fit_diff (Fin r) b) maxDiff = false)
    \/ (exists i b,
           DM.worstFit_scan (Fin r) mem k worst maxDiff = Some (k + i)
           /\ nth_error mem i = Some b
           /\ DM.qualifies (Fin r) b = true
           /\ JS.gt (fit_diff (Fin r) b) maxDiff = true
           /\ forall j b', nth_error mem j = Some b' ->
                           DM.qualifies (Fin r) b' = true ->
                           JS.le (fit_diff (Fin r) b') (fit_diff (Fin r) b) = true
                           /\ (j < i -> JS.lt (fit_diff (Fin r) b') (fit_diff (Fin r) b) = true)).
Proof.
  induction 1 as [|b rest Hb Hrest IH]; intros k worst maxDiff.
  - left. split; [reflexivity | intros b []].
  - cbn [DM.worstFit_scan]. fold (fit_diff (Fin r) b).
    destruct (diff_finite b Hb) as [d Hd].
    assert (Hfin : forall b', In b' rest -> exists d', fit_diff (Fin r) b' = Fin d').
    { intros b' Hin. apply diff_finite. rewrite Forall_forall in Hrest. auto. }
    destruct (DM.qualifies (Fin r) b) eqn:Hq.
    + destruct (JS.gt (fit_diff (Fin r) b) maxDiff) eqn:Hgt.
      * destruct (IH (S k) (Some k) (fit_diff (Fin r) b))
          as [[Hres Hall] | (i & b2 & Hres & Hnth & Hq2 & Hgt2 & Hmax)].
        -- right. exists 0, b. rewrite Hres, Nat.add_0_r.
           repeat split; auto; [|lia].
           destruct j as [|j]; simpl in H.
           ++ injection H as <-. rewrite Hd, js_le_fin. lia.
           ++ apply nth_error_In in H. specialize (Hall _ H H0).
              destruct (Hfin _ H) as [d' Hd'].
              rewrite Hd, Hd' in *. unfold JS.gt in Hall.
              now apply js_lt_false_le.
        -- right. exists (S i), b2. rewrite Hres.
           replace (S k + i) with (k + S i) by lia.
           destruct (Hfin b2 (nth_error_In _ _ Hnth)) as [d2 Hd2].
           repeat split; auto.
           ++ rewrite Hd, Hd2 in *. eapply js_gt_trans_fin; eauto.
           ++ destruct j as [|j]; simpl in H.
              ** injection H as <-. rewrite Hd, Hd2 in *.
                 unfold JS.gt in Hgt2. rewrite js_lt_fin in Hgt2.
                 rewrite js_le_fin. lia.
              ** now apply (Hmax j b').
           ++ intros Hj. destruct j as [|j]; simpl in H.
              ** now injection H as <-.
              ** apply (Hmax j b'); auto. lia.
      * destruct (IH (S k) worst maxDiff)
          as [[Hres Hall] | (i & b2 & Hres & Hnth & Hq2 & Hgt2 & Hmax)].
        -- left. split; [exact Hres|]. intros b' [<- | Hin] Hq'; auto.
        -- right. exists (S i), b2. rewrite Hres.
           replace (S k + i) with (k + S i) by lia.
           destruct (Hfin b2 (nth_error_In _ _ Hnth)) as [d2 Hd2].
           assert (Hb2b : JS.lt (fit_diff (Fin r) b) (fit_diff (Fin r) b2) = true).
           { rewrite Hd, Hd2 in *. change (JS.gt (Fin d2) (Fin d) = true).
             eapply js_gt_between; eauto. }
           repeat split; auto.
           ++ destruct j as [|j]; simpl in H.
              ** injection H as <-. rewrite Hd, Hd2 in *.
                 rewrite js_lt_fin in Hb2b. rewrite js_le_fin. lia.
              ** now apply (Hmax j b').
           ++ intros Hj. destruct j as [|j]; simpl in H.
              ** now injection H as <-.
              ** apply (Hmax j b'); auto. lia.
    + destruct (IH (S k) worst maxDiff)
        as [[Hres Hall] | (i & b2 & Hres & Hnth & Hq2 & Hgt2 & Hmax)].
      * left. split; [exact Hres|]. intros b' [<- | Hin] Hq'; auto. congruence.
      * right. exists (S i), b2. rewrite Hres.
        replace (S k + i) with (k + S i) by lia.
        repeat split; auto.
        -- destruct j as [|j]; simpl in H.
           ++ injection H as <-. congruence.
           ++ now apply (Hmax j b').
        -- intros Hj. destruct j as [|j]; simpl in H.
           ++ injection H as <-. congruence.
           ++ apply (Hmax j b'); auto. lia.
Qed.

End FitScans.

Lemma qualifies_not_number (b : DM.Block) : DM.qualifies NaN b = false.
Proof.
  unfold DM.qualifies, JS.ge. cbn [JS.le]. apply andb_false_r.
Qed.

Lemma qualifies_infinite (b : DM.Block) :
  JS.is_finite (DM.size b) -> DM.qualifies PosInf b = false.
Proof.
  intros [s Hs]. unfold DM.qualifies, JS.ge. rewrite Hs. cbn [JS.le].
  apply andb_false_r.
Qed.

Lemma bestFit_scan_nothing (requested : jsnum) (mem : list DM.Block) :
  (forall b, In b mem -> DM.qualifies requested b = false) ->
  forall k best minDiff, DM.bestFit_scan requested mem k best minDiff = best.
Proof.
  induction mem as [|b rest IH]; intros Hnone k best minDiff; [reflexivity|].
  cbn [DM.bestFit_scan]. rewrite (Hnone b (or_introl eq_refl)).
  apply IH. intros b' Hin. apply Hnone. now right.
Qed.

Lemma worstFit_scan_nothing (requested : jsnum) (mem : list DM.Block) :
  (forall b, In b mem -> DM.qualifies requested b = false) ->
  forall k worst maxDiff, DM.worstFit_scan requested mem k worst maxDiff = worst.
Proof.
  induction mem as [|b rest IH]; intros Hnone k worst maxDiff; [reflexivity|].
  cbn [DM.worstFit_scan]. rewrite (Hnone b (or_introl eq_refl)).
  apply IH. intros b' Hin. apply Hnone. now right.
Qed.

Lemma nothing_qualifies_beyond (requested : jsnum) (mem : list DM.Block) :
  finite_sizes mem -> requested = NaN \/ requested = PosInf ->
  forall b, In b mem -> DM.qualifies requested b = false.
Proof.
  intros Hfin Hreq b Hin. unfold finite_sizes in Hfin. rewrite Forall_forall in Hfin.
  destruct Hreq as [-> | ->];
    [apply qualifies_not_number | apply qualifies_infinite; auto].
Qed.

Lemma findBestFit_spec (mem : list DM.Block) (requested : jsnum) :
  finite_sizes mem -> requested <> NegInf ->
  best_fit_spec mem requested (DM._findBestFit mem requested).
Proof.
  intros Hfin Hreq. unfold DM._findBestFit.
  destruct requested as [| | |r]; try congruence.
  - rewrite bestFit_scan_nothing; cbn [best_fit_spec]; intros;
      eapply nothing_qualifies_beyond; eauto.
  - rewrite bestFit_scan_nothing; cbn [best_fit_spec]; intros;
      eapply nothing_qualifies_beyond; eauto.
  - destruct (bestFit_scan_spec r mem Hfin 0 None PosInf)
      as [[Hres Hall] | (i & b & Hres & Hnth & Hq & _ & Hmin)].
    + rewrite Hres. intros b Hin.
      destruct (DM.qualifies (Fin r) b) eqn:Hq; [|reflexivity].
      specialize (Hall b Hin Hq).
      unfold finite_sizes in Hfin. rewrite Forall_forall in Hfin.
      destruct (diff_finite r b (Hfin b Hin)) as [d Hd].
      rewrite Hd in Hall. discriminate.
    + rewrite Hres. exists b. auto.
Qed.

Lemma findWorstFit_spec (mem : list DM.Block) (requested : jsnum) :
  finite_sizes mem -> requested <> NegInf ->
  worst_fit_spec mem requested (DM._findWorstFit mem requested).
Proof.
  intros Hfin Hreq. unfold DM._findWorstFit.
  destruct requested as [| | |r]; try congruence.
  - rewrite worstFit_scan_nothing; cbn [worst_fit_spec]; intros;
      eapply nothing_qualifies_beyond; eauto.
  - rewrite worstFit_scan_nothing; cbn [worst_fit_spec]; intros;
      eapply nothing_qualifies_beyond; eauto.
  - destruct (worstFit_scan_spec r mem Hfin 0 None NegInf)
      as [[Hres Hall] | (i & b & Hres & Hnth & Hq & _ & Hmax)].
    + rewrite Hres. intros b Hin.
      destruct (DM.qualifies (Fin r) b) eqn:Hq; [|reflexivity].
      specialize (Hall b Hin Hq).
      unfold finite_sizes in Hfin. rewrite Forall_forall in Hfin.
      destruct (diff_finite r b (Hfin b Hin)) as [d Hd].
      rewrite Hd in Hall. discriminate.
    + rewrite Hres. exists b. auto.
Qed.

(** ** Address order of a laid-out block list *)

Lemma layout_finite (mem : list DM.Block) :
  forall start stop, layout start mem stop -> finite_sizes mem.
Proof.
  induction mem as [|b rest IH]; intros start stop H; [constructor|].
  destruct H as (s & _ & Hs & _ & Hrest).
  constructor; [now exists s | eapply IH, Hrest].
Qed.

Lemma layout_nth_address (mem : list DM.Block) :
  forall start stop j b,
    layout start mem stop -> nth_error mem j = Some b ->
    exists y, DM.address b = Fin y /\ (start <= y)%Z.
Proof.
  induction mem as [|a rest IH]; intros start stop j b H Hnth;
    [destruct j; discriminate|].
  destruct H as (s & Ha & Hs & Hpos & Hrest).
  destruct j as [|j]; simpl in Hnth.
  - injection Hnth as <-. exists start. split; [assumption | lia].
  - destruct (IH _ _ _ _ Hrest Hnth) as (y & Hy & Hle). exists y. split; [assumption | lia].
Qed.

Lemma layout_address_increasing (mem : list DM.Block) :
  forall start stop i j b b',
    layout start mem stop -> i < j ->
    nth_error mem i = Some b -> nth_error mem j = Some b' ->
    JS.lt (DM.address b) (DM.address b') = true.
Proof.
  induction mem as [|a rest IH]; intros start stop i j b b' H Hij Hi Hj;
    [destruct i; discriminate|].
  destruct H as (s & Ha & Hs & Hpos & Hrest).
  destruct j as [|j]; [lia|]. simpl in Hj.
  destruct i as [|i]; simpl in Hi.
  - injection Hi as <-.
    destruct (layout_nth_address _ _ _ _ _ Hrest Hj) as (y & Hy & Hle).
    rewrite Ha, Hy, js_lt_fin. lia.
  - apply (IH _ _ i j b b' Hrest); auto. lia.
Qed.

Lemma js_lt_irrefl (x : jsnum) : JS.lt x x = false.
Proof. destruct x; cbn [JS.lt]; auto. apply Z.ltb_irrefl. Qed.

Lemma tie_lowest_address (mem : list DM.Block) (requested : jsnum)
      (result : option nat) (start stop : Z) :
  layout start mem stop ->
  (forall i b, result = Some i -> nth_error mem i = Some b ->
               forall j b', nth_error mem j = Some b' ->
                            DM.qualifies requested b' = true -> j < i ->
                            fit_diff requested b' <> fit_diff requested b) ->
  lowest_address_tie mem requested result.
Proof.
  intros Hlay Hfirst i b b' Hres Hnth Hin Hq Htie.
  destruct (In_nth_error _ _ Hin) as [j Hj].
  destruct (Nat.lt_trichotomy j i) as [Hlt | [-> | Hgt]].
  - exfalso. exact (Hfirst i b Hres Hnth j b' Hj Hq Hlt Htie).
  - assert (b' = b) as -> by congruence.
    destruct (layout_nth_address _ _ _ _ _ Hlay Hnth) as (y & -> & _).
    rewrite js_le_fin. lia.
  - pose proof (layout_address_increasing _ _ _ _ _ _ _ Hlay Hgt Hnth Hj) as Hlt.
    destruct (layout_nth_address _ _ _ _ _ Hlay Hnth) as (y & Hy & _).
    destruct (layout_nth_address _ _ _ _ _ Hlay Hj) as (y' & Hy' & _).
    rewrite Hy, Hy' in *. rewrite js_lt_fin in Hlt. rewrite js_le_fin. lia.
Qed.

Lemma best_fit_lowest_address (mem : list DM.Block) (requested : jsnum)
      (result : option nat) (start stop : Z) :
  layout start mem stop -> best_fit_spec mem requested result ->
  lowest_address_tie mem requested result.
Proof.
  intros Hlay Hspec. apply (tie_lowest_address _ _ _ _ _ Hlay).
  intros i b -> Hnth j b' Hj Hq Hlt Htie. cbn [best_fit_spec] in Hspec.
  destruct Hspec as (b0 & Hnth0 & _ & Hmin).
  assert (b0 = b) as -> by congruence.
  destruct (Hmin j b' Hj Hq) as [_ Hstrict].
  specialize (Hstrict Hlt). rewrite Htie, js_lt_irrefl in Hstrict. discriminate.
Qed.

Lemma worst_fit_lowest_address (mem : list DM.Block) (requested : jsnum)
      (result : option nat) (start stop : Z) :
  layout start mem stop -> worst_fit_spec mem requested result ->
  lowest_address_tie mem requested result.
Proof.
  intros Hlay Hspec. apply (tie_lowest_address _ _ _ _ _ Hlay).
  intros i b -> Hnth j b' Hj Hq Hlt Htie. cbn [worst_fit_spec] in Hspec.
  destruct Hspec as (b0 & Hnth0 & _ & Hmax).
  assert (b0 = b) as -> by congruence.
  destruct (Hmax j b' Hj Hq) as [_ Hstrict].
  specialize (Hstrict Hlt). rewrite Htie, js_lt_irrefl in Hstrict. discriminate.
Qed.

(** The three free blocks of the scenario, wherever they sit in the list. *)
Lemma scenario_free_blocks (mem : list DM.Block) :
  free_sizes mem = [Fin (512 * KiB); Fin (2 * MiB); Fin MiB] ->
  exists b1 b2 b3,
    filter DM.free mem = [b1; b2; b3]
    /\ DM.size b1 = Fin (512 * KiB) /\ DM.size b2 = Fin (2 * MiB)
    /\ DM.size b3 = Fin MiB.
Proof.
  unfold free_sizes. intros H.
  destruct (filter DM.free mem) as [|b1 [|b2 [|b3 [|b4 l]]]]; try discriminate.
  simpl in H. injection H as H1 H2 H3. now exists b1, b2, b3.
Qed.

Lemma scenario_qualifying (mem : list DM.Block) (b : DM.Block) :
  free_sizes mem = [Fin (512 * KiB); Fin (2 * MiB); Fin MiB] ->
  In b mem -> DM.qualifies (Fin (600 * KiB)) b = true ->
  DM.free b = true /\ (DM.size b = Fin (2 * MiB) \/ DM.size b = Fin MiB).
Proof.
  intros Hsizes Hin Hq.
  destruct (scenario_free_blocks mem Hsizes) as (b1 & b2 & b3 & Hf & H1 & H2 & H3).
  unfold DM.qualifies in Hq. apply andb_true_iff in Hq as [Hfree Hge].
  split; [assumption|].
  assert (Hb : In b (filter DM.free mem)) by (apply filter_In; auto).
  rewrite Hf in Hb. destruct Hb as [<- | [<- | [<- | []]]]; auto.
  rewrite H1 in Hge. vm_compute in Hge. discriminate.
Qed.

Lemma scenario_has (mem : list DM.Block) (s : Z) :
  free_sizes mem = [Fin (512 * KiB); Fin (2 * MiB); Fin MiB] ->
  s = (2 * MiB)%Z \/ s = MiB ->
  exists b, In b mem /\ DM.size b = Fin s /\ DM.qualifies (Fin (600 * KiB)) b = true.
Proof.
  intros Hsizes Hs.
  destruct (scenario_free_blocks mem Hsizes) as (b1 & b2 & b3 & Hf & H1 & H2 & H3).
  assert (Hin : forall b, In b [b1; b2; b3] -> In b mem /\ DM.free b = true).
  { intros b Hb. rewrite <- Hf in Hb. now apply filter_In in Hb. }
  destruct Hs as [-> | ->]; [exists b2 | exists b3].
  - destruct (Hin b2) as [Hm Hfree]; [simpl; auto|].
    repeat split; auto. unfold DM.qualifies. rewrite Hfree, H2. reflexivity.
  - destruct (Hin b3) as [Hm Hfree]; [simpl; auto|].
    repeat split; auto. unfold DM.qualifies. rewrite Hfree, H3. reflexivity.
Qed.

Lemma best_fit_scenario (mem : list DM.Block) :
  finite_sizes mem ->
  free_sizes mem = [Fin (512 * KiB); Fin (2 * MiB); Fin MiB] ->
  exists i b, DM._findBestFit mem (Fin (600 * KiB)) = Some i
              /\ nth_error mem i = Some b
              /\ DM.free b = true /\ DM.size b = Fin MiB.
Proof.
  intros Hfin Hsizes.
  pose proof (findBestFit_spec mem (Fin (600 * KiB)) Hfin ltac:(discriminate)) as Hspec.
  destruct (DM._findBestFit mem (Fin (600 * KiB))) as [i|]; cbn [best_fit_spec] in Hspec.
  - destruct Hspec as (b & Hnth & Hq & Hmin). exists i, b.
    destruct (scenario_qualifying mem b Hsizes (nth_error_In _ _ Hnth) Hq)
      as [Hfree [H2 | H1]]; auto.
    exfalso.
    destruct (scenario_has mem MiB Hsizes (or_intror eq_refl)) as (b3 & Hin3 & Hs3 & Hq3).
    destruct (In_nth_error _ _ Hin3) as [j Hj].
    destruct (Hmin j b3 Hj Hq3) as [Hle _].
    unfold fit_diff in Hle. rewrite H2, Hs3 in Hle. vm_compute in Hle. discriminate.
  - exfalso.
    destruct (scenario_has mem MiB Hsizes (or_intror eq_refl)) as (b3 & Hin3 & _ & Hq3).
    rewrite (Hspec b3 Hin3) in Hq3. discriminate.
Qed.

(** C3 - best fit.  For a block list with finite sizes and a request other
    than [-Infinity], [_findBestFit] returns the index of a free block large
    enough whose difference [size - requested] is minimal among such blocks
    and strictly smaller than that of every earlier one, and returns no
    index exactly when no free block is large enough; in a laid-out list the
    selected block has the lowest address among the qualifying blocks of
    equal difference; with free blocks of 512 KiB, 2 MiB, 1 MiB in address
    order and a 600 KiB request the 1 MiB block is selected. *)
Theorem best_fit_correct (mem : list DM.Block) (requested : jsnum) :
  finite_sizes mem -> requested <> NegInf ->
  best_fit_spec mem requested (DM._findBestFit mem requested)
  /\ (forall start stop, layout start mem stop ->
        lowest_address_tie mem requested (DM._findBestFit mem requested))
  /\ (free_sizes mem = [Fin (512 * KiB); Fin (2 * MiB); Fin MiB] ->
      exists i b, DM._findBestFit mem (Fin (600 * KiB)) = Some i
                  /\ nth_error mem i = Some b
                  /\ DM.free b = true /\ DM.size b = Fin MiB).
Proof.
  intros Hfin Hreq.
  pose proof (findBestFit_spec mem requested Hfin Hreq) as Hspec.
  repeat split; [exact Hspec | | now apply best_fit_scenario].
  intros start stop Hlay. eapply best_fit_lowest_address; eauto.
Qed.

Lemma scenario_blocks_finite : finite_sizes scenario_blocks.
Proof. repeat constructor; eexists; reflexivity. Defined.

Lemma best_fit_correct_witness :
  best_fit_spec scenario_blocks (Fin (600 * KiB))
                (DM._findBestFit scenario_blocks (Fin (600 * KiB)))
  /\ (forall start stop, layout start scenario_blocks stop ->
        lowest_address_tie scenario_blocks (Fin (600 * KiB))
                           (DM._findBestFit scenario_blocks (Fin (600 * KiB))))
  /\ (free_sizes scenario_blocks = [Fin (512 * KiB); Fin (2 * MiB); Fin MiB] ->
      exists i b, DM._findBestFit scenario_blocks (Fin (600 * KiB)) = Some i
                  /\ nth_error scenario_blocks i = Some b
                  /\ DM.free b = true /\ DM.size b = Fin MiB).
Proof.
  apply (best_fit_correct scenario_blocks (Fin (600 * KiB))).
  - exact scenario_blocks_finite.
  - discriminate.
Defined.

Example best_fit_scenario_index :
  DM._findBestFit scenario_blocks (Fin (600 * KiB)) = Some 2.
Proof. reflexivity. Qed.

(** C4 - worst fit.  For a block list with finite sizes and a request other
    than [-Infinity], [_findWorstFit] returns the index of a free block
    large enough whose difference [size - requested] is maximal among such
    blocks and strictly larger than that of every earlier one, and returns
    no index exactly when no free block is large enough; in a laid-out list
    the selected block has the lowest address among the qualifying blocks of
    equal difference. *)
Theorem worst_fit_correct (mem : list DM.Block) (requested : jsnum) :
  finite_sizes mem -> requested <> NegInf ->
  worst_fit_spec mem requested (DM._findWorstFit mem requested)
  /\ (forall start stop, layout start mem stop ->
        lowest_address_tie mem requested (DM._findWorstFit mem requested)).
Proof.
  intros Hfin Hreq.
  pose proof (findWorstFit_spec mem requested Hfin Hreq) as Hspec.
  split; [exact Hspec|].
  intros start stop Hlay. eapply worst_fit_lowest_address; eauto.
Qed.

Lemma worst_fit_correct_witness :
  worst_fit_spec scenario_blocks (Fin (600 * KiB))
                 (DM._findWorstFit scenario_blocks (Fin (600 * KiB)))
  /\ (forall start stop, layout start scenario_blocks stop ->
        lowest_address_tie scenario_blocks (Fin (600 * KiB))
                           (DM._findWorstFit scenario_blocks (Fin (600 * KiB)))).
Proof.
  apply (worst_fit_correct scenario_blocks (Fin (600 * KiB))).
  - exact scenario_blocks_finite.
  - discriminate.
Defined.

Example worst_fit_scenario_index :
  DM._findWorstFit scenario_blocks (Fin (600 * KiB)) = Some 1.
Proof. reflexivity. Qed.

Example first_fit_scenario_index :
  DM._findFirstFit scenario_blocks (Fin (600 * KiB)) = Some 1.
Proof. reflexivity. Qed.

(** ** First match in an array *)

Section FirstMatch.
Context {A : Type} (f : A -> bool).

(** A list either has a first element satisfying [f] or none at all. *)
Lemma first_split (l : list A) :
  (exists pre x post,
      l = pre ++ x :: post /\ (forall y, In y pre -> f y = false) /\ f x = true)
  \/ (forall y, In y l -> f y = false).
Proof.
  induction l as [|a l IH].
  - right. intros y [].
  - destruct (f a) eqn:Ha.
    + left. exists [], a, l. repeat split; auto. intros y [].
    + destruct IH as [(pre & x & post & -> & Hpre & Hx) | Hnone].
      * left. exists (a :: pre), x, post. repeat split; auto.
        intros y [<- | Hy]; auto.
      * right. intros y [<- | Hy]; auto.
Qed.

Lemma findIndex_from_split (pre : list A) (x : A) (post : list A) (k : nat) :
  (forall y, In y pre -> f y = false) -> f x = true ->
  findIndex_from f (pre ++ x :: post) k = Some (k + length pre).
Proof.
  revert k. induction pre as [|a pre IH]; intros k Hpre Hx; simpl.
  - rewrite Hx. f_equal. lia.
  - rewrite (Hpre a (or_introl eq_refl)).
    rewrite IH; [f_equal; lia | intros y Hy; apply Hpre; now right | assumption].
Qed.

Lemma findIndex_from_none (l : list A) (k : nat) :
  (forall y, In y l -> f y = false) -> findIndex_from f l k = None.
Proof.
  revert k. induction l as [|a l IH]; intros k Hnone; simpl; [reflexivity|].
  rewrite (Hnone a (or_introl eq_refl)). apply IH. intros y Hy. apply Hnone. now right.
Qed.

Lemma update_first_split (g : A -> A) (pre : list A) (x : A) (post : list A) :
  (forall y, In y pre -> f y = false) -> f x = true ->
  update_first f g (pre ++ x :: post) = pre ++ g x :: post.
Proof.
  induction pre as [|a pre IH]; intros Hpre Hx; simpl.
  - now rewrite Hx.
  - rewrite (Hpre a (or_introl eq_refl)). f_equal. apply IH; auto.
    intros y Hy. apply Hpre. now right.
Qed.

Lemma update_first_none (g : A -> A) (l : list A) :
  (forall y, In y l -> f y = false) -> update_first f g l = l.
Proof.
  induction l as [|a l IH]; intros Hnone; simpl; [reflexivity|].
  rewrite (Hnone a (or_introl eq_refl)). f_equal. apply IH.
  intros y Hy. apply Hnone. now right.
Qed.

Lemma find_split (pre : list A) (x : A) (post : list A) :
  (forall y, In y pre -> f y = false) -> f x = true ->
  find f (pre ++ x :: post) = Some x.
Proof.
  induction pre as [|a pre IH]; intros Hpre Hx; simpl.
  - now rewrite Hx.
  - rewrite (Hpre a (or_introl eq_refl)). apply IH; auto.
    intros y Hy. apply Hpre. now right.
Qed.

Lemma find_none_all (l : list A) :
  (forall y, In y l -> f y = false) -> find f l = None.
Proof.
  induction l as [|a l IH]; intros Hnone; simpl; [reflexivity|].
  rewrite (Hnone a (or_introl eq_refl)). apply IH.
  intros y Hy. apply Hnone. now right.
Qed.

End FirstMatch.

(** ** Static allocation *)

Lemma static_scan_found (process : ProcessControlBlock)
      (pre : list SM.Partition) (partition : SM.Partition) (post : list SM.Partition) :
  (forall x, In x pre -> SM.fits process x = false) ->
  SM.fits process partition = true ->
  SM.allocate_scan (pre ++ partition :: post) process
  = Some (pre ++ SM.occupy process partition :: post,
          mark_allocated (Fin (SM.id partition)) process).
Proof.
  induction pre as [|a pre IH]; intros Hpre Hfit; simpl.
  - now rewrite Hfit.
  - rewrite (Hpre a (or_introl eq_refl)).
    rewrite IH; auto. intros y Hy. apply Hpre. now right.
Qed.

Lemma static_scan_none (process : ProcessControlBlock) (mem : list SM.Partition) :
  (forall x, In x mem -> SM.fits process x = false) ->
  SM.allocate_scan mem process = None.
Proof.
  induction mem as [|a mem IH]; intros Hnone; simpl; [reflexivity|].
  rewrite (Hnone a (or_introl eq_refl)).
  rewrite IH; auto. intros y Hy. apply Hnone. now right.
Qed.

(** The geometry of the partitions: identity, address and size. *)
Lemma static_allocate_geometry (m : SM.t) (process : ProcessControlBlock) :
  map geometry (SM.memory (ar_manager (SM.allocate m process)))
  = map geometry (SM.memory m).
Proof.
  unfold SM.allocate.
  destruct (first_split (SM.fits process) (SM.memory m))
    as [(pre & x & post & Hm & Hpre & Hx) | Hnone].
  - rewrite Hm, static_scan_found by auto. cbn [ar_manager SM.memory].
    rewrite !map_app. reflexivity.
  - rewrite static_scan_none by auto. reflexivity.
Qed.

Lemma static_deallocate_geometry (m : SM.t) (ps : list ProcessControlBlock) (wanted : Z) :
  map geometry (SM.memory (fst (SM.deallocate m ps wanted)))
  = map geometry (SM.memory m).
Proof.
  unfold SM.deallocate.
  destruct (first_split (SM.owned_by wanted) (SM.memory m))
    as [(pre & x & post & Hm & Hpre & Hx) | Hnone].
  - rewrite Hm, find_split, update_first_split by auto. cbn [fst SM.memory].
    rewrite !map_app. reflexivity.
  - rewrite find_none_all by auto. reflexivity.
Qed.

(** ** Dynamic allocation: the searches return blocks that qualify *)

Lemma findIndex_from_sound {A} (f : A -> bool) (l : list A) :
  forall k i, findIndex_from f l k = Some i ->
              exists x, k <= i /\ nth_error l (i - k) = Some x /\ f x = true.
Proof.
  induction l as [|a l IH]; intros k i H; simpl in H; [discriminate|].
  destruct (f a) eqn:Ha.
  - injection H as <-. exists a. rewrite Nat.sub_diag. auto.
  - destruct (IH _ _ H) as (x & Hle & Hnth & Hx). exists x.
    replace (i - k) with (S (i - S k)) by lia. repeat split; auto. lia.
Qed.

Lemma bestFit_scan_sound (requested : jsnum) (mem : list DM.Block) :
  forall k best minDiff i,
    DM.bestFit_scan requested mem k best minDiff = Some i ->
    best = Some i
    \/ exists b, k <= i /\ nth_error mem (i - k) = Some b
                 /\ DM.qualifies requested b = true.
Proof.
  induction mem as [|a mem IH]; intros k best minDiff i H; cbn [DM.bestFit_scan] in H;
    [now left|].
  assert (Hshift : forall b, S k <= i -> nth_error mem (i - S k) = Some b ->
                             nth_error (a :: mem) (i - k) = Some b).
  { intros b Hle Hb. now replace (i - k) with (S (i - S k)) by lia. }
  destruct (DM.qualifies requested a) eqn:Hq;
    [destruct (JS.lt (JS.sub (DM.size a) requested) minDiff)|];
    destruct (IH _ _ _ _ H) as [Hbest | (b & Hle & Hb & Hqb)];
    try (now left);
    try (right; exists b; repeat split; auto; lia).
  injection Hbest as <-. right. exists a. rewrite Nat.sub_diag. auto.
Qed.

Lemma worstFit_scan_sound (requested : jsnum) (mem : list DM.Block) :
  forall k worst maxDiff i,
    DM.worstFit_scan requested mem k worst maxDiff = Some i ->
    worst = Some i
    \/ exists b, k <= i /\ nth_error mem (i - k) = Some b
                 /\ DM.qualifies requested b = true.
Proof.
  induction mem as [|a mem IH]; intros k worst maxDiff i H; cbn [DM.worstFit_scan] in H;
    [now left|].
  assert (Hshift : forall b, S k <= i -> nth_error mem (i - S k) = Some b ->
                             nth_error (a :: mem) (i - k) = Some b).
  { intros b Hle Hb. now replace (i - k) with (S (i - S k)) by lia. }
  destruct (DM.qualifies requested a) eqn:Hq;
    [destruct (JS.gt (JS.sub (DM.size a) requested) maxDiff)|];
    destruct (IH _ _ _ _ H) as [Hworst | (b & Hle & Hb & Hqb)];
    try (now left);
    try (right; exists b; repeat split; auto; lia).
  injection Hworst as <-. right. exists a. rewrite Nat.sub_diag. auto.
Qed.

(** Every index returned by a search is the index of a free block that is
    large enough: in particular it is inside the array. *)
Lemma find_block_in_range (fit : string) (mem : list DM.Block) (requested : jsnum) (i : nat) :
  DM.find_block fit mem requested = Some i ->
  exists b, nth_error mem i = Some b /\ DM.qualifies requested b = true.
Proof.
  unfold DM.find_block, DM._findFirstFit, DM._findBestFit, DM._findWorstFit, findIndex.
  destruct (String.eqb fit "first");
    [|destruct (String.eqb fit "best"); [|destruct (String.eqb fit "worst")]];
    intros H; try discriminate.
  - destruct (findIndex_from_sound _ _ _ _ H) as (b & _ & Hb & Hq).
    rewrite Nat.sub_0_r in Hb. eauto.
  - destruct (bestFit_scan_sound _ _ _ _ _ _ H) as [? | (b & _ & Hb & Hq)];
      [discriminate|]. rewrite Nat.sub_0_r in Hb. eauto.
  - destruct (worstFit_scan_sound _ _ _ _ _ _ H) as [? | (b & _ & Hb & Hq)];
      [discriminate|]. rewrite Nat.sub_0_r in Hb. eauto.
Qed.

(** With no qualifying block every search reports [-1]. *)
Lemma find_block_nothing (fit : string) (mem : list DM.Block) (requested : jsnum) :
  (forall b, In b mem -> DM.qualifies requested b = false) ->
  DM.find_block fit mem requested = None.
Proof.
  intros Hnone.
  unfold DM.find_block, DM._findFirstFit, DM._findBestFit, DM._findWorstFit, findIndex.
  rewrite findIndex_from_none, bestFit_scan_nothing, worstFit_scan_nothing by assumption.
  now repeat destruct (String.eqb _ _).
Qed.

(** ** Dynamic allocation: the split *)

Lemma js_gt_sub_zero (a b : jsnum) : JS.gt (JS.sub a b) (Fin 0) = JS.gt a b.
Proof.
  destruct a, b; unfold JS.gt; cbn [JS.sub JS.lt]; try reflexivity.
  apply Bool.eq_true_iff_eq. rewrite !Z.ltb_lt. lia.
Qed.

Lemma split_at_app (process : ProcessControlBlock)
      (pre : list DM.Block) (b : DM.Block) (post : list DM.Block) :
  DM.split_at (length pre) b process (pre ++ b :: post)
  = split_result process pre b post.
Proof.
  unfold DM.split_at, split_result.
  rewrite js_gt_sub_zero, set_nth_app.
  destruct (JS.gt (DM.size b) (psize process)); [|reflexivity].
  apply splice_insert_app.
Qed.

Lemma dynamic_allocate_success (m : DM.t) (process : ProcessControlBlock) (i : nat) :
  DM.find_block (DM.fitAlgorithm m) (DM.memory m) (psize process) = Some i ->
  exists pre b post,
    DM.memory m = pre ++ b :: post /\ length pre = i
    /\ DM.qualifies (psize process) b = true
    /\ DM.allocate m process
       = mkAllocResult (DM.with_memory m (split_result process pre b post))
                       (mark_allocated (DM.address b) process) true None.
Proof.
  intros Hfind.
  destruct (find_block_in_range _ _ _ _ Hfind) as (b & Hnth & Hq).
  destruct (nth_error_split_at _ _ _ Hnth) as (pre & post & Hm & Hlen).
  exists pre, b, post. repeat split; auto.
  unfold DM.allocate. rewrite Hfind, Hnth.
  rewrite Hm at 1. rewrite <- Hlen, split_at_app. reflexivity.
Qed.

Lemma dynamic_allocate_failure (m : DM.t) (process : ProcessControlBlock) :
  DM.find_block (DM.fitAlgorithm m) (DM.memory m) (psize process) = None ->
  DM.allocate m process
  = mkAllocResult m process false (Some (AlertNoMemory process (DM.fitAlgorithm m))).
Proof. intros Hfind. unfold DM.allocate. now rewrite Hfind. Qed.

(** ** The registry *)

Lemma update_first_length {A} (f : A -> bool) (g : A -> A) (l : list A) :
  length (update_first f g l) = length l.
Proof.
  induction l as [|a l IH]; simpl; [reflexivity|].
  destruct (f a); simpl; auto.
Qed.

Lemma update_first_nth {A} (f : A -> bool) (g : A -> A) (l : list A) :
  forall k q, nth_error (update_first f g l) k = Some q ->
              exists p, nth_error l k = Some p /\ (q = p \/ (f p = true /\ q = g p)).
Proof.
  induction l as [|a l IH]; intros k q H; simpl in H.
  - destruct k; discriminate.
  - destruct (f a) eqn:Ha.
    + destruct k as [|k]; simpl in *; [injection H as <-|]; eauto.
    + destruct k as [|k]; simpl in *; [injection H as <-|]; eauto.
Qed.

Lemma update_first_In {A} (f : A -> bool) (g : A -> A) (l : list A) (q : A) :
  In q (update_first f g l) ->
  In q l \/ exists p, In p l /\ f p = true /\ q = g p.
Proof.
  induction l as [|a l IH]; simpl; [tauto|].
  destruct (f a) eqn:Ha; simpl.
  - intros [<- | Hq]; eauto 6.
  - intros [<- | Hq]; auto.
    destruct (IH Hq) as [? | (p & ? & ? & ?)]; eauto 7.
Qed.

Lemma registry_inv_empty : registry_inv empty_registry.
Proof.
  split; simpl; auto.
  - intros [|k] p H; discriminate.
  - intros p [].
Qed.

Lemma createProcess_accepts (r : Registry) (n : jsnum) :
  valid_size n ->
  createProcess r n
  = ({| processes := processes r ++ [new_ProcessControlBlock (nextProcessId r) n];
        nextProcessId := (nextProcessId r + 1)%Z |}, None).
Proof. unfold valid_size, createProcess. now intros ->. Qed.

Lemma createProcess_rejects (r : Registry) (n : jsnum) :
  ~ valid_size n -> createProcess r n = (r, Some AlertInvalidSize).
Proof.
  unfold valid_size, createProcess.
  destruct (JS.isNaN n || JS.le n (Fin 0)); [reflexivity | congruence].
Qed.

Lemma valid_size_dec (n : jsnum) : {valid_size n} + {~ valid_size n}.
Proof.
  unfold valid_size.
  destruct (JS.isNaN n || JS.le n (Fin 0)); [right; discriminate | left; reflexivity].
Qed.

Lemma createProcess_registry_inv (r : Registry) (n : jsnum) :
  registry_inv r -> registry_inv (fst (createProcess r n)).
Proof.
  intros [Hids Hnext Hsizes].
  destruct (valid_size_dec n) as [Hv | Hv];
    [rewrite createProcess_accepts by assumption
    | rewrite createProcess_rejects by assumption; now split].
  split; cbn [fst processes nextProcessId].
  - intros k p Hk.
    destruct (Nat.lt_ge_cases k (length (processes r))) as [Hlt | Hge].
    + rewrite nth_error_app1 in Hk by assumption. auto.
    + rewrite nth_error_app2 in Hk by assumption.
      destruct (k - length (processes r)) as [|d] eqn:Hd; simpl in Hk;
        [|destruct d; discriminate].
      injection Hk as <-. simpl. lia.
  - rewrite length_app. simpl. lia.
  - intros p Hp. apply in_app_or in Hp as [Hp | [<- | []]]; auto.
Qed.

Lemma registry_inv_update (f : ProcessControlBlock -> bool)
      (g : ProcessControlBlock -> ProcessControlBlock) (r : Registry) :
  (forall p, In p (processes r) -> f p = true ->
             pid (g p) = pid p /\ valid_size (psize (g p))) ->
  registry_inv r ->
  registry_inv {| processes := update_first f g (processes r);
                  nextProcessId := nextProcessId r |}.
Proof.
  intros Hg [Hids Hnext Hsizes]. split; cbn [processes nextProcessId].
  - intros k q Hk.
    destruct (update_first_nth _ _ _ _ _ Hk) as (p & Hp & [-> | [Hf ->]]).
    + auto.
    + rewrite (proj1 (Hg p (nth_error_In _ _ Hp) Hf)). auto.
  - now rewrite update_first_length.
  - intros q Hq. destruct (update_first_In _ _ _ _ Hq) as [Hin | (p & Hin & Hf & ->)].
    + auto.
    + apply (Hg p Hin Hf).
Qed.

Lemma registry_inv_reset (r : Registry) :
  registry_inv r ->
  registry_inv {| processes := map mark_unallocated (processes r);
                  nextProcessId := nextProcessId r |}.
Proof.
  intros [Hids Hnext Hsizes]. split; cbn [processes nextProcessId].
  - intros k q Hk. rewrite nth_error_map in Hk.
    destruct (nth_error (processes r) k) as [p|] eqn:Hp; [|discriminate].
    injection Hk as <-. simpl. auto.
  - now rewrite length_map.
  - intros q Hq. apply in_map_iff in Hq as (p & <- & Hp). simpl. auto.
Qed.

(** Identities are unique in the registry. *)
Lemma registry_unique (r : Registry) (p q : ProcessControlBlock) :
  registry_inv r -> In p (processes r) -> In q (processes r) ->
  pid p = pid q -> p = q.
Proof.
  intros [Hids _ _] Hp Hq Heq.
  destruct (In_nth_error _ _ Hp) as [i Hi].
  destruct (In_nth_error _ _ Hq) as [j Hj].
  pose proof (Hids _ _ Hi). pose proof (Hids _ _ Hj).
  assert (i = j) by lia. subst j. congruence.
Qed.

(** [processes.find(p => p.id === id)] returns the registered process. *)
Lemma registry_find (r : Registry) (p : ProcessControlBlock) :
  registry_inv r -> In p (processes r) ->
  find (fun q => (pid q =? pid p)%Z) (processes r) = Some p.
Proof.
  intros Hinv Hp.
  destruct (find _ (processes r)) as [q|] eqn:Hfind.
  - apply find_some in Hfind as [Hq Heq]. apply Z.eqb_eq in Heq.
    f_equal. now apply (registry_unique r).
  - pose proof (find_none _ _ Hfind p Hp) as H. simpl in H.
    rewrite Z.eqb_refl in H. discriminate.
Qed.

(** A registered process splits the registry around itself, and no other
    entry carries its identity. *)
Lemma registry_split (r : Registry) (p : ProcessControlBlock) :
  registry_inv r -> In p (processes r) ->
  exists pre post,
    processes r = pre ++ p :: post
    /\ forall y, In y (pre ++ post) -> pid y <> pid p.
Proof.
  intros Hinv Hp. pose proof Hinv as [Hids _ _].
  destruct (in_split _ _ Hp) as (pre & post & Hsplit).
  exists pre, post. split; [assumption|].
  assert (Hpid : pid p = Z.of_nat (length pre)).
  { apply Hids. rewrite Hsplit. apply nth_error_middle. }
  intros y Hy Heq. apply in_app_or in Hy as [Hy | Hy];
    destruct (In_nth_error _ _ Hy) as [i Hi].
  - assert (i < length pre) by (apply nth_error_Some; congruence).
    assert (nth_error (processes r) i = Some y)
      by (rewrite Hsplit, nth_error_app1; assumption).
    pose proof (Hids _ _ H0). lia.
  - assert (nth_error (processes r) (length pre + S i) = Some y).
    { rewrite Hsplit, nth_error_app2 by lia.
      replace (length pre + S i - length pre) with (S i) by lia. exact Hi. }
    pose proof (Hids _ _ H). lia.
Qed.

Lemma registry_update_split (r : Registry) (p : ProcessControlBlock)
      (g : ProcessControlBlock -> ProcessControlBlock) :
  registry_inv r -> In p (processes r) ->
  exists pre post,
    processes r = pre ++ p :: post
    /\ update_first (fun q => (pid q =? pid p)%Z) g (processes r) = pre ++ g p :: post
    /\ forall y, In y (pre ++ post) -> pid y <> pid p.
Proof.
  intros Hinv Hp. destruct (registry_split r p Hinv Hp) as (pre & post & Hsplit & Hother).
  exists pre, post. repeat split; auto.
  rewrite Hsplit. apply update_first_split.
  - intros y Hy. apply Z.eqb_neq, Hother, in_or_app. now left.
  - apply Z.eqb_refl.
Qed.

(** ** Ownership bookkeeping *)

Lemma ownership_inv_fresh (r : Registry) : ownership_inv [] r.
Proof. split; [constructor | intros p _ _ [] | intros id []]. Qed.

Lemma ownership_inv_create (own : list Z) (r : Registry) (n : jsnum) :
  registry_inv r -> ownership_inv own r ->
  ownership_inv own (fst (createProcess r n)).
Proof.
  intros Hreg [Hnd Hun Hrg].
  destruct (valid_size_dec n) as [Hv | Hv];
    [rewrite createProcess_accepts by assumption
    | rewrite createProcess_rejects by assumption; now split].
  split; cbn [fst processes nextProcessId]; auto.
  - intros p Hp Hfalse. apply in_app_or in Hp as [Hp | [<- | []]]; auto.
    simpl. intros Hin. specialize (Hrg _ Hin). lia.
  - intros id Hin. specialize (Hrg _ Hin). lia.
Qed.

Lemma ownership_inv_allocate (o1 o2 : list Z) (r : Registry)
      (p p' : ProcessControlBlock) :
  registry_inv r -> In p (processes r) -> allocated p = false ->
  pid p' = pid p -> allocated p' = true ->
  ownership_inv (o1 ++ o2) r ->
  ownership_inv (o1 ++ pid p :: o2)
                {| processes := update_first (fun q => (pid q =? pid p)%Z)
                                             (fun _ => p') (processes r);
                   nextProcessId := nextProcessId r |}.
Proof.
  intros Hreg Hp Hfree Hpid Halloc [Hnd Hun Hrg].
  destruct (registry_update_split r p (fun _ => p') Hreg Hp)
    as (pre & post & Hsplit & -> & Hother).
  split; cbn [processes nextProcessId].
  - apply (Permutation_NoDup (Permutation_middle o1 o2 (pid p))).
    constructor; auto.
  - intros q Hq Hqfree Hin.
    assert (Hq' : In q (pre ++ post)).
    { apply in_app_or in Hq as [Hq | [<- | Hq]]; [| congruence |];
        apply in_or_app; auto. }
    assert (Hqr : In q (processes r)).
    { rewrite Hsplit. apply in_app_or in Hq' as [|]; apply in_or_app; simpl; auto. }
    apply in_app_or in Hin as [Hin | [Heq | Hin]].
    + apply (Hun q Hqr Hqfree), in_or_app. auto.
    + apply (Hother q Hq'). auto.
    + apply (Hun q Hqr Hqfree), in_or_app. auto.
  - intros id Hin. apply in_app_or in Hin as [Hin | [<- | Hin]];
      [apply Hrg, in_or_app; auto | | apply Hrg, in_or_app; auto].
    destruct Hreg as [Hids Hnext _].
    destruct (In_nth_error _ _ Hp) as [i Hi].
    rewrite (Hids _ _ Hi), Hnext.
    assert (i < length (processes r)) by (apply nth_error_Some; congruence). lia.
Qed.

Lemma ownership_inv_deallocate (o1 o2 : list Z) (id : Z) (r : Registry) :
  ownership_inv (o1 ++ id :: o2) r ->
  ownership_inv (o1 ++ o2)
                {| processes := update_first (fun q => (pid q =? id)%Z)
                                             mark_unallocated (processes r);
                   nextProcessId := nextProcessId r |}.
Proof.
  intros [Hnd Hun Hrg]. split; cbn [processes nextProcessId].
  - eapply NoDup_remove_1, Hnd.
  - intros q Hq Hqfree Hin.
    destruct (update_first_In _ _ _ _ Hq) as [Hold | (p0 & Hp0 & Heq & ->)].
    + apply (Hun q Hold Hqfree).
      apply in_app_or in Hin as [|]; apply in_or_app; simpl; auto.
    + apply Z.eqb_eq in Heq. simpl in Hin. rewrite Heq in Hin.
      exact (NoDup_remove_2 _ _ _ Hnd Hin).
  - intros i Hin. apply Hrg.
    apply in_app_or in Hin as [|]; apply in_or_app; simpl; auto.
Qed.

(** ** The block list under split, release and merge *)

Lemma layout_app (l1 l2 : list DM.Block) :
  forall start stop,
    layout start (l1 ++ l2) stop <->
    exists mid, layout start l1 mid /\ layout mid l2 stop.
Proof.
  induction l1 as [|a l1 IH]; intros start stop; simpl.
  - split; [intros H; now exists start | intros (mid & -> & H); exact H].
  - split.
    + intros (s & Ha & Hs & Hpos & Hrest).
      apply IH in Hrest as (mid & H1 & H2). exists mid. split; [|assumption].
      now exists s.
    + intros (mid & (s & Ha & Hs & Hpos & H1) & H2).
      exists s. repeat split; auto. apply IH. now exists mid.
Qed.

(** A size that passed [createProcess] and fits in a finite block is a
    positive finite number not above the block's size. *)
Lemma valid_fitting_size (n : jsnum) (s : Z) :
  valid_size n -> JS.ge (Fin s) n = true ->
  exists r, n = Fin r /\ (0 < r <= s)%Z.
Proof.
  unfold valid_size, JS.ge. destruct n as [| | |r]; cbn [JS.isNaN JS.le orb];
    try discriminate.
  intros Hv Hge. exists r. split; [reflexivity | lia].
Qed.

Lemma layout_split (process : ProcessControlBlock)
      (pre : list DM.Block) (b : DM.Block) (post : list DM.Block) (start stop : Z) :
  valid_size (psize process) ->
  DM.qualifies (psize process) b = true ->
  layout start (pre ++ b :: post) stop ->
  layout start (split_result process pre b post) stop.
Proof.
  intros Hv Hq Hlay. unfold split_result.
  apply layout_app in Hlay as (mid & Hpre & (s & Ha & Hs & Hpos & Hpost)).
  apply layout_app. exists mid. split; [assumption|].
  unfold DM.qualifies in Hq. apply andb_true_iff in Hq as [_ Hge].
  rewrite Hs in *.
  destruct (valid_fitting_size _ _ Hv Hge) as (r & Hr & Hrange).
  rewrite Hr. unfold JS.gt. cbn [JS.lt JS.sub].
  exists r. cbn [DM.occupy DM.address DM.size]. rewrite Hr.
  repeat split; auto; [lia|].
  destruct (Z.ltb_spec r s) as [Hlt | Hge'].
  - cbn [app layout DM.remainder DM.address DM.size].
    exists (s - r)%Z. rewrite Ha, Hr. cbn [JS.add].
    repeat split; auto; [lia|].
    replace (mid + r + (s - r))%Z with (mid + s)%Z by lia. assumption.
  - cbn [app]. replace r with s by lia. assumption.
Qed.

Lemma layout_release (pre : list DM.Block) (b : DM.Block) (post : list DM.Block)
      (start stop : Z) :
  layout start (pre ++ b :: post) stop ->
  layout start (pre ++ DM.release b :: post) stop.
Proof.
  intros Hlay. apply layout_app in Hlay as (mid & Hpre & Hb).
  apply layout_app. exists mid. split; assumption.
Qed.

Lemma layout_coalesce_from (rest : list DM.Block) :
  forall current start stop,
    layout start (current :: rest) stop ->
    layout start (coalesce_from current rest) stop.
Proof.
  induction rest as [|next tl IH]; intros current start stop Hlay; [exact Hlay|].
  cbn [coalesce_from].
  destruct (DM.free current && DM.free next).
  - apply IH.
    destruct Hlay as (s & Ha & Hs & Hpos & (s' & Ha' & Hs' & Hpos' & Hrest)).
    exists (s + s')%Z. cbn [DM.grow DM.address DM.size]. rewrite Hs, Hs'.
    repeat split; auto; [lia|].
    now replace (start + (s + s'))%Z with (start + s + s')%Z by lia.
  - destruct Hlay as (s & Ha & Hs & Hpos & Hrest).
    exists s. repeat split; auto.
Qed.

Lemma layout_coalesce (mem : list DM.Block) (start stop : Z) :
  layout start mem stop -> layout start (DM.coalesce mem) stop.
Proof.
  rewrite coalesce_eq. destruct mem as [|b rest]; [auto|].
  apply layout_coalesce_from.
Qed.

Lemma owners_app (l1 l2 : list DM.Block) :
  owners (l1 ++ l2) = owners l1 ++ owners l2.
Proof. apply flat_map_app. Qed.

Lemma owners_split (process : ProcessControlBlock)
      (pre : list DM.Block) (b : DM.Block) (post : list DM.Block) :
  owners (split_result process pre b post)
  = owners pre ++ pid process :: owners post.
Proof.
  unfold split_result. rewrite owners_app. f_equal.
  destruct (JS.gt (DM.size b) (psize process)); reflexivity.
Qed.

Lemma owners_free_block (pre : list DM.Block) (b : DM.Block) (post : list DM.Block) :
  block_consistent b -> DM.free b = true ->
  owners (pre ++ b :: post) = owners pre ++ owners post.
Proof.
  unfold block_consistent. intros Hc Hfree. rewrite owners_app. f_equal.
  rewrite Hfree in Hc. unfold owners. cbn [flat_map].
  destruct (DM.processId b); [discriminate | reflexivity].
Qed.

Lemma owners_owned_block (wanted : Z) (pre : list DM.Block) (b : DM.Block)
      (post : list DM.Block) :
  DM.owned_by wanted b = true ->
  owners (pre ++ b :: post) = owners pre ++ wanted :: owners post.
Proof.
  unfold DM.owned_by, owner_is. intros H. rewrite owners_app. f_equal.
  unfold owners. cbn [flat_map].
  destruct (DM.processId b) as [id|]; [|discriminate].
  apply Z.eqb_eq in H. now subst.
Qed.

Lemma owners_released (pre : list DM.Block) (b : DM.Block) (post : list DM.Block) :
  owners (pre ++ DM.release b :: post) = owners pre ++ owners post.
Proof. now rewrite owners_app. Qed.

Lemma coalesce_from_bookkeeping (rest : list DM.Block) :
  forall current,
    Forall block_consistent (current :: rest) ->
    Forall block_consistent (coalesce_from current rest)
    /\ owners (coalesce_from current rest) = owners (current :: rest).
Proof.
  induction rest as [|next tl IH]; intros current Hc; [auto|].
  cbn [coalesce_from].
  inversion Hc as [|? ? Hcur Hrest]; subst.
  inversion Hrest as [|? ? Hnext Htl]; subst.
  destruct (DM.free current && DM.free next) eqn:Hpair.
  - apply andb_true_iff in Hpair as [Hf1 Hf2].
    destruct (IH (DM.grow current next)) as [Hc' Ho'].
    { constructor; [exact Hcur | exact Htl]. }
    split; [exact Hc'|]. rewrite Ho'.
    unfold block_consistent in Hnext. rewrite Hf2 in Hnext.
    unfold owners. cbn [flat_map DM.grow DM.processId].
    destruct (DM.processId next); [discriminate | reflexivity].
  - destruct (IH next Hrest) as [Hc' Ho'].
    split; [constructor; assumption|].
    change (owners (current :: coalesce_from next tl))
      with (owner_list (DM.processId current) ++ owners (coalesce_from next tl)).
    now rewrite Ho'.
Qed.

Lemma coalesce_bookkeeping (mem : list DM.Block) :
  Forall block_consistent mem ->
  Forall block_consistent (DM.coalesce mem)
  /\ owners (DM.coalesce mem) = owners mem.
Proof.
  rewrite coalesce_eq. destruct mem as [|b rest]; [auto|].
  apply coalesce_from_bookkeeping.
Qed.

Lemma adjacent_free_cons (a : DM.Block) (l : list DM.Block) :
  adjacent_free (a :: l) = (DM.free a && head_free l) || adjacent_free l.
Proof. destruct l; simpl; [now rewrite andb_false_r | reflexivity]. Qed.

(** Replacing a suffix by one that is no more free at its head and has no
    free neighbours keeps the list without free neighbours. *)
Lemma adjacent_free_replace (pre l l' : list DM.Block) :
  (head_free l' = true -> head_free l = true) ->
  l' <> [] ->
  (adjacent_free l = false -> adjacent_free l' = false) ->
  adjacent_free (pre ++ l) = false -> adjacent_free (pre ++ l') = false.
Proof.
  intros Hhead Hne Hadj. induction pre as [|a pre IH]; [exact Hadj|].
  cbn [app]. rewrite !adjacent_free_cons. intros H.
  apply orb_false_iff in H as [Hpair Hrest].
  rewrite (IH Hrest), orb_false_r.
  destruct (DM.free a); [|reflexivity]. cbn [andb] in *.
  destruct pre as [|a' pre]; [|exact Hpair].
  cbn [app] in *. destruct (head_free l'); [|reflexivity].
  rewrite Hhead in Hpair by reflexivity. discriminate.
Qed.

Lemma adjacent_free_split (process : ProcessControlBlock)
      (pre : list DM.Block) (b : DM.Block) (post : list DM.Block) :
  DM.free b = true ->
  adjacent_free (pre ++ b :: post) = false ->
  adjacent_free (split_result process pre b post) = false.
Proof.
  intros Hfree. unfold split_result. apply adjacent_free_replace.
  - discriminate.
  - discriminate.
  - rewrite !adjacent_free_cons. rewrite Hfree. cbn [andb DM.occupy DM.free orb].
    intros H. apply orb_false_iff in H as [Hhead Hpost].
    destruct (JS.gt (DM.size b) (psize process)); cbn [app]; [|exact Hpost].
    rewrite adjacent_free_cons. cbn [DM.remainder DM.free andb].
    now rewrite Hhead, Hpost.
Qed.

Lemma consistent_split (process : ProcessControlBlock)
      (pre : list DM.Block) (b : DM.Block) (post : list DM.Block) :
  Forall block_consistent (pre ++ b :: post) ->
  Forall block_consistent (split_result process pre b post).
Proof.
  unfold split_result. intros H. apply Forall_app in H as [Hpre Hb].
  inversion Hb as [|? ? _ Hpost]; subst.
  apply Forall_app. split; [assumption|].
  constructor; [reflexivity|].
  apply Forall_app. split; [|assumption].
  destruct (JS.gt (DM.size b) (psize process)); repeat constructor.
Qed.

Lemma consistent_release (pre : list DM.Block) (b : DM.Block) (post : list DM.Block) :
  Forall block_consistent (pre ++ b :: post) ->
  Forall block_consistent (pre ++ DM.release b :: post).
Proof.
  intros H. apply Forall_app in H as [Hpre Hb].
  inversion Hb as [|? ? _ Hpost]; subst.
  apply Forall_app. split; [assumption|]. constructor; [reflexivity | assumption].
Qed.

(** ** The dynamic manager keeps its invariant *)

Lemma dynamic_inv_new (coalesce : bool) (fit : string) (r : Registry) :
  dynamic_inv (DM.new (Fin TOTAL_MEMORY) coalesce fit)
              {| processes := map mark_unallocated (processes r);
                 nextProcessId := nextProcessId r |}.
Proof.
  split; cbn [DM.new DM.memory].
  - exists (TOTAL_MEMORY - OS_MEMORY_SIZE)%Z. cbn. repeat split; reflexivity.
  - repeat constructor.
  - apply ownership_inv_fresh.
  - reflexivity.
Qed.

Lemma registry_store_same (r : Registry) (p : ProcessControlBlock) :
  registry_inv r -> In p (processes r) ->
  {| processes := update_first (fun q => (pid q =? pid p)%Z) (fun _ => p) (processes r);
     nextProcessId := nextProcessId r |} = r.
Proof.
  intros Hreg Hp.
  destruct (registry_update_split r p (fun _ => p) Hreg Hp) as (pre & post & Hs & -> & _).
  rewrite <- Hs. now destruct r.
Qed.

Lemma dynamic_allocate_inv (m : DM.t) (r : Registry) (p : ProcessControlBlock) :
  registry_inv r -> dynamic_inv m r ->
  In p (processes r) -> allocated p = false ->
  dynamic_inv (ar_manager (DM.allocate m p))
              {| processes := update_first (fun q => (pid q =? pid p)%Z)
                                           (fun _ => ar_process (DM.allocate m p))
                                           (processes r);
                 nextProcessId := nextProcessId r |}.
Proof.
  intros Hreg [Hlay Hcons Hown Hcoal] Hp Hfree.
  destruct (DM.find_block (DM.fitAlgorithm m) (DM.memory m) (psize p)) as [i|] eqn:Hfind.
  - destruct (dynamic_allocate_success m p i Hfind)
      as (pre & b & post & Hm & Hlen & Hq & ->).
    cbn [ar_manager ar_process].
    assert (Hbfree : DM.free b = true).
    { unfold DM.qualifies in Hq. now apply andb_true_iff in Hq as [? _]. }
    assert (Hbcons : block_consistent b).
    { rewrite Forall_forall in Hcons. apply Hcons. rewrite Hm.
      apply in_or_app. simpl. auto. }
    rewrite Hm in *.
    split; cbn [DM.with_memory DM.memory DM.coalesceEnabled].
    + apply layout_split; auto. destruct Hreg as [_ _ Hsizes]. auto.
    + now apply consistent_split.
    + rewrite owners_split. rewrite owners_free_block in Hown by assumption.
      apply ownership_inv_allocate; auto.
    + intros Hen. apply adjacent_free_split; auto.
  - rewrite dynamic_allocate_failure by assumption. cbn [ar_manager ar_process].
    rewrite registry_store_same by assumption. now split.
Qed.

Lemma dynamic_deallocate_inv (m : DM.t) (r : Registry) (wanted : Z) :
  dynamic_inv m r ->
  dynamic_inv (fst (DM.deallocate m (processes r) wanted))
              {| processes := snd (DM.deallocate m (processes r) wanted);
                 nextProcessId := nextProcessId r |}.
Proof.
  intros [Hlay Hcons Hown Hcoal]. unfold DM.deallocate.
  destruct (first_split (DM.owned_by wanted) (DM.memory m))
    as [(pre & b & post & Hm & Hpre & Hb) | Hnone].
  - rewrite Hm in *. rewrite find_split, update_first_split by assumption.
    cbn [fst snd].
    rewrite (owners_owned_block wanted) in Hown by assumption.
    apply ownership_inv_deallocate in Hown.
    apply layout_release in Hlay. apply consistent_release in Hcons.
    rewrite <- (owners_released pre b post) in Hown.
    destruct (DM.coalesceEnabled m) eqn:Hen;
      split; cbn [DM.with_memory DM.memory DM.coalesceEnabled].
    + now apply layout_coalesce.
    + now apply coalesce_bookkeeping.
    + now rewrite (proj2 (coalesce_bookkeeping _ Hcons)).
    + intros _. rewrite coalesce_eq. apply coalesce_rec_no_adjacent.
    + exact Hlay.
    + exact Hcons.
    + exact Hown.
    + rewrite Hen. discriminate.
  - rewrite find_none_all by assumption. cbn [fst snd].
    destruct r. now split.
Qed.

(** ** The static manager keeps its invariant *)

Lemma static_owners_app (l1 l2 : list SM.Partition) :
  static_owners (l1 ++ l2) = static_owners l1 ++ static_owners l2.
Proof. apply flat_map_app. Qed.

Lemma static_owners_free (pre : list SM.Partition) (x : SM.Partition)
      (post : list SM.Partition) :
  partition_consistent x -> SM.free x = true ->
  static_owners (pre ++ x :: post) = static_owners pre ++ static_owners post.
Proof.
  unfold partition_consistent. intros Hc Hfree. rewrite static_owners_app. f_equal.
  rewrite Hfree in Hc. unfold static_owners. cbn [flat_map].
  destruct (SM.processId x); [discriminate | reflexivity].
Qed.

Lemma static_owners_owned (wanted : Z) (pre : list SM.Partition) (x : SM.Partition)
      (post : list SM.Partition) :
  SM.owned_by wanted x = true ->
  static_owners (pre ++ x :: post) = static_owners pre ++ wanted :: static_owners post.
Proof.
  unfold SM.owned_by, owner_is. intros H. rewrite static_owners_app. f_equal.
  unfold static_owners. cbn [flat_map].
  destruct (SM.processId x) as [id|]; [|discriminate].
  apply Z.eqb_eq in H. now subst.
Qed.

Lemma static_consistent_replace (pre : list SM.Partition) (x x' : SM.Partition)
      (post : list SM.Partition) :
  partition_consistent x' ->
  Forall partition_consistent (pre ++ x :: post) ->
  Forall partition_consistent (pre ++ x' :: post).
Proof.
  intros Hx' H. apply Forall_app in H as [Hpre Hx].
  inversion Hx as [|? ? _ Hpost]; subst.
  apply Forall_app. split; [assumption|]. now constructor.
Qed.

Lemma static_inv_new (r : Registry) :
  static_inv (SM.new (Fin TOTAL_MEMORY))
             {| processes := map mark_unallocated (processes r);
                nextProcessId := nextProcessId r |}.
Proof.
  split.
  - reflexivity.
  - repeat constructor.
  - apply ownership_inv_fresh.
Qed.

Lemma static_allocate_inv (m : SM.t) (r : Registry) (p : ProcessControlBlock) :
  registry_inv r -> static_inv m r ->
  In p (processes r) -> allocated p = false ->
  static_inv (ar_manager (SM.allocate m p))
             {| processes := update_first (fun q => (pid q =? pid p)%Z)
                                          (fun _ => ar_process (SM.allocate m p))
                                          (processes r);
                nextProcessId := nextProcessId r |}.
Proof.
  intros Hreg [Hgeo Hcons Hown] Hp Hfree.
  split; [now rewrite static_allocate_geometry | |]; unfold SM.allocate;
    (destruct (first_split (SM.fits p) (SM.memory m))
      as [(pre & x & post & Hm & Hpre & Hx) | Hnone];
     [rewrite Hm in *; rewrite static_scan_found by assumption
     | rewrite static_scan_none by assumption]);
    cbn [ar_manager ar_process SM.memory].
  - eapply static_consistent_replace; [reflexivity | exact Hcons].
  - exact Hcons.
  - assert (Hxfree : SM.free x = true).
    { unfold SM.fits in Hx. now apply andb_true_iff in Hx as [? _]. }
    assert (Hxcons : partition_consistent x).
    { rewrite Forall_forall in Hcons. apply Hcons, in_or_app. simpl. auto. }
    rewrite static_owners_free in Hown by assumption.
    rewrite static_owners_app.
    change (static_owners (SM.occupy p x :: post)) with (pid p :: static_owners post).
    apply ownership_inv_allocate; auto.
  - rewrite registry_store_same by assumption. exact Hown.
Qed.

Lemma static_deallocate_inv (m : SM.t) (r : Registry) (wanted : Z) :
  static_inv m r ->
  static_inv (fst (SM.deallocate m (processes r) wanted))
             {| processes := snd (SM.deallocate m (processes r) wanted);
                nextProcessId := nextProcessId r |}.
Proof.
  intros [Hgeo Hcons Hown].
  split; [now rewrite static_deallocate_geometry | |]; unfold SM.deallocate;
    (destruct (first_split (SM.owned_by wanted) (SM.memory m))
      as [(pre & x & post & Hm & Hpre & Hx) | Hnone];
     [rewrite Hm in *; rewrite find_split, update_first_split by assumption
     | rewrite find_none_all by assumption]);
    cbn [fst snd SM.memory].
  - eapply static_consistent_replace; [reflexivity | exact Hcons].
  - exact Hcons.
  - rewrite (static_owners_owned wanted) in Hown by assumption.
    apply ownership_inv_deallocate in Hown.
    now rewrite static_owners_app.
  - now destruct r.
Qed.

(** ** Every reachable state satisfies the invariant *)

Lemma simulation_inv_initialize (c : Controls) (r : Registry) :
  registry_inv r -> simulation_inv (initialize c r).
Proof.
  intros Hreg. split; cbn [initialize registry memoryManager].
  - now apply registry_inv_reset.
  - destruct (String.eqb (algorithm c) "static");
      [apply static_inv_new | apply dynamic_inv_new].
Qed.

Lemma registry_inv_defaults :
  registry_inv (fold_left (fun r s => fst (createProcess r s)) default_sizes empty_registry).
Proof.
  cbn [fold_left default_sizes].
  repeat apply createProcess_registry_inv. apply registry_inv_empty.
Qed.

Lemma simulation_inv_add (st : Simulation) (n : jsnum) :
  simulation_inv st ->
  simulation_inv {| memoryManager := memoryManager st;
                    registry := fst (createProcess (registry st) n) |}.
Proof.
  intros [Hreg Hman]. split; cbn [registry memoryManager].
  - now apply createProcess_registry_inv.
  - destruct (memoryManager st) as [m | m].
    + destruct Hman as [Hgeo Hcons Hown]. split; auto.
      now apply ownership_inv_create.
    + destruct Hman as [Hlay Hcons Hown Hcoal]. split; auto.
      now apply ownership_inv_create.
Qed.

Lemma rendered_allocate_button (ps : list ProcessControlBlock) (id : Z) :
  In (AllocateButton id) (renderProcessList ps) ->
  exists p, In p ps /\ pid p = id /\ allocated p = false.
Proof.
  unfold renderProcessList. intros H. apply in_map_iff in H as (p & Hp & Hin).
  exists p. destruct (allocated p); [discriminate|]. injection Hp as ->. auto.
Qed.

Lemma rendered_deallocate_button (ps : list ProcessControlBlock) (id : Z) :
  In (DeallocateButton id) (renderProcessList ps) ->
  exists p, In p ps /\ pid p = id /\ allocated p = true.
Proof.
  unfold renderProcessList. intros H. apply in_map_iff in H as (p & Hp & Hin).
  exists p. destruct (allocated p); [|discriminate]. injection Hp as ->. auto.
Qed.

Lemma static_allocate_process (m : SM.t) (p : ProcessControlBlock) :
  pid (ar_process (SM.allocate m p)) = pid p
  /\ psize (ar_process (SM.allocate m p)) = psize p.
Proof.
  unfold SM.allocate.
  destruct (first_split (SM.fits p) (SM.memory m))
    as [(pre & x & post & Hm & Hpre & Hx) | Hnone].
  - rewrite Hm, static_scan_found by assumption. auto.
  - rewrite static_scan_none by assumption. auto.
Qed.

Lemma dynamic_allocate_process (m : DM.t) (p : ProcessControlBlock) :
  pid (ar_process (DM.allocate m p)) = pid p
  /\ psize (ar_process (DM.allocate m p)) = psize p.
Proof.
  unfold DM.allocate.
  destruct (DM.find_block _ _ _); [destruct (nth_error _ _)|]; auto.
Qed.

Lemma simulation_inv_allocate (st : Simulation) (p : ProcessControlBlock) :
  simulation_inv st -> In p (processes (registry st)) -> allocated p = false ->
  simulation_inv (fst (manager_allocate st p)).
Proof.
  intros [Hreg Hman] Hp Hfree. unfold manager_allocate.
  assert (Hsize : valid_size (psize p)) by (destruct Hreg; auto).
  destruct (memoryManager st) as [m | m]; split; cbn [fst registry memoryManager].
  - apply registry_inv_update; auto. intros q _ Hq. apply Z.eqb_eq in Hq.
    destruct (static_allocate_process m p) as [-> ->]. auto.
  - now apply static_allocate_inv.
  - apply registry_inv_update; auto. intros q _ Hq. apply Z.eqb_eq in Hq.
    destruct (dynamic_allocate_process m p) as [-> ->]. auto.
  - now apply dynamic_allocate_inv.
Qed.

Lemma static_deallocate_processes (m : SM.t) (ps : list ProcessControlBlock) (wanted : Z) :
  snd (SM.deallocate m ps wanted) = ps
  \/ snd (SM.deallocate m ps wanted)
     = update_first (fun q => (pid q =? wanted)%Z) mark_unallocated ps.
Proof. unfold SM.deallocate. destruct (find _ _); auto. Qed.

Lemma dynamic_deallocate_processes (m : DM.t) (ps : list ProcessControlBlock) (wanted : Z) :
  snd (DM.deallocate m ps wanted) = ps
  \/ snd (DM.deallocate m ps wanted)
     = update_first (fun q => (pid q =? wanted)%Z) mark_unallocated ps.
Proof. unfold DM.deallocate. destruct (find _ _); auto. Qed.

Lemma registry_inv_unallocate (r : Registry) (wanted : Z) :
  registry_inv r ->
  registry_inv {| processes := update_first (fun q => (pid q =? wanted)%Z)
                                            mark_unallocated (processes r);
                  nextProcessId := nextProcessId r |}.
Proof.
  intros Hreg. apply registry_inv_update; auto.
  intros p Hp _. split; [reflexivity|]. destruct Hreg. simpl. auto.
Qed.

Lemma simulation_inv_deallocate (st : Simulation) (wanted : Z) :
  simulation_inv st -> simulation_inv (manager_deallocate st wanted).
Proof.
  intros [Hreg Hman]. unfold manager_deallocate.
  destruct (memoryManager st) as [m | m].
  - pose proof (static_deallocate_inv m (registry st) wanted Hman) as Hinv.
    pose proof (static_deallocate_processes m (processes (registry st)) wanted) as Hps.
    destruct (SM.deallocate m (processes (registry st)) wanted) as [m' ps].
    cbn [fst snd] in *. split; cbn [registry memoryManager]; [|exact Hinv].
    destruct Hps as [-> | ->]; [now destruct (registry st) | now apply registry_inv_unallocate].
  - pose proof (dynamic_deallocate_inv m (registry st) wanted Hman) as Hinv.
    pose proof (dynamic_deallocate_processes m (processes (registry st)) wanted) as Hps.
    destruct (DM.deallocate m (processes (registry st)) wanted) as [m' ps].
    cbn [fst snd] in *. split; cbn [registry memoryManager]; [|exact Hinv].
    destruct Hps as [-> | ->]; [now destruct (registry st) | now apply registry_inv_unallocate].
Qed.

(** The invariant holds in every state the page can reach. *)
Lemma reachable_inv (st : Simulation) : reachable st -> simulation_inv st.
Proof.
  induction 1 as [c | st ev st' Hreach IH Hstep].
  - apply simulation_inv_initialize, registry_inv_defaults.
  - destruct Hstep as [st size unit | st c | st target st' Htarget Hclick].
    + now apply simulation_inv_add.
    + apply simulation_inv_initialize. now destruct IH.
    + destruct target as [id | id |]; cbn [handleProcessListClick] in Hclick.
      * destruct Htarget as [? | Hin]; [discriminate|].
        apply rendered_allocate_button in Hin as (p & Hp & <- & Hfree).
        rewrite registry_find in Hclick by (destruct IH; auto).
        injection Hclick as <-. now apply simulation_inv_allocate.
      * injection Hclick as <-. now apply simulation_inv_deallocate.
      * now injection Hclick as <-.
Qed.

(** ** Region coverage *)

Lemma static_layout_geometry (mem mem' : list SM.Partition) :
  map geometry mem = map geometry mem' ->
  forall start stop, static_layout start mem stop -> static_layout start mem' stop.
Proof.
  revert mem'. induction mem as [|x mem IH]; intros [|x' mem'] Hgeo start stop H;
    try discriminate; [exact H|].
  cbn [map] in Hgeo. injection Hgeo as Hid Haddr Hsize Hrest.
  destruct H as (s & Ha & Hs & Hpos & Htl).
  exists s. rewrite <- Haddr, <- Hsize. repeat split; eauto.
Qed.

Lemma static_layout_stop (mem : list SM.Partition) :
  forall start stop stop',
    static_layout start mem stop -> static_layout start mem stop' -> stop = stop'.
Proof.
  induction mem as [|x mem IH]; intros start stop stop' H H'; simpl in *; [congruence|].
  destruct H as (s & Ha & Hs & Hpos & Htl).
  destruct H' as (s' & Ha' & Hs' & Hpos' & Htl').
  assert (s = s') by congruence. subst s'. eapply IH; eauto.
Qed.

Lemma static_new_layout :
  static_layout OS_MEMORY_SIZE (SM.memory (SM.new (Fin TOTAL_MEMORY)))
                (OS_MEMORY_SIZE + 16 * MiB).
Proof.
  exists MiB. repeat split.
  exists (2 * MiB)%Z. repeat split.
  exists (4 * MiB)%Z. repeat split.
  exists (8 * MiB)%Z. repeat split.
  exists MiB. repeat split.
Qed.

(** In dynamic mode the blocks of every reachable state tile the usable
    space exactly: ascending, contiguous, positive sizes, from the end of
    the reserved prefix to the end of memory. *)
Lemma dynamic_region_coverage (st : Simulation) (m : DM.t) :
  reachable st -> memoryManager st = Dynamic m ->
  layout OS_MEMORY_SIZE (DM.memory m) TOTAL_MEMORY.
Proof.
  intros Hreach Hm. destruct (reachable_inv st Hreach) as [_ Hman].
  rewrite Hm in Hman. now destruct Hman.
Qed.

(** C1 - region coverage, evaluated on the code.  In every reachable state
    the dynamic block list tiles the usable space from [OS_MEMORY_SIZE] to
    [TOTAL_MEMORY]; the static partition list is ordered, contiguous and has
    positive sizes, but it runs from [OS_MEMORY_SIZE] to
    [OS_MEMORY_SIZE + 16 MiB], two MiB past [TOTAL_MEMORY], so it does not
    cover exactly the usable space. *)
Theorem region_coverage_on_code (st : Simulation) :
  reachable st ->
  match memoryManager st with
  | Dynamic m => layout OS_MEMORY_SIZE (DM.memory m) TOTAL_MEMORY
  | Static m =>
      static_layout OS_MEMORY_SIZE (SM.memory m) (TOTAL_MEMORY + OS_MEMORY_SIZE)
      /\ ~ static_layout OS_MEMORY_SIZE (SM.memory m) TOTAL_MEMORY
  end.
Proof.
  intros Hreach. destruct (memoryManager st) as [m | m] eqn:Hm.
  - destruct (reachable_inv st Hreach) as [_ Hman]. rewrite Hm in Hman.
    destruct Hman as [Hgeo _ _].
    assert (Hlay : static_layout OS_MEMORY_SIZE (SM.memory m)
                                 (TOTAL_MEMORY + OS_MEMORY_SIZE)).
    { eapply static_layout_geometry; [symmetry; exact Hgeo|].
      exact static_new_layout. }
    split; [exact Hlay|]. intros Hbad.
    pose proof (static_layout_stop _ _ _ _ Hlay Hbad) as Heq.
    vm_compute in Heq. discriminate.
  - exact (dynamic_region_coverage st m Hreach Hm).
Qed.

Lemma region_coverage_on_code_witness :
  match memoryManager (setupInitialState static_controls) with
  | Dynamic m => layout OS_MEMORY_SIZE (DM.memory m) TOTAL_MEMORY
  | Static m =>
      static_layout OS_MEMORY_SIZE (SM.memory m) (TOTAL_MEMORY + OS_MEMORY_SIZE)
      /\ ~ static_layout OS_MEMORY_SIZE (SM.memory m) TOTAL_MEMORY
  end.
Proof.
  apply (region_coverage_on_code (setupInitialState static_controls)).
  apply reachable_init.
Defined.

(** ** Static first fit *)

Lemma static_sizes_reachable (st : Simulation) (m : SM.t) :
  reachable st -> memoryManager st = Static m ->
  map SM.size (SM.memory m) = SM.partitionSizes.
Proof.
  intros Hreach Hm. destruct (reachable_inv st Hreach) as [_ Hman].
  rewrite Hm in Hman. destruct Hman as [Hgeo _ _].
  apply (f_equal (map snd)) in Hgeo. rewrite map_map in Hgeo.
  exact Hgeo.
Qed.

(** C7 - static allocation.  [allocate] occupies the first partition, in
    list (address) order, that is free and at least as large as the process:
    that partition gets [free = false] and the process identity as owner,
    and the process gets [allocated = true] and the partition's [id] as
    backing reference; when no partition qualifies the call returns [false]
    with an alert and leaves manager and process as they were.  Neither
    [allocate] nor [deallocate] changes the identity, address or size of a
    partition, and in every reachable state the sizes are 1, 2, 4, 8, 1 MiB.
    With all partitions free, a 1.5 MiB process lands in the 2 MiB partition
    and a following 3 MiB process in the 4 MiB partition. *)
Theorem static_allocate_first_fit (m : SM.t) (process : ProcessControlBlock) :
  (forall pre partition post,
      SM.memory m = pre ++ partition :: post ->
      (forall x, In x pre -> SM.free x && JS.ge (SM.size x) (psize process) = false) ->
      SM.free partition && JS.ge (SM.size partition) (psize process) = true ->
      SM.allocate m process
      = mkAllocResult
          {| SM.totalSize := SM.totalSize m;
             SM.memory :=
               pre ++ {| SM.id := SM.id partition;
                         SM.address := SM.address partition;
                         SM.size := SM.size partition;
                         SM.free := false;
                         SM.processId := Some (pid process) |} :: post |}
          {| pid := pid process; psize := psize process; allocated := true;
             partitionId := Some (Fin (SM.id partition)) |}
          true None)
  /\ ((forall x, In x (SM.memory m) ->
                 SM.free x && JS.ge (SM.size x) (psize process) = false) ->
      SM.allocate m process
      = mkAllocResult m process false (Some (AlertNoPartition process)))
  /\ map geometry (SM.memory (ar_manager (SM.allocate m process)))
     = map geometry (SM.memory m)
  /\ (forall ps wanted,
         map geometry (SM.memory (fst (SM.deallocate m ps wanted)))
         = map geometry (SM.memory m))
  /\ (forall st m', reachable st -> memoryManager st = Static m' ->
                    map SM.size (SM.memory m')
                    = [Fin MiB; Fin (2 * MiB); Fin (4 * MiB); Fin (8 * MiB); Fin MiB])
  /\ (let first := SM.allocate static_fresh process_1_5MiB in
      let second := SM.allocate (ar_manager first) process_3MiB in
      ar_ok first = true
      /\ partitionId (ar_process first) = Some (Fin 1)
      /\ option_map (fun x => (SM.size x, SM.processId x))
                    (nth_error (SM.memory (ar_manager first)) 1)
         = Some (Fin (2 * MiB), Some (pid process_1_5MiB))
      /\ ar_ok second = true
      /\ partitionId (ar_process second) = Some (Fin 2)
      /\ option_map (fun x => (SM.size x, SM.processId x))
                    (nth_error (SM.memory (ar_manager second)) 2)
         = Some (Fin (4 * MiB), Some (pid process_3MiB))).
Proof.
  split; [|split; [|split; [|split; [|split]]]].
  - intros pre partition post Hm Hpre Hfit. unfold SM.allocate.
    rewrite Hm, static_scan_found by assumption. reflexivity.
  - intros Hnone. unfold SM.allocate. rewrite static_scan_none by assumption.
    reflexivity.
  - apply static_allocate_geometry.
  - intros ps wanted. apply static_deallocate_geometry.
  - intros st m' Hreach Hm'. exact (static_sizes_reachable st m' Hreach Hm').
  - cbv zeta. repeat split; reflexivity.
Qed.

(** ** Dynamic allocation *)

Lemma findIndex_none_all {A} (f : A -> bool) (l : list A) :
  findIndex f l = None -> forall y, In y l -> f y = false.
Proof.
  unfold findIndex. intros H.
  destruct (first_split f l) as [(pre & x & post & -> & Hpre & Hx) | Hnone]; auto.
  rewrite findIndex_from_split in H by assumption. discriminate.
Qed.

(** With one of the three configured algorithms the search fails only when
    no free block is large enough. *)
Lemma find_block_none_exact (fit : string) (mem : list DM.Block) (requested : jsnum) :
  fit = "first"%string \/ fit = "best"%string \/ fit = "worst"%string ->
  finite_sizes mem -> requested <> NegInf ->
  DM.find_block fit mem requested = None ->
  forall b, In b mem -> DM.qualifies requested b = false.
Proof.
  intros Hfit Hfin Hreq Hnone.
  destruct Hfit as [-> | [-> | ->]]; cbn in Hnone.
  - now apply findIndex_none_all.
  - pose proof (findBestFit_spec mem requested Hfin Hreq) as Hspec.
    now rewrite Hnone in Hspec.
  - pose proof (findWorstFit_spec mem requested Hfin Hreq) as Hspec.
    now rewrite Hnone in Hspec.
Qed.

(** C2 - dynamic allocation.  [allocate] asks the configured search for a
    block.  When the search returns index [i], the block at [i] is free and
    large enough, it is replaced in place by an occupied block of size
    [process.size] at the same address owned by the process, a free block
    for the remainder follows it exactly when the original was strictly
    larger, the process gets [allocated = true] and the block's address as
    backing reference, and the tiling of the address range is preserved.
    When no block qualifies the call returns [false] with an alert and
    leaves block list and process as they were; with one of the three
    algorithms configured that is the only way to fail. *)
Theorem dynamic_allocate_correct (m : DM.t) (process : ProcessControlBlock) :
  (DM.find_block "first" = DM._findFirstFit
   /\ DM.find_block "best" = DM._findBestFit
   /\ DM.find_block "worst" = DM._findWorstFit)
  /\ (forall i,
         DM.find_block (DM.fitAlgorithm m) (DM.memory m) (psize process) = Some i ->
         exists pre b post,
           DM.memory m = pre ++ b :: post /\ length pre = i
           /\ DM.free b = true /\ JS.ge (DM.size b) (psize process) = true
           /\ DM.allocate m process
              = mkAllocResult
                  {| DM.totalSize := DM.totalSize m;
                     DM.coalesceEnabled := DM.coalesceEnabled m;
                     DM.fitAlgorithm := DM.fitAlgorithm m;
                     DM.memory :=
                       pre ++ {| DM.address := DM.address b;
                                 DM.size := psize process;
                                 DM.free := false;
                                 DM.processId := Some (pid process) |}
                           :: (if JS.gt (DM.size b) (psize process)
                               then [ {| DM.address := JS.add (DM.address b) (psize process);
                                         DM.size := JS.sub (DM.size b) (psize process);
                                         DM.free := true;
                                         DM.processId := None |} ]
                               else [])
                           ++ post |}
                  {| pid := pid process; psize := psize process; allocated := true;
                     partitionId := Some (DM.address b) |}
                  true None
           /\ (forall start stop,
                  valid_size (psize process) ->
                  layout start (DM.memory m) stop ->
                  layout start (DM.memory (ar_manager (DM.allocate m process))) stop))
  /\ ((forall b, In b (DM.memory m) -> DM.qualifies (psize process) b = false) ->
      DM.allocate m process
      = mkAllocResult m process false
                      (Some (AlertNoMemory process (DM.fitAlgorithm m))))
  /\ (DM.fitAlgorithm m = "first"%string \/ DM.fitAlgorithm m = "best"%string
      \/ DM.fitAlgorithm m = "worst"%string ->
      finite_sizes (DM.memory m) -> psize process <> NegInf ->
      ar_ok (DM.allocate m process) = false ->
      forall b, In b (DM.memory m) -> DM.qualifies (psize process) b = false).
Proof.
  split; [repeat split|split; [|split]].
  - intros i Hfind.
    destruct (dynamic_allocate_success m process i Hfind)
      as (pre & b & post & Hm & Hlen & Hq & Halloc).
    exists pre, b, post.
    unfold DM.qualifies in Hq. apply andb_true_iff in Hq as [Hfree Hge].
    repeat split; auto.
    intros start stop Hv Hlay. rewrite Halloc. cbn [ar_manager DM.with_memory DM.memory].
    rewrite Hm in Hlay. apply layout_split; auto.
    unfold DM.qualifies. now rewrite Hfree, Hge.
  - intros Hnone. apply dynamic_allocate_failure. now apply find_block_nothing.
  - intros Hfit Hfin Hreq Hfail.
    apply (find_block_none_exact (DM.fitAlgorithm m)); auto.
    destruct (DM.find_block (DM.fitAlgorithm m) (DM.memory m) (psize process))
      as [i|] eqn:Hfind; [|reflexivity].
    destruct (dynamic_allocate_success m process i Hfind)
      as (pre & b & post & _ & _ & _ & Halloc).
    rewrite Halloc in Hfail. discriminate.
Qed.

(** ** Creating processes *)

Lemma valid_size_cases (n : jsnum) :
  valid_size n <-> finite_positive n \/ n = PosInf.
Proof.
  unfold valid_size, finite_positive. split.
  - destruct n as [| | |z]; cbn [JS.isNaN JS.le orb]; try discriminate; auto.
    intros H. left. exists z. split; [reflexivity | lia].
  - intros [(z & -> & Hz) | ->]; cbn [JS.isNaN JS.le orb]; [lia | reflexivity].
Qed.

Lemma registry_ids_below_next (r : Registry) (p : ProcessControlBlock) :
  registry_inv r -> In p (processes r) -> (0 <= pid p < nextProcessId r)%Z.
Proof.
  intros [Hids Hnext _] Hp. destruct (In_nth_error _ _ Hp) as [k Hk].
  rewrite (Hids _ _ Hk), Hnext.
  assert (k < length (processes r)) by (apply nth_error_Some; congruence). lia.
Qed.

(** C9, as the code has it - [createProcess] rejects exactly the sizes that
    are [NaN] or [<= 0] (zero, negative numbers, [-Infinity]): it alerts and
    leaves the registry as it was.  Every other size, that is every finite
    positive number and also [+Infinity], creates exactly one unallocated
    process whose identity is the current [nextProcessId], appends it at the
    end of the registry and increments [nextProcessId].  In every reachable
    state the process at position [k] has identity [k] and [nextProcessId]
    is the registry's length, so the new identity is fresh and larger than
    all earlier ones, and registry order is creation order. *)
Theorem createProcess_correct (r : Registry) (n : jsnum) :
  (JS.isNaN n = true \/ JS.le n (Fin 0) = true ->
   createProcess r n = (r, Some AlertInvalidSize))
  /\ (finite_positive n \/ n = PosInf ->
      createProcess r n = (registered r n, None))
  /\ ((JS.isNaN n = true \/ JS.le n (Fin 0) = true)
      \/ (finite_positive n \/ n = PosInf))
  /\ (registry_inv r ->
      forall p, In p (processes r) -> (pid p < nextProcessId r)%Z)
  /\ (forall st, reachable st ->
        (forall k p, nth_error (processes (registry st)) k = Some p ->
                     pid p = Z.of_nat k)
        /\ nextProcessId (registry st) = Z.of_nat (length (processes (registry st)))).
Proof.
  split; [|split; [|split; [|split]]].
  - intros H. apply createProcess_rejects. unfold valid_size.
    destruct H as [-> | ->]; [discriminate | rewrite orb_true_r; discriminate].
  - intros H. apply valid_size_cases in H.
    now rewrite createProcess_accepts.
  - destruct (valid_size_dec n) as [Hv | Hv].
    + right. now apply valid_size_cases.
    + left. unfold valid_size in Hv.
      destruct (JS.isNaN n); [now left|]. destruct (JS.le n (Fin 0)); [now right|].
      now contradiction Hv.
  - intros Hreg p Hp. now apply registry_ids_below_next.
  - intros st Hreach. destruct (reachable_inv st Hreach) as [[Hids Hnext _] _].
    split; assumption.
Qed.

(** C9, as stated, fails for a non-finite size: [createProcess(Infinity)]
    raises no alert and registers a process of size [Infinity]. *)
Lemma createProcess_accepts_infinity :
  ~ finite_positive PosInf
  /\ createProcess empty_registry PosInf
     = ({| processes := [ {| pid := 0; psize := PosInf;
                             allocated := false; partitionId := None |} ];
           nextProcessId := 1 |}, None).
Proof.
  split; [|reflexivity].
  intros (z & Hz & _). discriminate.
Qed.

(** ** Deallocation of an identity that owns nothing *)

Lemma count_once_split (id : Z) (o1 o2 : list Z) :
  owned_at_most_once id (o1 ++ id :: o2) -> ~ In id o2.
Proof.
  unfold owned_at_most_once. rewrite count_occ_app, count_occ_cons_eq by reflexivity.
  intros Hcount Hin. apply (count_occ_In Z.eq_dec) in Hin. lia.
Qed.

Lemma NoDup_owned_at_most_once (id : Z) (own : list Z) :
  NoDup own -> owned_at_most_once id own.
Proof. intros H. apply (proj1 (NoDup_count_occ Z.eq_dec own) H). Qed.

Lemma static_owned_in_owners (id : Z) (mem : list SM.Partition) (x : SM.Partition) :
  In x mem -> SM.owned_by id x = true -> In id (static_owners mem).
Proof.
  intros Hin Hx. unfold static_owners. apply in_flat_map. exists x. split; [assumption|].
  unfold SM.owned_by, owner_is in Hx.
  destruct (SM.processId x) as [o|]; [|discriminate].
  apply Z.eqb_eq in Hx. subst. now left.
Qed.

Lemma owned_in_owners (id : Z) (mem : list DM.Block) (b : DM.Block) :
  In b mem -> DM.owned_by id b = true -> In id (owners mem).
Proof.
  intros Hin Hb. unfold owners. apply in_flat_map. exists b. split; [assumption|].
  unfold DM.owned_by, owner_is in Hb.
  destruct (DM.processId b) as [o|]; [|discriminate].
  apply Z.eqb_eq in Hb. subst. now left.
Qed.

Lemma not_owned_when_absent (id : Z) (mem : list DM.Block) :
  ~ In id (owners mem) -> forall b, In b mem -> DM.owned_by id b = false.
Proof.
  intros Habs b Hin. destruct (DM.owned_by id b) eqn:Hb; [|reflexivity].
  exfalso. eauto using owned_in_owners.
Qed.

(** Merging never introduces an owner. *)
Lemma coalesce_from_owners_incl (rest : list DM.Block) :
  forall current id,
    In id (owners (coalesce_from current rest)) -> In id (owners (current :: rest)).
Proof.
  induction rest as [|next tl IH]; intros current id H; [exact H|].
  cbn [coalesce_from] in H.
  change (owners (current :: next :: tl))
    with (owner_list (DM.processId current)
            ++ owner_list (DM.processId next) ++ owners tl).
  destruct (DM.free current && DM.free next).
  - apply IH in H.
    change (owners (DM.grow current next :: tl))
      with (owner_list (DM.processId current) ++ owners tl) in H.
    apply in_app_or in H as [H | H]; apply in_or_app; auto.
    right. apply in_or_app. auto.
  - change (owners (current :: coalesce_from next tl))
      with (owner_list (DM.processId current) ++ owners (coalesce_from next tl)) in H.
    apply in_app_or in H as [H | H]; apply in_or_app; [auto|].
    right. exact (IH next id H).
Qed.

Lemma coalesce_owners_incl (mem : list DM.Block) (id : Z) :
  In id (owners (DM.coalesce mem)) -> In id (owners mem).
Proof.
  rewrite coalesce_eq. destruct mem as [|b rest]; [auto|].
  apply coalesce_from_owners_incl.
Qed.

Lemma static_deallocate_unowned (m : SM.t) (ps : list ProcessControlBlock) (wanted : Z) :
  (forall x, In x (SM.memory m) -> SM.owned_by wanted x = false) ->
  SM.deallocate m ps wanted = (m, ps).
Proof. intros Hnone. unfold SM.deallocate. now rewrite find_none_all. Qed.

Lemma dynamic_deallocate_unowned (m : DM.t) (ps : list ProcessControlBlock) (wanted : Z) :
  (forall b, In b (DM.memory m) -> DM.owned_by wanted b = false) ->
  DM.deallocate m ps wanted = (m, ps).
Proof. intros Hnone. unfold DM.deallocate. now rewrite find_none_all. Qed.

Lemma static_deallocate_twice (m : SM.t) (ps : list ProcessControlBlock) (wanted : Z) :
  owned_at_most_once wanted (static_owners (SM.memory m)) ->
  SM.deallocate (fst (SM.deallocate m ps wanted)) (snd (SM.deallocate m ps wanted)) wanted
  = SM.deallocate m ps wanted.
Proof.
  intros Honce.
  destruct (first_split (SM.owned_by wanted) (SM.memory m))
    as [(pre & x & post & Hm & Hpre & Hx) | Hnone].
  - rewrite Hm, (static_owners_owned wanted) in Honce by assumption.
    apply count_once_split in Honce.
    unfold SM.deallocate at 2 3 4.
    rewrite Hm, find_split, update_first_split by assumption. cbn [fst snd].
    apply static_deallocate_unowned. cbn [SM.memory].
    intros y Hy. apply in_app_or in Hy as [Hy | [<- | Hy]]; auto.
    destruct (SM.owned_by wanted y) eqn:Hown; [|reflexivity].
    exfalso. eauto using static_owned_in_owners.
  - rewrite (static_deallocate_unowned m ps wanted Hnone). cbn [fst snd].
    now apply static_deallocate_unowned.
Qed.

Lemma dynamic_deallocate_twice (m : DM.t) (ps : list ProcessControlBlock) (wanted : Z) :
  owned_at_most_once wanted (owners (DM.memory m)) ->
  DM.deallocate (fst (DM.deallocate m ps wanted)) (snd (DM.deallocate m ps wanted)) wanted
  = DM.deallocate m ps wanted.
Proof.
  intros Honce.
  destruct (first_split (DM.owned_by wanted) (DM.memory m))
    as [(pre & b & post & Hm & Hpre & Hb) | Hnone].
  - rewrite Hm, (owners_owned_block wanted) in Honce by assumption.
    apply count_once_split in Honce.
    assert (Habs : ~ In wanted (owners (pre ++ DM.release b :: post))).
    { rewrite owners_released. intros Hin. apply in_app_or in Hin as [Hin | Hin]; auto.
      apply in_flat_map in Hin as (y & Hy & Hown).
      specialize (Hpre y Hy). unfold DM.owned_by, owner_is in Hpre.
      destruct (DM.processId y) as [o|]; [|destruct Hown].
      destruct Hown as [<- | []]. rewrite Z.eqb_refl in Hpre. discriminate. }
    unfold DM.deallocate at 2 3 4.
    rewrite Hm, find_split, update_first_split by assumption. cbn [fst snd].
    apply dynamic_deallocate_unowned. cbn [DM.with_memory DM.memory].
    apply not_owned_when_absent.
    destruct (DM.coalesceEnabled m); [|exact Habs].
    intros Hin. apply Habs. now apply coalesce_owners_incl.
  - rewrite (dynamic_deallocate_unowned m ps wanted Hnone). cbn [fst snd].
    now apply dynamic_deallocate_unowned.
Qed.

Lemma manager_deallocate_twice (st : Simulation) (wanted : Z) :
  reachable st ->
  manager_deallocate (manager_deallocate st wanted) wanted = manager_deallocate st wanted.
Proof.
  intros Hreach. destruct (reachable_inv st Hreach) as [_ Hman].
  unfold manager_deallocate at 2 3.
  destruct (memoryManager st) as [m | m].
  - destruct Hman as [_ _ [Hnd _ _]].
    pose proof (static_deallocate_twice m (processes (registry st)) wanted
                  (NoDup_owned_at_most_once _ _ Hnd)) as Htwice.
    destruct (SM.deallocate m (processes (registry st)) wanted) as [m' ps].
    cbn [fst snd] in Htwice. unfold manager_deallocate.
    cbn [memoryManager registry processes nextProcessId]. now rewrite Htwice.
  - destruct Hman as [_ _ [Hnd _ _] _].
    pose proof (dynamic_deallocate_twice m (processes (registry st)) wanted
                  (NoDup_owned_at_most_once _ _ Hnd)) as Htwice.
    destruct (DM.deallocate m (processes (registry st)) wanted) as [m' ps].
    cbn [fst snd] in Htwice. unfold manager_deallocate.
    cbn [memoryManager registry processes nextProcessId]. now rewrite Htwice.
Qed.

(** C8, as the code has it - in both managers [deallocate(processId)] with
    no region owned by that identity returns manager and registry unchanged,
    and the click handler never fails on a deallocate button.  A second
    [deallocate] of the same identity changes nothing whenever the identity
    owns at most one region before the first call; this is the case in every
    state the page can reach. *)
Theorem deallocate_unowned_noop :
  (forall (m : SM.t) ps wanted,
      (forall x, In x (SM.memory m) -> SM.owned_by wanted x = false) ->
      SM.deallocate m ps wanted = (m, ps))
  /\ (forall (m : DM.t) ps wanted,
         (forall b, In b (DM.memory m) -> DM.owned_by wanted b = false) ->
         DM.deallocate m ps wanted = (m, ps))
  /\ (forall st wanted,
         handleProcessListClick st (DeallocateButton wanted)
         = Some (manager_deallocate st wanted))
  /\ (forall (m : SM.t) ps wanted,
         owned_at_most_once wanted (static_owners (SM.memory m)) ->
         SM.deallocate (fst (SM.deallocate m ps wanted))
                       (snd (SM.deallocate m ps wanted)) wanted
         = SM.deallocate m ps wanted)
  /\ (forall (m : DM.t) ps wanted,
         owned_at_most_once wanted (owners (DM.memory m)) ->
         DM.deallocate (fst (DM.deallocate m ps wanted))
                       (snd (DM.deallocate m ps wanted)) wanted
         = DM.deallocate m ps wanted)
  /\ (forall st wanted,
         reachable st ->
         manager_deallocate (manager_deallocate st wanted) wanted
         = manager_deallocate st wanted).
Proof.
  repeat split.
  - apply static_deallocate_unowned.
  - apply dynamic_deallocate_unowned.
  - apply static_deallocate_twice.
  - apply dynamic_deallocate_twice.
  - intros st wanted. apply manager_deallocate_twice.
Qed.

(** C8, as stated, fails in a state where one identity owns two regions:
    after [allocate] was called twice with the 512 KiB process, partitions 0
    and 1 are both owned by identity 0; one [deallocate(0)] frees partition 0
    only, a second one frees partition 1 as well. *)
Lemma deallocate_twice_differs :
  let ps := [ar_process (SM.allocate static_fresh process_512KiB)] in
  let once := SM.deallocate static_twice ps 0 in
  let twice := SM.deallocate (fst once) (snd once) 0 in
  static_owners (SM.memory static_twice) = [0; 0]%Z
  /\ static_owners (SM.memory (fst once)) = [0]%Z
  /\ static_owners (SM.memory (fst twice)) = []
  /\ twice <> once.
Proof.
  cbv zeta. repeat split.
  intros H. apply (f_equal (fun r => static_owners (SM.memory (fst r)))) in H.
  discriminate H.
Qed.

(** ** Split, then coalesce *)

Lemma coalesce_from_keep (a : DM.Block) (l : list DM.Block) :
  DM.free a && head_free l = false -> coalesce_from a l = a :: coalesce_rec l.
Proof.
  destruct l as [|h tl]; [reflexivity|]. cbn [head_free coalesce_from coalesce_rec].
  now intros ->.
Qed.

(** Two free blocks that make up the free block [b] are merged back into
    [b], and nothing else moves, when [b] had no free neighbour. *)
Lemma coalesce_rec_rejoin (pre : list DM.Block) (b x y : DM.Block) (post : list DM.Block) :
  adjacent_free (pre ++ b :: post) = false ->
  DM.free b = true -> DM.free x = true -> DM.free y = true ->
  DM.grow x y = b ->
  coalesce_rec (pre ++ x :: y :: post) = pre ++ b :: post.
Proof.
  intros Hadj Hb Hx Hy Hgrow.
  induction pre as [|a pre IH].
  - cbn [app coalesce_rec coalesce_from]. rewrite Hx, Hy. cbn [andb].
    rewrite Hgrow. now apply (coalesce_rec_fixpoint (b :: post)).
  - cbn [app] in *. rewrite adjacent_free_cons in Hadj.
    apply orb_false_iff in Hadj as [Hpair Hrest].
    cbn [coalesce_rec]. rewrite coalesce_from_keep.
    + f_equal. now apply IH.
    + destruct pre as [|a' pre]; [|exact Hpair].
      cbn [app head_free] in *. now rewrite Hx, <- Hb.
Qed.

Lemma block_eta (b : DM.Block) (a s : jsnum) :
  DM.address b = a -> DM.size b = s -> DM.free b = true -> DM.processId b = None ->
  b = {| DM.address := a; DM.size := s; DM.free := true; DM.processId := None |}.
Proof. destruct b; simpl; intros; subst; reflexivity. Qed.

(** The block list after [allocate(process)] followed by
    [deallocate(process.id)] with coalescing, when the list had no two free
    neighbours and no block owned by the process. *)
Lemma dynamic_round_trip (m : DM.t) (process : ProcessControlBlock)
      (ps : list ProcessControlBlock) (start stop : Z) :
  layout start (DM.memory m) stop ->
  Forall block_consistent (DM.memory m) ->
  adjacent_free (DM.memory m) = false ->
  DM.coalesceEnabled m = true ->
  ~ In (pid process) (owners (DM.memory m)) ->
  valid_size (psize process) ->
  ar_ok (DM.allocate m process) = true ->
  DM.memory (fst (DM.deallocate (ar_manager (DM.allocate m process)) ps (pid process)))
  = DM.memory m.
Proof.
  intros Hlay Hcons Hadj Hen Hfresh Hv Hok.
  destruct (DM.find_block (DM.fitAlgorithm m) (DM.memory m) (psize process))
    as [i|] eqn:Hfind;
    [|rewrite dynamic_allocate_failure in Hok by assumption; discriminate].
  destruct (dynamic_allocate_success m process i Hfind)
    as (pre & b & post & Hm & _ & Hq & ->).
  cbn [ar_manager]. rewrite Hm in *.
  unfold DM.qualifies in Hq. apply andb_true_iff in Hq as [Hfree Hge].
  assert (Hbcons : DM.processId b = None).
  { rewrite Forall_forall in Hcons.
    specialize (Hcons b ltac:(apply in_or_app; simpl; auto)).
    unfold block_consistent in Hcons. rewrite Hfree in Hcons.
    now destruct (DM.processId b). }
  assert (Hpre : forall y, In y pre -> DM.owned_by (pid process) y = false).
  { intros y Hy. apply (not_owned_when_absent _ _ Hfresh), in_or_app. auto. }
  pose proof Hlay as Hlay'.
  apply layout_app in Hlay' as (mid & _ & (s & Ha & Hs & Hpos & _)).
  rewrite Hs in Hge. destruct (valid_fitting_size _ _ Hv Hge) as (r & Hr & Hrange).
  unfold DM.deallocate, split_result.
  cbn [DM.with_memory DM.memory DM.coalesceEnabled].
  rewrite find_split, update_first_split; auto;
    try (unfold DM.owned_by, owner_is; cbn [DM.occupy DM.processId]; apply Z.eqb_refl).
  rewrite Hen. cbn [fst DM.with_memory DM.memory]. rewrite coalesce_eq.
  rewrite Hs, Hr. unfold JS.gt. cbn [JS.lt JS.sub].
  destruct (Z.ltb_spec r s) as [Hlt | Hge'].
  - cbn [app]. apply coalesce_rec_rejoin; auto.
    unfold DM.grow, DM.release, DM.occupy, DM.remainder.
    cbn [DM.address DM.size DM.free DM.processId]. rewrite Hr. cbn [JS.add].
    symmetry. apply block_eta; auto. rewrite Hs. f_equal. lia.
  - cbn [app]. assert (r = s) by lia. subst r.
    replace (DM.release (DM.occupy process b)) with b.
    + now apply coalesce_rec_fixpoint.
    + unfold DM.release, DM.occupy. cbn [DM.address DM.size]. rewrite Hr.
      apply block_eta; auto.
Qed.

(** C6 - split-then-coalesce round trip.  In a reachable state in dynamic
    mode with coalescing enabled, for a registered process that is not
    allocated and whose allocation succeeds, [allocate(process)] followed at
    once by [deallocate(process.id)] leaves the manager in dynamic mode with
    exactly the block list it had before the allocation. *)
Theorem allocate_deallocate_round_trip
        (st : Simulation) (m : DM.t) (process : ProcessControlBlock) :
  reachable st ->
  memoryManager st = Dynamic m ->
  DM.coalesceEnabled m = true ->
  In process (processes (registry st)) ->
  allocated process = false ->
  snd (manager_allocate st process) = true ->
  exists m',
    memoryManager (manager_deallocate (fst (manager_allocate st process)) (pid process))
    = Dynamic m'
    /\ DM.memory m' = DM.memory m.
Proof.
  intros Hreach Hm Hen Hp Hfree Hok.
  destruct (reachable_inv st Hreach) as [Hreg Hman].
  rewrite Hm in Hman. destruct Hman as [Hlay Hcons [_ Hun _] Hcoal].
  unfold manager_allocate in *. rewrite Hm in *. cbn [fst snd] in *.
  unfold manager_deallocate. cbn [memoryManager registry processes nextProcessId].
  match goal with
  | |- context [DM.deallocate ?a ?ps ?w] =>
      pose proof (dynamic_round_trip m process ps OS_MEMORY_SIZE TOTAL_MEMORY
                    Hlay Hcons (Hcoal Hen) Hen (Hun process Hp Hfree)
                    (ri_sizes _ Hreg process Hp) Hok) as Hround;
      destruct (DM.deallocate a ps w) as [m' ps']
  end.
  exists m'. split; [reflexivity | exact Hround].
Qed.

(** Best fit puts the 700 KiB process into the 1.5 MiB hole, splitting it;
    releasing it merges the two pieces back. *)
Example round_trip_in_a_hole :
  map (fun b => (DM.size b, DM.free b)) (DM.memory fragmented)
  = [(Fin (512 * KiB), false); (Fin 1572864, true);
     (Fin (3 * MiB), false); (Fin (9 * MiB), true)]
  /\ map (fun b => (DM.size b, DM.free b))
         (DM.memory (ar_manager (DM.allocate fragmented process_700KiB)))
     = [(Fin (512 * KiB), false); (Fin (700 * KiB), false); (Fin 856064, true);
        (Fin (3 * MiB), false); (Fin (9 * MiB), true)]
  /\ DM.memory (fst (DM.deallocate
                       (ar_manager (DM.allocate fragmented process_700KiB)) [] 3))
     = DM.memory fragmented.
Proof. repeat split; reflexivity. Qed.

Lemma allocate_deallocate_round_trip_witness :
  exists m',
    memoryManager (manager_deallocate
                     (fst (manager_allocate coalescing_start process_512KiB))
                     (pid process_512KiB))
    = Dynamic m'
    /\ DM.memory m' = DM.memory (DM.new (Fin TOTAL_MEMORY) true "first").
Proof.
  apply (allocate_deallocate_round_trip coalescing_start
           (DM.new (Fin TOTAL_MEMORY) true "first") process_512KiB).
  - apply reachable_init.
  - reflexivity.
  - reflexivity.
  - simpl. left. reflexivity.
  - reflexivity.
  - reflexivity.
Defined.

(** ** Allocating a process that is already allocated *)

Lemma owned_count_insert (id : Z) (o1 o2 : list Z) :
  owned_count id (o1 ++ id :: o2) = S (owned_count id (o1 ++ o2)).
Proof.
  unfold owned_count. rewrite !count_occ_app, count_occ_cons_eq by reflexivity. lia.
Qed.

Lemma find_update_first {A} (f : A -> bool) (g : A -> A) (l : list A) :
  (forall x, f x = true -> f (g x) = true) ->
  find f (update_first f g l) = option_map g (find f l).
Proof.
  intros Hg. induction l as [|a l IH]; [reflexivity|]. simpl.
  destruct (f a) eqn:Ha; simpl.
  - now rewrite (Hg a Ha).
  - now rewrite Ha.
Qed.

Lemma static_allocate_ignores_flag (m : SM.t) (p q : ProcessControlBlock) :
  pid p = pid q -> psize p = psize q ->
  ar_manager (SM.allocate m p) = ar_manager (SM.allocate m q)
  /\ ar_ok (SM.allocate m p) = ar_ok (SM.allocate m q).
Proof.
  intros Hid Hsize.
  assert (Hfits : forall x, SM.fits p x = SM.fits q x)
    by (intros x; unfold SM.fits; now rewrite Hsize).
  assert (Hocc : forall x, SM.occupy p x = SM.occupy q x)
    by (intros x; unfold SM.occupy; now rewrite Hid).
  unfold SM.allocate.
  destruct (first_split (SM.fits p) (SM.memory m))
    as [(pre & x & post & Hm & Hpre & Hx) | Hnone].
  - rewrite Hm, (static_scan_found p), (static_scan_found q); auto.
    + cbn [ar_manager ar_ok]. now rewrite Hocc.
    + intros y Hy. rewrite <- Hfits. auto.
    + now rewrite <- Hfits.
  - rewrite (static_scan_none p), (static_scan_none q); auto.
    intros y Hy. rewrite <- Hfits. auto.
Qed.

Lemma dynamic_allocate_ignores_flag (m : DM.t) (p q : ProcessControlBlock) :
  pid p = pid q -> psize p = psize q ->
  ar_manager (DM.allocate m p) = ar_manager (DM.allocate m q)
  /\ ar_ok (DM.allocate m p) = ar_ok (DM.allocate m q).
Proof.
  intros Hid Hsize. unfold DM.allocate. rewrite <- Hsize.
  destruct (DM.find_block _ _ _) as [i|]; [|auto].
  destruct (nth_error _ _) as [b|]; [|auto].
  cbn [ar_manager ar_ok]. split; [|reflexivity].
  unfold DM.split_at, DM.occupy, DM.remainder. now rewrite <- Hid, <- Hsize.
Qed.

Lemma static_allocate_adds_owner (m : SM.t) (p : ProcessControlBlock) :
  Forall partition_consistent (SM.memory m) ->
  ar_ok (SM.allocate m p) = true ->
  owned_count (pid p) (static_owners (SM.memory (ar_manager (SM.allocate m p))))
  = S (owned_count (pid p) (static_owners (SM.memory m))).
Proof.
  intros Hcons Hok. unfold SM.allocate in *.
  destruct (first_split (SM.fits p) (SM.memory m))
    as [(pre & x & post & Hm & Hpre & Hx) | Hnone].
  - rewrite Hm in *. rewrite static_scan_found by assumption.
    cbn [ar_manager SM.memory].
    assert (Hxfree : SM.free x = true).
    { unfold SM.fits in Hx. now apply andb_true_iff in Hx as [? _]. }
    assert (Hxcons : partition_consistent x).
    { rewrite Forall_forall in Hcons. apply Hcons, in_or_app. simpl. auto. }
    rewrite (static_owners_free pre x post) by assumption.
    rewrite static_owners_app.
    change (static_owners (SM.occupy p x :: post)) with (pid p :: static_owners post).
    apply owned_count_insert.
  - rewrite static_scan_none in Hok by assumption. discriminate.
Qed.

Lemma dynamic_allocate_adds_owner (m : DM.t) (p : ProcessControlBlock) :
  Forall block_consistent (DM.memory m) ->
  ar_ok (DM.allocate m p) = true ->
  owned_count (pid p) (owners (DM.memory (ar_manager (DM.allocate m p))))
  = S (owned_count (pid p) (owners (DM.memory m)))
  /\ Forall block_consistent (DM.memory (ar_manager (DM.allocate m p))).
Proof.
  intros Hcons Hok.
  destruct (DM.find_block (DM.fitAlgorithm m) (DM.memory m) (psize p))
    as [i|] eqn:Hfind;
    [|rewrite dynamic_allocate_failure in Hok by assumption; discriminate].
  destruct (dynamic_allocate_success m p i Hfind)
    as (pre & b & post & Hm & _ & Hq & ->).
  cbn [ar_manager DM.with_memory DM.memory]. rewrite Hm in *.
  split; [|now apply consistent_split].
  unfold DM.qualifies in Hq. apply andb_true_iff in Hq as [Hfree _].
  assert (Hbcons : block_consistent b).
  { rewrite Forall_forall in Hcons. apply Hcons, in_or_app. simpl. auto. }
  rewrite owners_split, (owners_free_block pre b post) by assumption.
  apply owned_count_insert.
Qed.

(** [deallocate] of an identity that owns a region releases the first such
    region and nothing else. *)
Lemma static_deallocate_first (m : SM.t) (ps : list ProcessControlBlock) (wanted : Z) :
  1 <= owned_count wanted (static_owners (SM.memory m)) ->
  exists pre x post,
    SM.memory m = pre ++ x :: post
    /\ (forall y, In y pre -> SM.owned_by wanted y = false)
    /\ SM.owned_by wanted x = true
    /\ SM.deallocate m ps wanted
       = ({| SM.totalSize := SM.totalSize m;
             SM.memory := pre ++ SM.release x :: post |},
          update_first (fun p => (pid p =? wanted)%Z) mark_unallocated ps)
    /\ S (owned_count wanted (static_owners (pre ++ SM.release x :: post)))
       = owned_count wanted (static_owners (SM.memory m)).
Proof.
  intros Hcount.
  destruct (first_split (SM.owned_by wanted) (SM.memory m))
    as [(pre & x & post & Hm & Hpre & Hx) | Hnone].
  - exists pre, x, post. repeat split; auto.
    + unfold SM.deallocate. now rewrite Hm, find_split, update_first_split.
    + rewrite Hm, (static_owners_owned wanted pre x post) by assumption.
      rewrite owned_count_insert, static_owners_app. reflexivity.
  - exfalso. unfold owned_count in Hcount.
    assert (Hin : In wanted (static_owners (SM.memory m)))
      by (apply (count_occ_In Z.eq_dec); lia).
    apply in_flat_map in Hin as (y & Hy & Hown). specialize (Hnone y Hy).
    unfold SM.owned_by, owner_is in Hnone.
    destruct (SM.processId y) as [o|]; [|destruct Hown].
    destruct Hown as [<- | []]. rewrite Z.eqb_refl in Hnone. discriminate.
Qed.

Lemma dynamic_deallocate_first (m : DM.t) (ps : list ProcessControlBlock) (wanted : Z) :
  1 <= owned_count wanted (owners (DM.memory m)) ->
  exists pre b post,
    DM.memory m = pre ++ b :: post
    /\ (forall y, In y pre -> DM.owned_by wanted y = false)
    /\ DM.owned_by wanted b = true
    /\ DM.deallocate m ps wanted
       = (DM.with_memory m (if DM.coalesceEnabled m
                            then DM.coalesce (pre ++ DM.release b :: post)
                            else pre ++ DM.release b :: post),
          update_first (fun p => (pid p =? wanted)%Z) mark_unallocated ps)
    /\ (Forall block_consistent (DM.memory m) ->
        S (owned_count wanted (owners (DM.memory (fst (DM.deallocate m ps wanted)))))
        = owned_count wanted (owners (DM.memory m))).
Proof.
  intros Hcount.
  destruct (first_split (DM.owned_by wanted) (DM.memory m))
    as [(pre & b & post & Hm & Hpre & Hb) | Hnone].
  - exists pre, b, post.
    assert (Hdealloc :
              DM.deallocate m ps wanted
              = (DM.with_memory m (if DM.coalesceEnabled m
                                   then DM.coalesce (pre ++ DM.release b :: post)
                                   else pre ++ DM.release b :: post),
                 update_first (fun p => (pid p =? wanted)%Z) mark_unallocated ps)).
    { unfold DM.deallocate. now rewrite Hm, find_split, update_first_split. }
    repeat split; auto.
    intros Hcons. rewrite Hdealloc. cbn [fst DM.with_memory DM.memory].
    rewrite Hm in *. apply consistent_release in Hcons.
    rewrite (owners_owned_block wanted pre b post) by assumption.
    rewrite owned_count_insert, <- (owners_released pre b post).
    destruct (DM.coalesceEnabled m); [|reflexivity].
    now rewrite (proj2 (coalesce_bookkeeping _ Hcons)).
  - exfalso. unfold owned_count in Hcount.
    assert (Hin : In wanted (owners (DM.memory m)))
      by (apply (count_occ_In Z.eq_dec); lia).
    apply in_flat_map in Hin as (y & Hy & Hown). specialize (Hnone y Hy).
    unfold DM.owned_by, owner_is in Hnone.
    destruct (DM.processId y) as [o|]; [|destruct Hown].
    destruct Hown as [<- | []]. rewrite Z.eqb_refl in Hnone. discriminate.
Qed.

Lemma unallocated_after_update (ps : list ProcessControlBlock) (wanted : Z)
      (q : ProcessControlBlock) :
  find (fun p => (pid p =? wanted)%Z)
       (update_first (fun p => (pid p =? wanted)%Z) mark_unallocated ps) = Some q ->
  allocated q = false.
Proof.
  rewrite find_update_first by (intros x Hx; exact Hx).
  destruct (find _ ps); [|discriminate]. cbn [option_map].
  now intros [= <-].
Qed.

(** C10 - no guard against re-allocation.  Neither [allocate] reads the
    process's [allocated] flag or backing reference: manager and result only
    depend on the identity and the size.  So for a process flagged allocated
    that already owns a region, a further successful [allocate] makes it the
    owner of one region more; [deallocate(process.id)] then releases only the
    first (lowest-address) region owned by that identity and flags the
    registered process unallocated, while the identity still owns as many
    regions as before the second [allocate], at least one.  The five-partition
    manager and the fresh block list show the situation arising. *)
Theorem reallocation_unguarded :
  (forall (m : SM.t) p q,
      pid p = pid q -> psize p = psize q ->
      ar_manager (SM.allocate m p) = ar_manager (SM.allocate m q)
      /\ ar_ok (SM.allocate m p) = ar_ok (SM.allocate m q))
  /\ (forall (m : DM.t) p q,
         pid p = pid q -> psize p = psize q ->
         ar_manager (DM.allocate m p) = ar_manager (DM.allocate m q)
         /\ ar_ok (DM.allocate m p) = ar_ok (DM.allocate m q))
  /\ (forall (m : SM.t) p ps,
         allocated p = true ->
         Forall partition_consistent (SM.memory m) ->
         1 <= owned_count (pid p) (static_owners (SM.memory m)) ->
         ar_ok (SM.allocate m p) = true ->
         let m1 := ar_manager (SM.allocate m p) in
         let r := SM.deallocate m1 ps (pid p) in
         owned_count (pid p) (static_owners (SM.memory m1))
         = S (owned_count (pid p) (static_owners (SM.memory m)))
         /\ (exists pre x post,
                SM.memory m1 = pre ++ x :: post
                /\ (forall y, In y pre -> SM.owned_by (pid p) y = false)
                /\ SM.owned_by (pid p) x = true
                /\ SM.memory (fst r) = pre ++ SM.release x :: post)
         /\ owned_count (pid p) (static_owners (SM.memory (fst r)))
            = owned_count (pid p) (static_owners (SM.memory m))
         /\ (forall q, find (fun p' => (pid p' =? pid p)%Z) (snd r) = Some q ->
                       allocated q = false))
  /\ (forall (m : DM.t) p ps,
         allocated p = true ->
         Forall block_consistent (DM.memory m) ->
         1 <= owned_count (pid p) (owners (DM.memory m)) ->
         ar_ok (DM.allocate m p) = true ->
         let m1 := ar_manager (DM.allocate m p) in
         let r := DM.deallocate m1 ps (pid p) in
         owned_count (pid p) (owners (DM.memory m1))
         = S (owned_count (pid p) (owners (DM.memory m)))
         /\ (exists pre b post,
                DM.memory m1 = pre ++ b :: post
                /\ (forall y, In y pre -> DM.owned_by (pid p) y = false)
                /\ DM.owned_by (pid p) b = true
                /\ DM.memory (fst r)
                   = if DM.coalesceEnabled m1
                     then DM.coalesce (pre ++ DM.release b :: post)
                     else pre ++ DM.release b :: post)
         /\ owned_count (pid p) (owners (DM.memory (fst r)))
            = owned_count (pid p) (owners (DM.memory m))
         /\ (forall q, find (fun p' => (pid p' =? pid p)%Z) (snd r) = Some q ->
                       allocated q = false))
  /\ (let p1 := ar_process (SM.allocate static_fresh process_512KiB) in
      allocated p1 = true
      /\ ar_ok (SM.allocate (ar_manager (SM.allocate static_fresh process_512KiB)) p1) = true
      /\ map SM.processId (SM.memory static_twice) = [Some 0; Some 0; None; None; None]%Z
      /\ map SM.processId (SM.memory (fst (SM.deallocate static_twice [p1] 0)))
         = [None; Some 0; None; None; None]%Z
      /\ map allocated (snd (SM.deallocate static_twice [p1] 0)) = [false])
  /\ (let p1 := ar_process (DM.allocate (DM.new (Fin TOTAL_MEMORY) true "first")
                                        process_512KiB) in
      allocated p1 = true
      /\ map DM.processId (DM.memory dynamic_twice) = [Some 0; Some 0; None]%Z
      /\ map DM.processId (DM.memory (fst (DM.deallocate dynamic_twice [p1] 0)))
         = [None; Some 0; None]%Z
      /\ map allocated (snd (DM.deallocate dynamic_twice [p1] 0)) = [false]).
Proof.
  split; [exact static_allocate_ignores_flag|].
  split; [exact dynamic_allocate_ignores_flag|].
  split; [|split; [|split]].
  - intros m p ps _ Hcons Hown Hok. cbv zeta.
    pose proof (static_allocate_adds_owner m p Hcons Hok) as Hadd.
    destruct (static_deallocate_first (ar_manager (SM.allocate m p)) ps (pid p))
      as (pre & x & post & Hm1 & Hpre & Hx & Hdealloc & Hcount); [lia|].
    rewrite Hdealloc. cbn [fst snd SM.memory].
    split; [exact Hadd|]. split; [now exists pre, x, post|].
    split; [lia|]. intros q. apply unallocated_after_update.
  - intros m p ps _ Hcons Hown Hok. cbv zeta.
    destruct (dynamic_allocate_adds_owner m p Hcons Hok) as [Hadd Hcons1].
    destruct (dynamic_deallocate_first (ar_manager (DM.allocate m p)) ps (pid p))
      as (pre & b & post & Hm1 & Hpre & Hb & Hdealloc & Hcount); [lia|].
    specialize (Hcount Hcons1). rewrite Hdealloc in *.
    cbn [fst snd DM.with_memory DM.memory] in *.
    split; [exact Hadd|]. split; [now exists pre, b, post|].
    split; [lia|]. intros q. apply unallocated_after_update.
  - cbv zeta. repeat split.
  - cbv zeta. repeat split.
Qed.

(** ** The searches are always called within their preconditions *)

(** In every reachable state of the dynamic mode the block sizes are finite
    and no registered process has size [-Infinity]: the preconditions of
    the best-fit and worst-fit theorems hold for each call the page makes. *)
Lemma reachable_fit_preconditions (st : Simulation) (m : DM.t) :
  reachable st -> memoryManager st = Dynamic m ->
  finite_sizes (DM.memory m)
  /\ forall p, In p (processes (registry st)) -> psize p <> NegInf.
Proof.
  intros Hreach Hm. split.
  - eapply layout_finite, dynamic_region_coverage; eauto.
  - destruct (reachable_inv st Hreach) as [[_ _ Hsizes] _].
    intros p Hp Heq. specialize (Hsizes p Hp). rewrite Heq in Hsizes. discriminate.
Qed.

(** * Further properties of the code *)

(** ** Occupied blocks under coalescing *)

Lemma coalesce_from_keeps_occupied (rest : list DM.Block) :
  forall current b,
    In b (current :: rest) -> DM.free b = false ->
    In b (coalesce_from current rest).
Proof.
  induction rest as [|next tl IH]; intros current b Hin Hocc; [exact Hin|].
  cbn [coalesce_from].
  destruct (DM.free current && DM.free next) eqn:Hpair.
  - apply andb_true_iff in Hpair as [Hc Hn]. apply IH; [|assumption].
    destruct Hin as [<- | [<- | Hin]]; [congruence | congruence | now right].
  - destruct Hin as [<- | Hin]; [now left|]. right. now apply IH.
Qed.

Lemma coalesce_keeps_occupied (mem : list DM.Block) (b : DM.Block) :
  In b mem -> DM.free b = false -> In b (DM.coalesce mem).
Proof.
  rewrite coalesce_eq. destruct mem as [|c rest]; [auto|].
  apply coalesce_from_keeps_occupied.
Qed.

(** [find] and the in-place update of the found element agree on which
    element that is. *)
Lemma find_update_first_cases {A} (f : A -> bool) (g : A -> A) (l : list A) :
  (exists pre x post,
      l = pre ++ x :: post /\ (forall y, In y pre -> f y = false) /\ f x = true
      /\ find f l = Some x /\ update_first f g l = pre ++ g x :: post)
  \/ ((forall y, In y l -> f y = false) /\ find f l = None /\ update_first f g l = l).
Proof.
  destruct (first_split f l) as [(pre & x & post & -> & Hpre & Hx) | Hnone].
  - left. exists pre, x, post. repeat split; auto.
    + now apply find_split.
    + now apply update_first_split.
  - right. repeat split; auto.
    + now apply find_none_all.
    + now apply update_first_none.
Qed.

(** ** The backing reference is kept in step with the region list *)

Lemma dynamic_backing_mono (mem mem' : list DM.Block) (p : ProcessControlBlock) :
  (forall b, In b mem -> DM.free b = false -> DM.processId b = Some (pid p) ->
             In b mem') ->
  dynamic_backing mem p -> dynamic_backing mem' p.
Proof.
  unfold dynamic_backing. intros Hkeep. destruct (allocated p); [|auto].
  intros (b & Hin & Hown & Hocc & Href & Hsize). exists b. repeat split; auto.
Qed.

Lemma static_backing_mono (mem mem' : list SM.Partition) (p : ProcessControlBlock) :
  (forall x, In x mem -> SM.free x = false -> SM.processId x = Some (pid p) ->
             In x mem') ->
  static_backing mem p -> static_backing mem' p.
Proof.
  unfold static_backing. intros Hkeep. destruct (allocated p); [|auto].
  intros (x & Hin & Hown & Hocc & Href & Hsize). exists x. repeat split; auto.
Qed.

Lemma Forall_backing_reset {M} (backing : M -> ProcessControlBlock -> Prop)
      (mem : M) (ps : list ProcessControlBlock) :
  (forall p, allocated p = false -> partitionId p = None -> backing mem p) ->
  Forall (backing mem) (map mark_unallocated ps).
Proof.
  intros H. apply Forall_forall. intros q Hq.
  apply in_map_iff in Hq as (p & <- & _). now apply H.
Qed.

Lemma dynamic_backing_allocate (m : DM.t) (r : Registry) (p : ProcessControlBlock) :
  registry_inv r -> In p (processes r) ->
  Forall (dynamic_backing (DM.memory m)) (processes r) ->
  Forall (dynamic_backing (DM.memory (ar_manager (DM.allocate m p))))
         (update_first (fun q => (pid q =? pid p)%Z)
                       (fun _ => ar_process (DM.allocate m p)) (processes r)).
Proof.
  intros Hreg Hp Hback.
  destruct (registry_update_split r p (fun _ => ar_process (DM.allocate m p)) Hreg Hp)
    as (pre_ps & post_ps & Hsplit & -> & _).
  rewrite Hsplit in Hback.
  destruct (DM.find_block (DM.fitAlgorithm m) (DM.memory m) (psize p)) as [i|] eqn:Hfind.
  - destruct (dynamic_allocate_success m p i Hfind)
      as (pre & b & post & Hm & _ & Hq & ->).
    cbn [ar_manager ar_process DM.with_memory DM.memory].
    unfold DM.qualifies in Hq. apply andb_true_iff in Hq as [Hfree _].
    assert (Hkeep : forall b0, In b0 (DM.memory m) -> DM.free b0 = false ->
                               In b0 (split_result p pre b post)).
    { intros b0 Hin Hocc. rewrite Hm in Hin. unfold split_result.
      apply in_app_or in Hin as [Hin | [<- | Hin]]; [| congruence |].
      - apply in_or_app. now left.
      - apply in_or_app. right. right. apply in_or_app. now right. }
    apply Forall_app in Hback as [Hpre Hrest].
    inversion Hrest as [|? ? _ Hpost]; subst.
    apply Forall_app. split; [|constructor].
    + eapply Forall_impl; [|exact Hpre]. intros q. apply dynamic_backing_mono. auto.
    + unfold dynamic_backing. cbn [mark_allocated allocated partitionId pid psize].
      exists (DM.occupy p b). repeat split.
      unfold split_result. apply in_or_app. right. now left.
    + eapply Forall_impl; [|exact Hpost]. intros q. apply dynamic_backing_mono. auto.
  - rewrite dynamic_allocate_failure by assumption. cbn [ar_manager ar_process].
    exact Hback.
Qed.

Lemma static_backing_allocate (m : SM.t) (r : Registry) (p : ProcessControlBlock) :
  registry_inv r -> In p (processes r) ->
  Forall (static_backing (SM.memory m)) (processes r) ->
  Forall (static_backing (SM.memory (ar_manager (SM.allocate m p))))
         (update_first (fun q => (pid q =? pid p)%Z)
                       (fun _ => ar_process (SM.allocate m p)) (processes r)).
Proof.
  intros Hreg Hp Hback.
  destruct (registry_update_split r p (fun _ => ar_process (SM.allocate m p)) Hreg Hp)
    as (pre_ps & post_ps & Hsplit & -> & _).
  rewrite Hsplit in Hback. unfold SM.allocate.
  destruct (first_split (SM.fits p) (SM.memory m))
    as [(pre & x & post & Hm & Hpre & Hx) | Hnone].
  - rewrite Hm, static_scan_found by assumption.
    cbn [ar_manager ar_process SM.memory].
    pose proof Hx as Hfits. unfold SM.fits in Hx.
    apply andb_true_iff in Hx as [Hfree Hge].
    assert (Hkeep : forall x0, In x0 (SM.memory m) -> SM.free x0 = false ->
                               In x0 (pre ++ SM.occupy p x :: post)).
    { intros x0 Hin Hocc. rewrite Hm in Hin.
      apply in_app_or in Hin as [Hin | [<- | Hin]]; [| congruence |];
        apply in_or_app; simpl; auto. }
    apply Forall_app in Hback as [Hpre_ps Hrest].
    inversion Hrest as [|? ? _ Hpost_ps]; subst.
    apply Forall_app. split; [|constructor].
    + eapply Forall_impl; [|exact Hpre_ps]. intros q. apply static_backing_mono. auto.
    + unfold static_backing. cbn [mark_allocated allocated partitionId pid psize].
      exists (SM.occupy p x). repeat split; auto.
      apply in_or_app. right. now left.
    + eapply Forall_impl; [|exact Hpost_ps]. intros q. apply static_backing_mono. auto.
  - rewrite static_scan_none by assumption. cbn [ar_manager ar_process].
    exact Hback.
Qed.

(** The registry after [process.allocated = false; process.partitionId =
    null] on the process found for [wanted], if there is one. *)
Lemma registry_unallocate_cases (r : Registry) (wanted : Z) :
  registry_inv r ->
  (exists pre p0 post,
      processes r = pre ++ p0 :: post /\ pid p0 = wanted
      /\ update_first (fun q => (pid q =? wanted)%Z) mark_unallocated (processes r)
         = pre ++ mark_unallocated p0 :: post
      /\ forall y, In y (pre ++ post) -> pid y <> wanted)
  \/ (update_first (fun q => (pid q =? wanted)%Z) mark_unallocated (processes r)
      = processes r
      /\ forall y, In y (processes r) -> pid y <> wanted).
Proof.
  intros Hreg.
  destruct (find (fun q => (pid q =? wanted)%Z) (processes r)) as [p0|] eqn:Hfind.
  - apply find_some in Hfind as [Hin Heq]. apply Z.eqb_eq in Heq. subst wanted.
    destruct (registry_update_split r p0 mark_unallocated Hreg Hin)
      as (pre & post & Hsplit & Hupd & Hother).
    left. exists pre, p0, post. auto.
  - right. split.
    + apply update_first_none. intros y Hy. exact (find_none _ _ Hfind y Hy).
    + intros y Hy Heq. pose proof (find_none _ _ Hfind y Hy) as H. simpl in H.
      apply Z.eqb_neq in H. contradiction.
Qed.

Lemma Forall_backing_unallocate (backing backing' : ProcessControlBlock -> Prop)
      (r : Registry) (wanted : Z) :
  registry_inv r ->
  (forall q, pid q <> wanted -> backing q -> backing' q) ->
  (forall q, backing' (mark_unallocated q)) ->
  Forall backing (processes r) ->
  Forall backing'
         (update_first (fun q => (pid q =? wanted)%Z) mark_unallocated (processes r)).
Proof.
  intros Hreg Hother Hfreed Hback.
  destruct (registry_unallocate_cases r wanted Hreg)
    as [(pre & p0 & post & Hsplit & Hid & -> & Hne) | [-> Hne]].
  - rewrite Hsplit in Hback. apply Forall_app in Hback as [Hpre Hrest].
    inversion Hrest as [|? ? _ Hpost]; subst.
    apply Forall_app. split; [|constructor; [apply Hfreed|]].
    + apply Forall_forall. intros q Hq. rewrite Forall_forall in Hpre.
      apply Hother; auto. apply Hne, in_or_app. auto.
    + apply Forall_forall. intros q Hq. rewrite Forall_forall in Hpost.
      apply Hother; auto. apply Hne, in_or_app. auto.
  - apply Forall_forall. intros q Hq. rewrite Forall_forall in Hback.
    apply Hother; auto.
Qed.

Lemma dynamic_backing_deallocate (m : DM.t) (r : Registry) (wanted : Z) :
  registry_inv r ->
  Forall (dynamic_backing (DM.memory m)) (processes r) ->
  Forall (dynamic_backing (DM.memory (fst (DM.deallocate m (processes r) wanted))))
         (snd (DM.deallocate m (processes r) wanted)).
Proof.
  intros Hreg Hback. unfold DM.deallocate.
  destruct (find_update_first_cases (DM.owned_by wanted) DM.release (DM.memory m))
    as [(pre & b & post & Hm & Hpre & Hb & -> & ->) | (_ & -> & _)];
    [|exact Hback].
  cbn [fst snd DM.with_memory DM.memory].
  apply (Forall_backing_unallocate (dynamic_backing (DM.memory m))); auto.
  - intros q Hq. apply dynamic_backing_mono. intros b0 Hin Hocc Hown.
    assert (Hkept : In b0 (pre ++ DM.release b :: post)).
    { rewrite Hm in Hin. apply in_app_or in Hin as [Hin | [<- | Hin]];
        [apply in_or_app; auto | | apply in_or_app; simpl; auto].
      exfalso. unfold DM.owned_by, owner_is in Hb. rewrite Hown in Hb.
      apply Z.eqb_eq in Hb. contradiction. }
    destruct (DM.coalesceEnabled m); [|exact Hkept].
    now apply coalesce_keeps_occupied.
  - intros q. reflexivity.
Qed.

Lemma static_backing_deallocate (m : SM.t) (r : Registry) (wanted : Z) :
  registry_inv r ->
  Forall (static_backing (SM.memory m)) (processes r) ->
  Forall (static_backing (SM.memory (fst (SM.deallocate m (processes r) wanted))))
         (snd (SM.deallocate m (processes r) wanted)).
Proof.
  intros Hreg Hback. unfold SM.deallocate.
  destruct (find_update_first_cases (SM.owned_by wanted) SM.release (SM.memory m))
    as [(pre & x & post & Hm & Hpre & Hx & -> & ->) | (_ & -> & _)];
    [|exact Hback].
  cbn [fst snd SM.memory].
  apply (Forall_backing_unallocate (static_backing (SM.memory m))); auto.
  - intros q Hq. apply static_backing_mono. intros x0 Hin Hocc Hown.
    rewrite Hm in Hin. apply in_app_or in Hin as [Hin | [<- | Hin]];
      [apply in_or_app; auto | | apply in_or_app; simpl; auto].
    exfalso. unfold SM.owned_by, owner_is in Hx. rewrite Hown in Hx.
    apply Z.eqb_eq in Hx. contradiction.
  - intros q. reflexivity.
Qed.

Lemma backing_inv_allocate (st : Simulation) (p : ProcessControlBlock) :
  simulation_inv st -> In p (processes (registry st)) ->
  backing_inv st -> backing_inv (fst (manager_allocate st p)).
Proof.
  intros [Hreg _] Hp. unfold backing_inv, manager_allocate.
  destruct (memoryManager st) as [m | m]; cbn [fst memoryManager registry processes].
  - now apply static_backing_allocate.
  - now apply dynamic_backing_allocate.
Qed.

Lemma backing_inv_deallocate (st : Simulation) (wanted : Z) :
  simulation_inv st -> backing_inv st -> backing_inv (manager_deallocate st wanted).
Proof.
  intros [Hreg _]. unfold backing_inv, manager_deallocate.
  destruct (memoryManager st) as [m | m]; intros Hback.
  - pose proof (static_backing_deallocate m (registry st) wanted Hreg Hback) as H.
    destruct (SM.deallocate m (processes (registry st)) wanted) as [m' ps]. exact H.
  - pose proof (dynamic_backing_deallocate m (registry st) wanted Hreg Hback) as H.
    destruct (DM.deallocate m (processes (registry st)) wanted) as [m' ps]. exact H.
Qed.

Lemma backing_inv_initialize (c : Controls) (r : Registry) :
  backing_inv (initialize c r).
Proof.
  unfold backing_inv, initialize. cbn [memoryManager registry processes].
  destruct (String.eqb (algorithm c) "static");
    apply Forall_backing_reset; intros p Hfree Hnone.
  - unfold static_backing. now rewrite Hfree.
  - unfold dynamic_backing. now rewrite Hfree.
Qed.

Lemma backing_inv_add (st : Simulation) (n : jsnum) :
  backing_inv st ->
  backing_inv {| memoryManager := memoryManager st;
                 registry := fst (createProcess (registry st) n) |}.
Proof.
  unfold backing_inv. cbn [memoryManager registry].
  destruct (valid_size_dec n) as [Hv | Hv];
    [rewrite createProcess_accepts by assumption
    | rewrite createProcess_rejects by assumption; auto].
  cbn [fst processes].
  destruct (memoryManager st) as [m | m]; intros Hback;
    (apply Forall_app; split; [exact Hback | repeat constructor]).
Qed.

Lemma reachable_backing (st : Simulation) : reachable st -> backing_inv st.
Proof.
  induction 1 as [c | st ev st' Hreach IH Hstep].
  - apply backing_inv_initialize.
  - pose proof (reachable_inv st Hreach) as Hinv.
    destruct Hstep as [st size unit | st c | st target st' Htarget Hclick].
    + now apply backing_inv_add.
    + apply backing_inv_initialize.
    + destruct target as [id | id |]; cbn [handleProcessListClick] in Hclick.
      * destruct Htarget as [? | Hin]; [discriminate|].
        apply rendered_allocate_button in Hin as (p & Hp & <- & Hfree).
        rewrite registry_find in Hclick by (destruct Hinv; auto).
        injection Hclick as <-. now apply backing_inv_allocate.
      * injection Hclick as <-. now apply backing_inv_deallocate.
      * now injection Hclick as <-.
Qed.

Lemma after_first_allocation_reachable : reachable after_first_allocation.
Proof.
  apply (reachable_step coalescing_start (ProcessListClick (AllocateButton 0))).
  - apply reachable_init.
  - apply step_click; [right; simpl; auto | reflexivity].
Qed.

Lemma reachable_ownership (st : Simulation) :
  reachable st -> ownership_inv (manager_owners (memoryManager st)) (registry st).
Proof.
  intros Hreach. destruct (reachable_inv st Hreach) as [_ Hman].
  destruct (memoryManager st) as [m | m]; now destruct Hman.
Qed.

Lemma reachable_backing_owner (st : Simulation) (p : ProcessControlBlock) :
  reachable st -> In p (processes (registry st)) -> allocated p = true ->
  In (pid p) (manager_owners (memoryManager st)).
Proof.
  intros Hreach Hp Halloc. pose proof (reachable_backing st Hreach) as Hback.
  unfold backing_inv in Hback.
  destruct (memoryManager st) as [m | m]; rewrite Forall_forall in Hback;
    specialize (Hback p Hp); cbn [manager_owners].
  - unfold static_backing in Hback. rewrite Halloc in Hback.
    destruct Hback as (x & Hin & Hown & _).
    apply (static_owned_in_owners _ _ x); auto.
    unfold SM.owned_by, owner_is. rewrite Hown. apply Z.eqb_refl.
  - unfold dynamic_backing in Hback. rewrite Halloc in Hback.
    destruct Hback as (b & Hin & Hown & _).
    apply (owned_in_owners _ _ b); auto.
    unfold DM.owned_by, owner_is. rewrite Hown. apply Z.eqb_refl.
Qed.

(** X1 - allocation consistency.  In every reachable state a registered
    process flagged allocated owns exactly one region and one flagged
    unallocated owns none.  An allocated process's [partitionId] is the [id]
    of its partition, which is at least as large as the process (static
    mode), or the [address] of its block, whose size is exactly the
    process's size (dynamic mode); an unallocated process has
    [partitionId = null]. *)
Theorem allocation_consistency (st : Simulation) (p : ProcessControlBlock) :
  reachable st -> In p (processes (registry st)) ->
  owned_count (pid p) (manager_owners (memoryManager st))
  = (if allocated p then 1 else 0)
  /\ match memoryManager st with
     | Static m => static_backing (SM.memory m) p
     | Dynamic m => dynamic_backing (DM.memory m) p
     end.
Proof.
  intros Hreach Hp. split.
  - destruct (reachable_ownership st Hreach) as [Hnd Hun _].
    pose proof (NoDup_owned_at_most_once (pid p) _ Hnd) as Hle.
    unfold owned_at_most_once in Hle. unfold owned_count.
    destruct (allocated p) eqn:Halloc.
    + pose proof (reachable_backing_owner st p Hreach Hp Halloc) as Hin.
      apply (count_occ_In Z.eq_dec) in Hin. lia.
    + apply count_occ_not_In. auto.
  - pose proof (reachable_backing st Hreach) as Hback. unfold backing_inv in Hback.
    destruct (memoryManager st) as [m | m]; rewrite Forall_forall in Hback; auto.
Qed.

Lemma allocation_consistency_witness :
  owned_count (pid first_process_allocated)
              (manager_owners (memoryManager after_first_allocation))
  = (if allocated first_process_allocated then 1 else 0)
  /\ match memoryManager after_first_allocation with
     | Static m => static_backing (SM.memory m) first_process_allocated
     | Dynamic m => dynamic_backing (DM.memory m) first_process_allocated
     end.
Proof.
  apply (allocation_consistency after_first_allocation first_process_allocated).
  - exact after_first_allocation_reachable.
  - simpl. left. reflexivity.
Defined.

(** ** What [deallocate] leaves behind *)

Lemma owners_has_owned (id : Z) (mem : list DM.Block) :
  In id (owners mem) -> exists b, In b mem /\ DM.owned_by id b = true.
Proof.
  intros Hin. apply in_flat_map in Hin as (b & Hb & Hown). exists b. split; [assumption|].
  unfold DM.owned_by, owner_is. destruct (DM.processId b) as [o|]; [|destruct Hown].
  destruct Hown as [<- | []]. apply Z.eqb_refl.
Qed.

Lemma static_owners_has_owned (id : Z) (mem : list SM.Partition) :
  In id (static_owners mem) -> exists x, In x mem /\ SM.owned_by id x = true.
Proof.
  intros Hin. apply in_flat_map in Hin as (x & Hx & Hown). exists x. split; [assumption|].
  unfold SM.owned_by, owner_is. destruct (SM.processId x) as [o|]; [|destruct Hown].
  destruct Hown as [<- | []]. apply Z.eqb_refl.
Qed.

(** The owners after [deallocate(wanted)]: the first occurrence of [wanted]
    is removed, or the list is unchanged when [wanted] owns nothing. *)
Lemma static_deallocate_owners (m : SM.t) (ps : list ProcessControlBlock) (wanted : Z) :
  (exists o1 o2,
      static_owners (SM.memory m) = o1 ++ wanted :: o2
      /\ static_owners (SM.memory (fst (SM.deallocate m ps wanted))) = o1 ++ o2)
  \/ (~ In wanted (static_owners (SM.memory m))
      /\ fst (SM.deallocate m ps wanted) = m).
Proof.
  unfold SM.deallocate.
  destruct (find_update_first_cases (SM.owned_by wanted) SM.release (SM.memory m))
    as [(pre & x & post & Hm & Hpre & Hx & -> & ->) | (Hnone & -> & _)].
  - left. exists (static_owners pre), (static_owners post). cbn [fst SM.memory].
    rewrite Hm, (static_owners_owned wanted pre x post) by assumption.
    split; [reflexivity|]. now rewrite static_owners_app.
  - right. split; [|reflexivity]. intros Hin.
    destruct (static_owners_has_owned _ _ Hin) as (x & Hx & Hown).
    rewrite (Hnone x Hx) in Hown. discriminate.
Qed.

Lemma dynamic_deallocate_owners (m : DM.t) (ps : list ProcessControlBlock) (wanted : Z) :
  Forall block_consistent (DM.memory m) ->
  (exists o1 o2,
      owners (DM.memory m) = o1 ++ wanted :: o2
      /\ owners (DM.memory (fst (DM.deallocate m ps wanted))) = o1 ++ o2)
  \/ (~ In wanted (owners (DM.memory m))
      /\ fst (DM.deallocate m ps wanted) = m).
Proof.
  intros Hcons. unfold DM.deallocate.
  destruct (find_update_first_cases (DM.owned_by wanted) DM.release (DM.memory m))
    as [(pre & b & post & Hm & Hpre & Hb & -> & ->) | (Hnone & -> & _)].
  - left. exists (owners pre), (owners post). cbn [fst DM.with_memory DM.memory].
    rewrite Hm in *. rewrite (owners_owned_block wanted pre b post) by assumption.
    split; [reflexivity|]. apply consistent_release in Hcons.
    rewrite <- (owners_released pre b post).
    destruct (DM.coalesceEnabled m); [|reflexivity].
    now rewrite (proj2 (coalesce_bookkeeping _ Hcons)).
  - right. split; [|reflexivity]. intros Hin.
    destruct (owners_has_owned _ _ Hin) as (b & Hb & Hown).
    rewrite (Hnone b Hb) in Hown. discriminate.
Qed.

Lemma manager_deallocate_owners (st : Simulation) (wanted : Z) :
  simulation_inv st ->
  (exists o1 o2,
      manager_owners (memoryManager st) = o1 ++ wanted :: o2
      /\ manager_owners (memoryManager (manager_deallocate st wanted)) = o1 ++ o2)
  \/ (~ In wanted (manager_owners (memoryManager st))
      /\ memoryManager (manager_deallocate st wanted) = memoryManager st).
Proof.
  intros [_ Hman]. unfold manager_deallocate.
  destruct (memoryManager st) as [m | m]; cbn [manager_owners].
  - pose proof (static_deallocate_owners m (processes (registry st)) wanted) as H.
    destruct (SM.deallocate m (processes (registry st)) wanted) as [m' ps'].
    cbn [fst memoryManager manager_owners] in *.
    destruct H as [H | [H ->]]; auto.
  - destruct Hman as [_ Hcons _ _].
    pose proof (dynamic_deallocate_owners m (processes (registry st)) wanted Hcons) as H.
    destruct (DM.deallocate m (processes (registry st)) wanted) as [m' ps'].
    cbn [fst memoryManager manager_owners] in *.
    destruct H as [H | [H ->]]; auto.
Qed.

Lemma backing_owner (st : Simulation) (p : ProcessControlBlock) :
  backing_inv st -> In p (processes (registry st)) -> allocated p = true ->
  In (pid p) (manager_owners (memoryManager st)).
Proof.
  unfold backing_inv. intros Hback Hp Halloc.
  destruct (memoryManager st) as [m | m]; rewrite Forall_forall in Hback;
    specialize (Hback p Hp); cbn [manager_owners].
  - unfold static_backing in Hback. rewrite Halloc in Hback.
    destruct Hback as (x & Hin & Hown & _).
    apply (static_owned_in_owners _ _ x); auto.
    unfold SM.owned_by, owner_is. rewrite Hown. apply Z.eqb_refl.
  - unfold dynamic_backing in Hback. rewrite Halloc in Hback.
    destruct Hback as (b & Hin & Hown & _).
    apply (owned_in_owners _ _ b); auto.
    unfold DM.owned_by, owner_is. rewrite Hown. apply Z.eqb_refl.
Qed.

Lemma backing_unallocated (st : Simulation) (p : ProcessControlBlock) :
  backing_inv st -> In p (processes (registry st)) -> allocated p = false ->
  partitionId p = None.
Proof.
  unfold backing_inv. intros Hback Hp Hfree.
  destruct (memoryManager st) as [m | m]; rewrite Forall_forall in Hback;
    specialize (Hback p Hp).
  - unfold static_backing in Hback. now rewrite Hfree in Hback.
  - unfold dynamic_backing in Hback. now rewrite Hfree in Hback.
Qed.

(** X2 - what [deallocate] achieves.  From any reachable state, after
    [memoryManager.deallocate(wanted)] the identity [wanted] owns no region,
    every other identity owns a region exactly when it did before, and a
    registered process with identity [wanted] is flagged unallocated with
    [partitionId = null]. *)
Theorem deallocate_releases (st : Simulation) (wanted : Z) :
  reachable st ->
  ~ In wanted (manager_owners (memoryManager (manager_deallocate st wanted)))
  /\ (forall id, id <> wanted ->
                 (In id (manager_owners (memoryManager (manager_deallocate st wanted)))
                  <-> In id (manager_owners (memoryManager st))))
  /\ (forall q, In q (processes (registry (manager_deallocate st wanted))) ->
                pid q = wanted -> allocated q = false /\ partitionId q = None).
Proof.
  intros Hreach. pose proof (reachable_inv st Hreach) as Hinv.
  pose proof (reachable_backing st Hreach) as Hback.
  pose proof (reachable_ownership st Hreach) as [Hnd _ _].
  assert (Hgone : ~ In wanted
                    (manager_owners (memoryManager (manager_deallocate st wanted)))).
  { destruct (manager_deallocate_owners st wanted Hinv)
      as [(o1 & o2 & Hbefore & ->) | [Habs ->]]; [|exact Habs].
    rewrite Hbefore in Hnd. exact (NoDup_remove_2 _ _ _ Hnd). }
  split; [exact Hgone|]. split.
  - intros id Hne.
    destruct (manager_deallocate_owners st wanted Hinv)
      as [(o1 & o2 & -> & ->) | [_ ->]]; [|reflexivity].
    rewrite !in_app_iff. simpl. intuition congruence.
  - intros q Hq Hid. subst wanted.
    pose proof (backing_inv_deallocate st (pid q) Hinv Hback) as Hback'.
    assert (Hfree : allocated q = false).
    { destruct (allocated q) eqn:Halloc; [|reflexivity].
      exfalso. apply Hgone. now apply backing_owner. }
    split; [exact Hfree|]. exact (backing_unallocated _ q Hback' Hq Hfree).
Qed.

Lemma deallocate_releases_witness :
  ~ In 0%Z (manager_owners (memoryManager (manager_deallocate after_first_allocation 0)))
  /\ (forall id, id <> 0%Z ->
                 (In id (manager_owners
                           (memoryManager (manager_deallocate after_first_allocation 0)))
                  <-> In id (manager_owners (memoryManager after_first_allocation))))
  /\ (forall q, In q (processes (registry (manager_deallocate after_first_allocation 0))) ->
                pid q = 0%Z -> allocated q = false /\ partitionId q = None).
Proof.
  apply (deallocate_releases after_first_allocation 0).
  exact after_first_allocation_reachable.
Defined.

(** ** Allocate, then deallocate: the whole state *)

Lemma dynamic_deallocate_fields (m : DM.t) (ps : list ProcessControlBlock) (wanted : Z) :
  fst (DM.deallocate m ps wanted)
  = DM.with_memory m (DM.memory (fst (DM.deallocate m ps wanted))).
Proof.
  unfold DM.deallocate. destruct (find _ _); cbn [fst]; [reflexivity|].
  now destruct m.
Qed.

Lemma static_deallocate_fields (m : SM.t) (ps : list ProcessControlBlock) (wanted : Z) :
  fst (SM.deallocate m ps wanted)
  = {| SM.totalSize := SM.totalSize m;
       SM.memory := SM.memory (fst (SM.deallocate m ps wanted)) |}.
Proof.
  unfold SM.deallocate. destruct (find _ _); cbn [fst]; [reflexivity|].
  now destruct m.
Qed.

Lemma deallocate_found_processes_dynamic (m : DM.t) (ps : list ProcessControlBlock)
      (wanted : Z) (b : DM.Block) :
  In b (DM.memory m) -> DM.owned_by wanted b = true ->
  snd (DM.deallocate m ps wanted)
  = update_first (fun q => (pid q =? wanted)%Z) mark_unallocated ps.
Proof.
  intros Hin Hb. unfold DM.deallocate.
  destruct (find (DM.owned_by wanted) (DM.memory m)) eqn:Hfind; [reflexivity|].
  rewrite (find_none _ _ Hfind b Hin) in Hb. discriminate.
Qed.

Lemma deallocate_found_processes_static (m : SM.t) (ps : list ProcessControlBlock)
      (wanted : Z) (x : SM.Partition) :
  In x (SM.memory m) -> SM.owned_by wanted x = true ->
  snd (SM.deallocate m ps wanted)
  = update_first (fun q => (pid q =? wanted)%Z) mark_unallocated ps.
Proof.
  intros Hin Hx. unfold SM.deallocate.
  destruct (find (SM.owned_by wanted) (SM.memory m)) eqn:Hfind; [reflexivity|].
  rewrite (find_none _ _ Hfind x Hin) in Hx. discriminate.
Qed.

Lemma partition_eta (x : SM.Partition) :
  SM.free x = true -> SM.processId x = None ->
  {| SM.id := SM.id x; SM.address := SM.address x; SM.size := SM.size x;
     SM.free := true; SM.processId := None |} = x.
Proof. destruct x; simpl; intros; subst; reflexivity. Qed.

(** The partition list after [allocate(process)] followed by
    [deallocate(process.id)], when the process owned no partition. *)
Lemma static_round_trip (m : SM.t) (process : ProcessControlBlock)
      (ps : list ProcessControlBlock) :
  Forall partition_consistent (SM.memory m) ->
  ~ In (pid process) (static_owners (SM.memory m)) ->
  SM.memory (fst (SM.deallocate (ar_manager (SM.allocate m process)) ps (pid process)))
  = SM.memory m.
Proof.
  intros Hcons Hfresh.
  assert (Hnone : forall y, In y (SM.memory m) -> SM.owned_by (pid process) y = false).
  { intros y Hy. destruct (SM.owned_by (pid process) y) eqn:Hown; [|reflexivity].
    exfalso. eauto using static_owned_in_owners. }
  unfold SM.allocate.
  destruct (first_split (SM.fits process) (SM.memory m))
    as [(pre & x & post & Hm & Hpre & Hx) | Hfail].
  - rewrite Hm in *. rewrite static_scan_found by assumption. cbn [ar_manager].
    unfold SM.deallocate. cbn [SM.memory].
    rewrite find_split, update_first_split;
      try (intros y Hy; apply Hnone, in_or_app; auto);
      try (unfold SM.owned_by, owner_is; cbn [SM.occupy SM.processId]; apply Z.eqb_refl).
    cbn [fst SM.memory]. f_equal. f_equal.
    unfold SM.release, SM.occupy. cbn [SM.id SM.address SM.size].
    apply partition_eta.
    + unfold SM.fits in Hx. now apply andb_true_iff in Hx as [? _].
    + rewrite Forall_forall in Hcons.
      specialize (Hcons x ltac:(apply in_or_app; simpl; auto)).
      unfold partition_consistent in Hcons.
      unfold SM.fits in Hx. apply andb_true_iff in Hx as [Hfree _].
      rewrite Hfree in Hcons. now destruct (SM.processId x).
  - rewrite static_scan_none by assumption. cbn [ar_manager].
    now rewrite static_deallocate_unowned.
Qed.

(** The same for the block list, whether or not the allocation succeeds. *)
Lemma dynamic_round_trip_any (m : DM.t) (process : ProcessControlBlock)
      (ps : list ProcessControlBlock) (start stop : Z) :
  layout start (DM.memory m) stop ->
  Forall block_consistent (DM.memory m) ->
  adjacent_free (DM.memory m) = false ->
  DM.coalesceEnabled m = true ->
  ~ In (pid process) (owners (DM.memory m)) ->
  valid_size (psize process) ->
  DM.memory (fst (DM.deallocate (ar_manager (DM.allocate m process)) ps (pid process)))
  = DM.memory m.
Proof.
  intros Hlay Hcons Hadj Hen Hfresh Hv.
  destruct (ar_ok (DM.allocate m process)) eqn:Hok.
  - eapply dynamic_round_trip; eauto.
  - destruct (DM.find_block (DM.fitAlgorithm m) (DM.memory m) (psize process))
      as [i|] eqn:Hfind.
    + destruct (dynamic_allocate_success m process i Hfind)
        as (pre & b & post & _ & _ & _ & Halloc).
      rewrite Halloc in Hok. discriminate.
    + rewrite dynamic_allocate_failure by assumption. cbn [ar_manager].
      rewrite dynamic_deallocate_unowned; [reflexivity|].
      now apply not_owned_when_absent.
Qed.

Lemma unallocate_allocated (r : jsnum) (p : ProcessControlBlock) :
  allocated p = false -> partitionId p = None ->
  mark_unallocated (mark_allocated r p) = p.
Proof. destruct p; simpl; intros; subst; reflexivity. Qed.

Lemma registry_restore (r : Registry) (p p1 : ProcessControlBlock) :
  registry_inv r -> In p (processes r) ->
  pid p1 = pid p -> mark_unallocated p1 = p ->
  update_first (fun q => (pid q =? pid p)%Z) mark_unallocated
               (update_first (fun q => (pid q =? pid p)%Z) (fun _ => p1) (processes r))
  = processes r.
Proof.
  intros Hreg Hp Hid Hback.
  destruct (registry_update_split r p (fun _ => p1) Hreg Hp)
    as (pre & post & Hsplit & -> & Hother).
  rewrite update_first_split, Hback; [now symmetry | |].
  - intros y Hy. apply Z.eqb_neq, Hother, in_or_app. now left.
  - now apply Z.eqb_eq.
Qed.

Lemma dynamic_round_trip_processes (m : DM.t) (r : Registry) (p : ProcessControlBlock) :
  registry_inv r -> In p (processes r) ->
  allocated p = false -> partitionId p = None ->
  ~ In (pid p) (owners (DM.memory m)) ->
  snd (DM.deallocate (ar_manager (DM.allocate m p))
                     (update_first (fun q => (pid q =? pid p)%Z)
                                   (fun _ => ar_process (DM.allocate m p)) (processes r))
                     (pid p))
  = processes r.
Proof.
  intros Hreg Hp Hfree Hnone Hfresh.
  destruct (DM.find_block (DM.fitAlgorithm m) (DM.memory m) (psize p)) as [i|] eqn:Hfind.
  - destruct (dynamic_allocate_success m p i Hfind)
      as (pre & b & post & Hm & _ & _ & ->).
    cbn [ar_manager ar_process].
    rewrite (deallocate_found_processes_dynamic _ _ _ (DM.occupy p b)).
    + apply registry_restore; auto. now apply unallocate_allocated.
    + cbn [DM.with_memory DM.memory]. unfold split_result.
      apply in_or_app. right. now left.
    + unfold DM.owned_by, owner_is. cbn [DM.occupy DM.processId]. apply Z.eqb_refl.
  - rewrite dynamic_allocate_failure by assumption. cbn [ar_manager ar_process].
    rewrite dynamic_deallocate_unowned by (now apply not_owned_when_absent).
    cbn [snd]. pose proof (registry_store_same r p Hreg Hp) as Hsame.
    now apply (f_equal processes) in Hsame.
Qed.

Lemma static_round_trip_processes (m : SM.t) (r : Registry) (p : ProcessControlBlock) :
  registry_inv r -> In p (processes r) ->
  allocated p = false -> partitionId p = None ->
  ~ In (pid p) (static_owners (SM.memory m)) ->
  snd (SM.deallocate (ar_manager (SM.allocate m p))
                     (update_first (fun q => (pid q =? pid p)%Z)
                                   (fun _ => ar_process (SM.allocate m p)) (processes r))
                     (pid p))
  = processes r.
Proof.
  intros Hreg Hp Hfree Hnone Hfresh. unfold SM.allocate.
  destruct (first_split (SM.fits p) (SM.memory m))
    as [(pre & x & post & Hm & Hpre & Hx) | Hfail].
  - rewrite Hm, static_scan_found by assumption. cbn [ar_manager ar_process].
    rewrite (deallocate_found_processes_static _ _ _ (SM.occupy p x)).
    + apply registry_restore; auto. now apply unallocate_allocated.
    + cbn [SM.memory]. apply in_or_app. right. now left.
    + unfold SM.owned_by, owner_is. cbn [SM.occupy SM.processId]. apply Z.eqb_refl.
  - rewrite static_scan_none by assumption. cbn [ar_manager ar_process].
    rewrite static_deallocate_unowned.
    + cbn [snd]. pose proof (registry_store_same r p Hreg Hp) as Hsame.
      now apply (f_equal processes) in Hsame.
    + intros y Hy. destruct (SM.owned_by (pid p) y) eqn:Hown; [|reflexivity].
      exfalso. eauto using static_owned_in_owners.
Qed.

Lemma dynamic_allocate_fields (m : DM.t) (p : ProcessControlBlock) (mem : list DM.Block) :
  DM.with_memory (ar_manager (DM.allocate m p)) mem = DM.with_memory m mem.
Proof.
  unfold DM.allocate.
  destruct (DM.find_block _ _ _); [destruct (nth_error _ _)|]; reflexivity.
Qed.

Lemma static_allocate_fields (m : SM.t) (p : ProcessControlBlock) :
  SM.totalSize (ar_manager (SM.allocate m p)) = SM.totalSize m.
Proof.
  unfold SM.allocate. destruct (SM.allocate_scan _ _) as [[mem' p']|]; reflexivity.
Qed.

(** X3 - allocate, then deallocate, is the identity on the whole state.  In
    a reachable state in static mode, or in dynamic mode with coalescing
    enabled, clicking allocate for an unallocated process and then
    deallocating it leaves manager, region list and registry exactly as they
    were, whether or not the allocation succeeded. *)
Theorem allocate_then_deallocate_restores
        (st : Simulation) (p : ProcessControlBlock) :
  reachable st ->
  (forall m, memoryManager st = Dynamic m -> DM.coalesceEnabled m = true) ->
  In p (processes (registry st)) ->
  allocated p = false ->
  manager_deallocate (fst (manager_allocate st p)) (pid p) = st.
Proof.
  intros Hreach Hmode Hp Hfree.
  destruct (reachable_inv st Hreach) as [Hreg Hman].
  pose proof (backing_unallocated st p (reachable_backing st Hreach) Hp Hfree) as Hnone.
  destruct st as [mm r]. cbn [memoryManager registry] in *.
  unfold manager_allocate, manager_deallocate. cbn [memoryManager registry fst].
  destruct mm as [m | m]; cbn [memoryManager registry processes nextProcessId fst snd].
  - destruct Hman as [_ Hcons [_ Hun _]].
    pose proof (static_round_trip m p
                  (update_first (fun q => (pid q =? pid p)%Z)
                                (fun _ => ar_process (SM.allocate m p)) (processes r))
                  Hcons (Hun p Hp Hfree)) as Hmem.
    pose proof (static_round_trip_processes m r p Hreg Hp Hfree Hnone (Hun p Hp Hfree))
      as Hps.
    pose proof (static_deallocate_fields
                  (ar_manager (SM.allocate m p))
                  (update_first (fun q => (pid q =? pid p)%Z)
                                (fun _ => ar_process (SM.allocate m p)) (processes r))
                  (pid p)) as Hfields.
    destruct (SM.deallocate _ _ _) as [m2 ps2]. cbn [fst snd] in *.
    rewrite Hfields, Hmem, Hps, static_allocate_fields.
    destruct m, r. reflexivity.
  - destruct Hman as [Hlay Hcons [_ Hun _] Hcoal].
    pose proof (Hmode m eq_refl) as Hen.
    pose proof (dynamic_round_trip_any m p
                  (update_first (fun q => (pid q =? pid p)%Z)
                                (fun _ => ar_process (DM.allocate m p)) (processes r))
                  _ _ Hlay Hcons (Hcoal Hen) Hen (Hun p Hp Hfree)
                  (ri_sizes _ Hreg p Hp)) as Hmem.
    pose proof (dynamic_round_trip_processes m r p Hreg Hp Hfree Hnone (Hun p Hp Hfree))
      as Hps.
    pose proof (dynamic_deallocate_fields
                  (ar_manager (DM.allocate m p))
                  (update_first (fun q => (pid q =? pid p)%Z)
                                (fun _ => ar_process (DM.allocate m p)) (processes r))
                  (pid p)) as Hfields.
    destruct (DM.deallocate _ _ _) as [m2 ps2]. cbn [fst snd] in *.
    rewrite Hfields, Hmem, Hps, dynamic_allocate_fields.
    destruct m, r. reflexivity.
Qed.

Lemma allocate_then_deallocate_restores_witness :
  manager_deallocate (fst (manager_allocate coalescing_start process_512KiB))
                     (pid process_512KiB)
  = coalescing_start.
Proof.
  apply (allocate_then_deallocate_restores coalescing_start process_512KiB).
  - apply reachable_init.
  - intros m Hm. injection Hm as <-. reflexivity.
  - simpl. left. reflexivity.
  - reflexivity.
Defined.

(** ** First fit *)

Lemma nth_error_app_In {A} (pre : list A) (x : A) (post : list A) (j : nat) (y : A) :
  j < length pre -> nth_error (pre ++ x :: post) j = Some y -> In y pre.
Proof.
  intros Hj Hnth. rewrite nth_error_app1 in Hnth by assumption.
  eapply nth_error_In, Hnth.
Qed.

(** X4 - first fit.  [_findFirstFit] returns the index of a free block that
    is large enough such that no block at a smaller index qualifies, and no
    index exactly when no block qualifies; in a laid-out list the selected
    block has the lowest address of all qualifying blocks.  No assumption on
    the sizes or on the request is needed. *)
Theorem first_fit_correct (mem : list DM.Block) (requested : jsnum) :
  first_fit_spec mem requested (DM._findFirstFit mem requested)
  /\ (forall start stop i b b',
         layout start mem stop ->
         DM._findFirstFit mem requested = Some i -> nth_error mem i = Some b ->
         In b' mem -> DM.qualifies requested b' = true ->
         JS.le (DM.address b) (DM.address b') = true).
Proof.
  unfold DM._findFirstFit, findIndex.
  destruct (first_split (DM.qualifies requested) mem)
    as [(pre & x & post & Hm & Hpre & Hx) | Hnone].
  - rewrite Hm, findIndex_from_split by assumption. cbn [first_fit_spec Nat.add].
    split.
    + exists x. rewrite nth_error_middle. repeat split; auto.
      intros j b' Hj Hnth. eapply Hpre, nth_error_app_In; eauto.
    + intros start stop i b b' Hlay [= <-] Hnth Hin Hq.
      rewrite nth_error_middle in Hnth. injection Hnth as <-.
      destruct (In_nth_error _ _ Hin) as [j Hj].
      destruct (Nat.lt_trichotomy j (length pre)) as [Hlt | [-> | Hgt]].
      * rewrite (Hpre b') in Hq; [discriminate|].
        eapply nth_error_app_In; eauto.
      * rewrite nth_error_middle in Hj. injection Hj as <-.
        destruct (layout_nth_address _ _ _ _ _ Hlay (nth_error_middle pre x post))
          as (y & -> & _).
        rewrite js_le_fin. lia.
      * pose proof (layout_address_increasing _ _ _ _ _ _ _ Hlay Hgt
                      (nth_error_middle pre x post) Hj) as Hlt.
        destruct (layout_nth_address _ _ _ _ _ Hlay (nth_error_middle pre x post))
          as (y & Hy & _).
        destruct (layout_nth_address _ _ _ _ _ Hlay Hj) as (y' & Hy' & _).
        rewrite Hy, Hy' in *. rewrite js_lt_fin in Hlt. rewrite js_le_fin. lia.
  - rewrite findIndex_from_none by assumption. cbn [first_fit_spec].
    split; [assumption|]. intros ? ? ? ? ? _ H. discriminate.
Qed.

(** ** Requests no region can hold *)

Lemma layout_size_bound (mem : list DM.Block) :
  forall start stop b,
    layout start mem stop -> In b mem ->
    exists s, DM.size b = Fin s /\ (0 < s <= stop - start)%Z.
Proof.
  induction mem as [|a mem IH]; intros start stop b Hlay Hin; [destruct Hin|].
  destruct Hlay as (s & Ha & Hs & Hpos & Hrest).
  assert (Hspan : (start + s <= stop)%Z).
  { clear -Hrest IH Hpos. revert Hrest. generalize (start + s)%Z as mid.
    clear IH. induction mem as [|c mem IHm]; intros mid H; simpl in H; [lia|].
    destruct H as (s' & _ & _ & Hpos' & Hrest'). specialize (IHm _ Hrest'). lia. }
  destruct Hin as [<- | Hin].
  - exists s. split; [assumption | lia].
  - destruct (IH _ _ _ Hrest Hin) as (s' & Hs' & Hrange).
    exists s'. split; [assumption | lia].
Qed.

Lemma too_large_never_qualifies (n : jsnum) (s limit : Z) :
  (s <= limit)%Z ->
  n = PosInf \/ (exists z, n = Fin z /\ (limit < z)%Z) ->
  JS.ge (Fin s) n = false.
Proof.
  intros Hs [-> | (z & -> & Hz)]; unfold JS.ge; cbn [JS.le]; [reflexivity | lia].
Qed.

(** X5 - requests no region can hold.  In every reachable state a process of
    size [Infinity], or larger than the largest region the mode can have
    (8 MiB in static mode, the 14 MiB of usable space in dynamic mode), is
    never allocated: [allocate] returns [false] whatever the state of the
    regions. *)
Theorem oversized_never_allocated (st : Simulation) (p : ProcessControlBlock) :
  reachable st ->
  psize p = PosInf
  \/ (exists z, psize p = Fin z /\ (largest_region (memoryManager st) < z)%Z) ->
  snd (manager_allocate st p) = false.
Proof.
  intros Hreach Hbig. destruct (reachable_inv st Hreach) as [_ Hman].
  unfold manager_allocate.
  destruct (memoryManager st) as [m | m]; cbn [snd largest_region] in *.
  - destruct Hman as [Hgeo _ _]. unfold SM.allocate.
    rewrite static_scan_none; [reflexivity|].
    intros x Hx. unfold SM.fits.
    assert (Hsize : In (SM.size x) SM.partitionSizes).
    { apply (in_map geometry) in Hx. rewrite Hgeo in Hx.
      apply in_map_iff in Hx as (y & Hy & Hin).
      unfold geometry in Hy. injection Hy as _ _ <-.
      cbn in Hin. cbn.
      repeat (destruct Hin as [<- | Hin]; [simpl; auto 10|]). destruct Hin. }
    cbn in Hsize.
    repeat (destruct Hsize as [<- | Hsize];
            [rewrite (too_large_never_qualifies (psize p) _ (8 * MiB));
             [apply andb_false_r | unfold MiB; lia | assumption]|]).
    destruct Hsize.
  - destruct Hman as [Hlay _ _ _].
    rewrite dynamic_allocate_failure; [reflexivity|].
    apply find_block_nothing. intros b Hb. unfold DM.qualifies.
    destruct (layout_size_bound _ _ _ _ Hlay Hb) as (s & -> & Hrange).
    rewrite (too_large_never_qualifies (psize p) s (TOTAL_MEMORY - OS_MEMORY_SIZE));
      [apply andb_false_r | lia | assumption].
Qed.

Lemma oversized_never_allocated_witness :
  snd (manager_allocate coalescing_start process_infinite) = false.
Proof.
  apply (oversized_never_allocated coalescing_start process_infinite).
  - apply reachable_init.
  - left. reflexivity.
Defined.

(** ** Clicks in the process list *)

(** X6 - clicks in the process list.  In every reachable state a click on
    any button of the rendered list is handled without the [TypeError] of an
    unknown identity, and the button at position [k] is the allocate button
    of the [k]-th registered process when that process is unallocated and
    its deallocate button otherwise; the handler then calls [allocate] with
    exactly that process, or [deallocate] with its identity. *)
Theorem click_acts_on_clicked_process (st : Simulation) :
  reachable st ->
  (forall target,
      In target (renderProcessList (processes (registry st))) ->
      exists st', handleProcessListClick st target = Some st')
  /\ (forall k p,
         nth_error (processes (registry st)) k = Some p ->
         nth_error (renderProcessList (processes (registry st))) k = Some (button_of p)
         /\ handleProcessListClick st (button_of p) = Some (click_result st p)).
Proof.
  intros Hreach. destruct (reachable_inv st Hreach) as [Hreg _].
  assert (Hbutton : forall p, In p (processes (registry st)) ->
                              handleProcessListClick st (button_of p)
                              = Some (click_result st p)).
  { intros p Hp. unfold button_of, click_result.
    destruct (allocated p); cbn [handleProcessListClick]; [reflexivity|].
    now rewrite registry_find. }
  split.
  - intros target Hin. unfold renderProcessList in Hin.
    apply in_map_iff in Hin as (p & <- & Hp).
    exists (click_result st p). exact (Hbutton p Hp).
  - intros k p Hk. split.
    + unfold renderProcessList. rewrite nth_error_map, Hk. reflexivity.
    + apply Hbutton. eapply nth_error_In, Hk.
Qed.

Lemma click_acts_on_clicked_process_witness :
  (forall target,
      In target (renderProcessList (processes (registry after_first_allocation))) ->
      exists st', handleProcessListClick after_first_allocation target = Some st')
  /\ (forall k p,
         nth_error (processes (registry after_first_allocation)) k = Some p ->
         nth_error (renderProcessList (processes (registry after_first_allocation))) k
         = Some (button_of p)
         /\ handleProcessListClick after_first_allocation (button_of p)
            = Some (click_result after_first_allocation p)).
Proof.
  apply (click_acts_on_clicked_process after_first_allocation).
  exact after_first_allocation_reachable.
Defined.

(** ** The registry only grows *)

Lemma map_update_first {A B} (h : A -> B) (f : A -> bool) (g : A -> A) (l : list A) :
  (forall x, In x l -> f x = true -> h (g x) = h x) ->
  map h (update_first f g l) = map h l.
Proof.
  induction l as [|a l IH]; intros Hg; [reflexivity|]. simpl.
  destruct (f a) eqn:Ha; simpl.
  - rewrite (Hg a (or_introl eq_refl) Ha). reflexivity.
  - f_equal. apply IH. intros x Hx. apply Hg. now right.
Qed.

Lemma signature_allocate (st : Simulation) (process : ProcessControlBlock) :
  find (fun p => (pid p =? pid process)%Z) (processes (registry st)) = Some process ->
  registry_signature (registry (fst (manager_allocate st process)))
  = registry_signature (registry st).
Proof.
  intros Hfind. unfold registry_signature, manager_allocate.
  assert (Hfirst : forall p1,
             pid p1 = pid process -> psize p1 = psize process ->
             map (fun p => (pid p, psize p))
                 (update_first (fun p => (pid p =? pid process)%Z) (fun _ => p1)
                               (processes (registry st)))
             = map (fun p => (pid p, psize p)) (processes (registry st))).
  { intros p1 Hid Hsize.
    destruct (find_update_first_cases (fun p => (pid p =? pid process)%Z)
                                      (fun _ => p1) (processes (registry st)))
      as [(pre & x & post & Hl & _ & _ & Hf & ->) | (_ & Hf & _)];
      [|congruence].
    assert (x = process) by congruence. subst x.
    rewrite Hl, !map_app. cbn [map]. now rewrite Hid, Hsize. }
  destruct (memoryManager st) as [m | m]; cbn [fst registry processes].
  - destruct (static_allocate_process m process) as [Hid Hsize]. now apply Hfirst.
  - destruct (dynamic_allocate_process m process) as [Hid Hsize]. now apply Hfirst.
Qed.

Lemma signature_deallocate (st : Simulation) (wanted : Z) :
  registry_signature (registry (manager_deallocate st wanted))
  = registry_signature (registry st).
Proof.
  unfold registry_signature, manager_deallocate.
  destruct (memoryManager st) as [m | m].
  - pose proof (static_deallocate_processes m (processes (registry st)) wanted) as H.
    destruct (SM.deallocate m (processes (registry st)) wanted) as [m' ps].
    cbn [snd registry processes] in *.
    destruct H as [-> | ->]; [reflexivity|]. now apply map_update_first.
  - pose proof (dynamic_deallocate_processes m (processes (registry st)) wanted) as H.
    destruct (DM.deallocate m (processes (registry st)) wanted) as [m' ps].
    cbn [snd registry processes] in *.
    destruct H as [-> | ->]; [reflexivity|]. now apply map_update_first.
Qed.

Lemma nextProcessId_allocate (st : Simulation) (process : ProcessControlBlock) :
  nextProcessId (registry (fst (manager_allocate st process)))
  = nextProcessId (registry st).
Proof. unfold manager_allocate. now destruct (memoryManager st). Qed.

Lemma nextProcessId_deallocate (st : Simulation) (wanted : Z) :
  nextProcessId (registry (manager_deallocate st wanted))
  = nextProcessId (registry st).
Proof.
  unfold manager_deallocate.
  destruct (memoryManager st) as [m | m]; [destruct (SM.deallocate _ _ _)
                                          | destruct (DM.deallocate _ _ _)];
    reflexivity.
Qed.

(** X7 - the registry only grows.  Whatever event the page handles, the
    identities and sizes of the registered processes stay as they were, in
    the same order; at most one process is added, at the end, and only by the
    add button; [nextProcessId] never decreases.  No handler deletes,
    reorders or resizes a process. *)
Theorem registry_only_grows (st st' : Simulation) (ev : Event) :
  step st ev st' ->
  exists added,
    registry_signature (registry st') = registry_signature (registry st) ++ added
    /\ length added <= 1
    /\ (added <> [] -> exists size unit, ev = AddProcessClick size unit)
    /\ (nextProcessId (registry st) <= nextProcessId (registry st'))%Z.
Proof.
  intros Hstep.
  destruct Hstep as [st size unit | st c | st target st' Htarget Hclick].
  - unfold handleAddProcessClick. cbn [registry].
    destruct (valid_size_dec (JS.mul size unit)) as [Hv | Hv].
    + rewrite createProcess_accepts by assumption. cbn [fst].
      exists [(nextProcessId (registry st), JS.mul size unit)].
      unfold registry_signature. cbn [processes nextProcessId].
      rewrite map_app. repeat split; eauto. lia.
    + rewrite createProcess_rejects by assumption. cbn [fst].
      exists []. rewrite app_nil_r. repeat split; auto; [congruence | lia].
  - exists []. rewrite app_nil_r. unfold registry_signature, initialize.
    cbn [registry processes nextProcessId]. rewrite map_map.
    repeat split; auto; [congruence | lia].
  - exists []. rewrite app_nil_r.
    destruct target as [id | id |]; cbn [handleProcessListClick] in Hclick.
    + destruct (find _ _) as [process|] eqn:Hfind; [|discriminate].
      injection Hclick as <-.
      pose proof (find_some _ _ Hfind) as [_ Hid]. apply Z.eqb_eq in Hid. subst id.
      rewrite signature_allocate, nextProcessId_allocate by assumption.
      repeat split; auto; [congruence | lia].
    + injection Hclick as <-.
      rewrite signature_deallocate, nextProcessId_deallocate.
      repeat split; auto; [congruence | lia].
    + injection Hclick as <-. repeat split; auto; [congruence | lia].
Qed.

Lemma registry_only_grows_witness :
  exists added,
    registry_signature
      (registry {| memoryManager := memoryManager coalescing_start;
                   registry := fst (handleAddProcessClick (registry coalescing_start)
                                                          (Fin 2) (Fin 1024)) |})
    = registry_signature (registry coalescing_start) ++ added
    /\ length added <= 1
    /\ (added <> [] -> exists size unit, AddProcessClick (Fin 2) (Fin 1024)
                                         = AddProcessClick size unit)
    /\ (nextProcessId (registry coalescing_start)
        <= nextProcessId
             (registry {| memoryManager := memoryManager coalescing_start;
                          registry := fst (handleAddProcessClick
                                             (registry coalescing_start)
                                             (Fin 2) (Fin 1024)) |}))%Z.
Proof.
  apply (registry_only_grows coalescing_start _ (AddProcessClick (Fin 2) (Fin 1024))).
  apply step_add.
Defined.

(** ** What coalescing leaves alone *)

Lemma occupied_coalesce_from (rest : list DM.Block) :
  forall current, occupied (coalesce_from current rest) = occupied (current :: rest).
Proof.
  induction rest as [|next tl IH]; intros current; [reflexivity|].
  cbn [coalesce_from].
  destruct (DM.free current && DM.free next) eqn:Hpair.
  - apply andb_true_iff in Hpair as [Hc Hn]. rewrite IH.
    unfold occupied. cbn [filter DM.grow DM.free]. now rewrite Hc, Hn.
  - unfold occupied in *. cbn [filter]. rewrite IH. reflexivity.
Qed.

Lemma length_coalesce_from (rest : list DM.Block) :
  forall current,
    length (coalesce_from current rest) <= S (length rest)
    /\ (length (coalesce_from current rest) = S (length rest) ->
        coalesce_from current rest = current :: rest).
Proof.
  induction rest as [|next tl IH]; intros current; [simpl; auto|].
  cbn [coalesce_from length].
  destruct (DM.free current && DM.free next).
  - destruct (IH (DM.grow current next)) as [Hle _]. split; lia.
  - destruct (IH next) as [Hle Heq]. cbn [length]. split; [lia|].
    intros H. f_equal. apply Heq. lia.
Qed.

(** X8 - what coalescing leaves alone.  [coalesce] keeps the occupied blocks
    exactly as they are and in the same order, never makes the list longer,
    changes nothing at all when the length stays the same, keeps the tiling
    of the address range, and (when free blocks have no owner) keeps the list
    of owners. *)
Theorem coalesce_preserves (mem : list DM.Block) :
  occupied (DM.coalesce mem) = occupied mem
  /\ length (DM.coalesce mem) <= length mem
  /\ (length (DM.coalesce mem) = length mem -> DM.coalesce mem = mem)
  /\ (forall start stop, layout start mem stop -> layout start (DM.coalesce mem) stop)
  /\ (Forall block_consistent mem -> owners (DM.coalesce mem) = owners mem).
Proof.
  rewrite coalesce_eq. split; [|split; [|split; [|split]]].
  - destruct mem as [|b rest]; [reflexivity | apply occupied_coalesce_from].
  - destruct mem as [|b rest]; [auto | apply length_coalesce_from].
  - destruct mem as [|b rest]; [auto | apply length_coalesce_from].
  - intros start stop Hlay. rewrite <- coalesce_eq. now apply layout_coalesce.
  - intros Hcons. rewrite <- coalesce_eq. now apply coalesce_bookkeeping.
Qed.

(** ** Without coalescing *)

Lemma extents_app (l1 l2 : list DM.Block) : extents (l1 ++ l2) = extents l1 ++ extents l2.
Proof. apply map_app. Qed.

Lemma boundaries_split_incl (process : ProcessControlBlock)
      (pre : list DM.Block) (b : DM.Block) (post : list DM.Block) :
  incl (boundaries (pre ++ b :: post)) (boundaries (split_result process pre b post)).
Proof.
  unfold boundaries, split_result. intros a Ha.
  rewrite map_app in *. cbn [map] in *.
  apply in_app_or in Ha as [Ha | [<- | Ha]]; apply in_or_app; [now left | |].
  - right. now left.
  - right. right. rewrite map_app. apply in_or_app. now right.
Qed.

(** X9 - without coalescing blocks are never merged.  With coalescing
    disabled, [deallocate] leaves the address and size of every block as they
    were, and [allocate] keeps every existing start address and never makes
    the list shorter: once a block has been split its boundary stays until
    the memory is reset. *)
Theorem without_coalescing_blocks_persist
        (m : DM.t) (ps : list ProcessControlBlock) (wanted : Z)
        (process : ProcessControlBlock) :
  DM.coalesceEnabled m = false ->
  extents (DM.memory (fst (DM.deallocate m ps wanted))) = extents (DM.memory m)
  /\ DM.coalesceEnabled (fst (DM.deallocate m ps wanted)) = false
  /\ incl (boundaries (DM.memory m))
          (boundaries (DM.memory (ar_manager (DM.allocate m process))))
  /\ length (DM.memory m) <= length (DM.memory (ar_manager (DM.allocate m process)))
  /\ DM.coalesceEnabled (ar_manager (DM.allocate m process)) = false.
Proof.
  intros Hoff. split; [|split; [|split; [|split]]].
  - unfold DM.deallocate.
    destruct (find_update_first_cases (DM.owned_by wanted) DM.release (DM.memory m))
      as [(pre & b & post & Hm & _ & _ & -> & ->) | (_ & -> & _)]; [|reflexivity].
    cbn [fst DM.with_memory DM.memory]. rewrite Hoff, Hm, !extents_app. reflexivity.
  - unfold DM.deallocate. destruct (find _ _); cbn [fst]; assumption.
  - destruct (DM.find_block (DM.fitAlgorithm m) (DM.memory m) (psize process))
      as [i|] eqn:Hfind.
    + destruct (dynamic_allocate_success m process i Hfind)
        as (pre & b & post & Hm & _ & _ & ->).
      cbn [ar_manager DM.with_memory DM.memory]. rewrite Hm.
      apply boundaries_split_incl.
    + rewrite dynamic_allocate_failure by assumption. apply incl_refl.
  - destruct (DM.find_block (DM.fitAlgorithm m) (DM.memory m) (psize process))
      as [i|] eqn:Hfind.
    + destruct (dynamic_allocate_success m process i Hfind)
        as (pre & b & post & Hm & _ & _ & ->).
      cbn [ar_manager DM.with_memory DM.memory]. rewrite Hm. unfold split_result.
      rewrite !length_app. cbn [length]. rewrite length_app. lia.
    + rewrite dynamic_allocate_failure by assumption. cbn [ar_manager]. lia.
  - unfold DM.allocate.
    destruct (DM.find_block _ _ _); [destruct (nth_error _ _)|]; assumption.
Qed.

Lemma without_coalescing_blocks_persist_witness :
  extents (DM.memory (fst (DM.deallocate uncoalesced [] 0))) = extents (DM.memory uncoalesced)
  /\ DM.coalesceEnabled (fst (DM.deallocate uncoalesced [] 0)) = false
  /\ incl (boundaries (DM.memory uncoalesced))
          (boundaries (DM.memory (ar_manager (DM.allocate uncoalesced process_3MiB))))
  /\ length (DM.memory uncoalesced)
     <= length (DM.memory (ar_manager (DM.allocate uncoalesced process_3MiB)))
  /\ DM.coalesceEnabled (ar_manager (DM.allocate uncoalesced process_3MiB)) = false.
Proof.
  apply (without_coalescing_blocks_persist uncoalesced [] 0 process_3MiB).
  reflexivity.
Defined.

(** ** The add button *)




(** ** Address labels *)

Lemma length_repeat_char (c : ascii) (n : nat) : String.length (repeat_char c n) = n.
Proof. induction n; simpl; auto. Qed.

Lemma string_length_append (s1 s2 : string) :
  String.length (s1 ++ s2) = String.length s1 + String.length s2.
Proof. induction s1; simpl; auto. Qed.

Lemma padStart_length (n : nat) (c : ascii) (s : string) :
  n <= String.length (padStart n c s).
Proof.
  unfold padStart. destruct (Nat.ltb_spec (String.length s) n); [|assumption].
  rewrite string_length_append, length_repeat_char. lia.
Qed.

Lemma parse_hex_zeros (n : nat) (s : string) :
  parse_hex 0 (repeat_char "0" n ++ s) = parse_hex 0 s.
Proof. induction n; simpl; auto. Qed.

Lemma parse_hex_padStart (n : nat) (s : string) :
  parse_hex 0 (padStart n "0" s) = parse_hex 0 s.
Proof.
  unfold padStart. destruct (String.length s <? n); [apply parse_hex_zeros | reflexivity].
Qed.

(** Reading the upper-cased digits of a hexadecimal numeral gives the value
    the numeral denotes, on top of what was read before. *)
Lemma parse_hex_digits (d : Hexadecimal.uint) :
  forall acc : positive,
    parse_hex (Z.pos acc)
              (toUpperCase (HexadecimalString.NilEmpty.string_of_uint d))
    = Some (Z.pos (Pos.of_hex_uint_acc d acc)).
Proof.
  induction d; intros acc;
    cbn [HexadecimalString.NilEmpty.string_of_uint toUpperCase
         Pos.of_hex_uint_acc parse_hex];
    try reflexivity;
    match goal with
    | |- context [hex_value ?c] =>
        let v := eval vm_compute in (hex_value c) in change (hex_value c) with v
    end;
    cbv iota beta;
    match goal with
    | |- parse_hex ?z _ = Some (Z.pos (Pos.of_hex_uint_acc _ ?q)) =>
        replace z with (Z.pos q) by lia
    end;
    apply IHd.
Qed.

Lemma parse_hex_numeral (d : Hexadecimal.uint) :
  parse_hex 0 (toUpperCase (HexadecimalString.NilEmpty.string_of_uint d))
  = Some (Z.of_N (Pos.of_hex_uint d)).
Proof.
  induction d;
    cbn [HexadecimalString.NilEmpty.string_of_uint toUpperCase
         Pos.of_hex_uint parse_hex];
    try reflexivity;
    match goal with
    | |- context [hex_value ?c] =>
        let v := eval vm_compute in (hex_value c) in change (hex_value c) with v
    end;
    cbv iota beta; cbn [Z.mul Z.add Z.of_N];
    try exact IHd; apply parse_hex_digits.
Qed.

Lemma toString16_positive (p : positive) :
  toString16 (Fin (Z.pos p))
  = HexadecimalString.NilEmpty.string_of_uint (Pos.to_hex_uint p).
Proof.
  unfold toString16. cbn [Z.to_hex_int HexadecimalString.NilZero.string_of_int].
  unfold HexadecimalString.NilZero.string_of_uint.
  pose proof (HexadecimalPos.Unsigned.to_uint_nonnil p) as Hnil.
  destruct (Pos.to_hex_uint p); [contradiction | reflexivity ..].
Qed.

Lemma acc_lower_bound (d : Hexadecimal.uint) :
  forall acc : positive,
    (Z.pos acc * 16 ^ Z.of_nat (Hexadecimal.nb_digits d)
     <= Z.pos (Pos.of_hex_uint_acc d acc))%Z.
Proof.
  induction d; intros acc; cbn [Hexadecimal.nb_digits Pos.of_hex_uint_acc];
    [simpl; lia | ..];
    rewrite Nat2Z.inj_succ, Z.pow_succ_r by lia;
    match goal with
    | |- (_ <= Z.pos (Pos.of_hex_uint_acc _ ?q))%Z =>
        specialize (IHd q);
        assert (0 < 16 ^ Z.of_nat (Hexadecimal.nb_digits d))%Z
          by (apply Z.pow_pos_nonneg; lia);
        nia
    end.
Qed.

Lemma length_upper_numeral (d : Hexadecimal.uint) :
  String.length (toUpperCase (HexadecimalString.NilEmpty.string_of_uint d))
  = Hexadecimal.nb_digits d.
Proof.
  induction d; cbn [HexadecimalString.NilEmpty.string_of_uint toUpperCase
                    String.length Hexadecimal.nb_digits]; auto.
Qed.

(** A number written with [n] hexadecimal digits is at least [16^(n-1)]:
    [toString(16)] writes no leading zero. *)
Lemma digits_bound (p : positive) :
  (16 ^ Z.of_nat (Hexadecimal.nb_digits (Pos.to_hex_uint p) - 1) <= Z.pos p)%Z.
Proof.
  pose proof (HexadecimalPos.Unsigned.of_to p) as Hval.
  pose proof (HexadecimalPos.Unsigned.to_of (Pos.to_hex_uint p)) as Hnorm.
  rewrite Hval in Hnorm. cbn [N.to_hex_uint] in Hnorm.
  pose proof (HexadecimalPos.Unsigned.to_uint_nonnil p) as Hnil.
  destruct (Pos.to_hex_uint p) as [|d|d|d|d|d|d|d|d|d|d|d|d|d|d|d|d] eqn:Hd;
    [contradiction | ..];
    cbn [Hexadecimal.nb_digits Nat.sub] in *; rewrite ?Nat.sub_0_r;
    cbn [Pos.of_hex_uint] in Hval.
  1: { exfalso. destruct (Hexadecimal.nzhead (Hexadecimal.D0 d)) eqn:Hz;
       [unfold Hexadecimal.unorm in Hnorm; rewrite Hz in Hnorm;
        injection Hnorm as ->; discriminate | ..];
       rewrite HexadecimalFacts.unorm_nzhead in Hnorm by (rewrite Hz; discriminate);
       symmetry in Hnorm; exact (HexadecimalFacts.nzhead_nonzero _ _ Hnorm). }
  all: injection Hval as <-;
    match goal with
    | |- (_ <= Z.pos (Pos.of_hex_uint_acc _ ?q))%Z =>
        pose proof (acc_lower_bound d q);
        assert (0 < 16 ^ Z.of_nat (Hexadecimal.nb_digits d))%Z
          by (apply Z.pow_pos_nonneg; lia);
        nia
    end.
Qed.

Lemma label_width (a : Z) :
  (0 <= a < 2 ^ 32)%Z ->
  String.length (toUpperCase (toString16 (Fin a))) <= 8.
Proof.
  intros [Hlo Hhi]. destruct a as [|p|p]; [simpl; lia | | lia].
  rewrite toString16_positive, length_upper_numeral.
  pose proof (digits_bound p) as Hb.
  destruct (Nat.le_gt_cases (Hexadecimal.nb_digits (Pos.to_hex_uint p)) 8) as [|Hgt];
    [assumption|].
  exfalso.
  assert (16 ^ 8 <= 16 ^ Z.of_nat (Hexadecimal.nb_digits (Pos.to_hex_uint p) - 1))%Z
    by (apply Z.pow_le_mono_r; lia).
  change (16 ^ 8)%Z with (2 ^ 32)%Z in *. lia.
Qed.

(** X11 - address labels.  For every non-negative address [formatAddress]
    yields ["0x"] followed by upper-case hexadecimal digits whose value is
    the address, so distinct addresses get distinct labels; the label has
    exactly eight digits for every address below [2^32] (which covers the
    simulated memory) and is never truncated above. *)
Theorem formatAddress_round_trip (a : Z) :
  (0 <= a)%Z ->
  parseAddress (formatAddress (Fin a)) = Some a
  /\ 10 <= String.length (formatAddress (Fin a))
  /\ ((a < 2 ^ 32)%Z -> String.length (formatAddress (Fin a)) = 10)
  /\ (forall a', (0 <= a')%Z -> formatAddress (Fin a') = formatAddress (Fin a) -> a' = a).
Proof.
  assert (Hparse : forall z, (0 <= z)%Z -> parseAddress (formatAddress (Fin z)) = Some z).
  { intros z Hz. unfold formatAddress, parseAddress. cbn [append].
    rewrite parse_hex_padStart.
    destruct z as [|p|p]; [reflexivity | | lia].
    rewrite toString16_positive, parse_hex_numeral.
    now rewrite HexadecimalPos.Unsigned.of_to. }
  intros Ha. split; [now apply Hparse|]. split; [|split].
  - unfold formatAddress. cbn [append String.length].
    pose proof (padStart_length 8 "0" (toUpperCase (toString16 (Fin a)))). lia.
  - intros Hhi. unfold formatAddress. cbn [append String.length].
    pose proof (label_width a (conj Ha Hhi)) as Hw. unfold padStart.
    destruct (Nat.ltb_spec (String.length (toUpperCase (toString16 (Fin a)))) 8).
    + rewrite string_length_append, length_repeat_char. lia.
    + lia.
  - intros a' Ha' Heq. apply (f_equal parseAddress) in Heq.
    rewrite !Hparse in Heq by assumption. congruence.
Qed.

Lemma formatAddress_round_trip_witness :
  parseAddress (formatAddress (Fin OS_MEMORY_SIZE)) = Some OS_MEMORY_SIZE
  /\ 10 <= String.length (formatAddress (Fin OS_MEMORY_SIZE))
  /\ ((OS_MEMORY_SIZE < 2 ^ 32)%Z ->
      String.length (formatAddress (Fin OS_MEMORY_SIZE)) = 10)
  /\ (forall a', (0 <= a')%Z ->
                 formatAddress (Fin a') = formatAddress (Fin OS_MEMORY_SIZE) ->
                 a' = OS_MEMORY_SIZE).
Proof.
  apply (formatAddress_round_trip OS_MEMORY_SIZE). discriminate.
Defined.

Example formatAddress_examples :
  formatAddress (Fin 0) = "0x00000000"%string
  /\ formatAddress (Fin (OS_MEMORY_SIZE - 1)) = "0x001FFFFF"%string
  /\ formatAddress (Fin (TOTAL_MEMORY + OS_MEMORY_SIZE - 1)) = "0x011FFFFF"%string.
Proof. repeat split. Qed.

(** ** What the memory view shows *)









Example render_memory_example :
  map (fun v => (shownName v, startAddr v, endAddr v)) (renderMemory after_first_allocation)
  = [("Operating System", "0x00000000", "0x001FFFFF");
     ("Process 0", "0x00200000", "0x0027FFFF");
     ("Free", "0x00280000", "0x00FFFFFF")]%string.
Proof. reflexivity. Qed.

(** ** The earlier revision *)

Lemma map_update_first_same {A B} (h : A -> B) (f : A -> bool) (g1 g2 : A -> A)
      (l : list A) :
  (forall x, h (g1 x) = h (g2 x)) ->
  map h (update_first f g1 l) = map h (update_first f g2 l).
Proof.
  intros Hg. induction l as [|a l IH]; [reflexivity|]. simpl.
  destruct (f a); simpl; [now rewrite Hg | now rewrite IH].
Qed.

Lemma legacy_scan_first_fit (p : ProcessControlBlock) (rest : list DM.Block) :
  forall pre,
    Legacy.allocate_scan rest (length pre) (pre ++ rest) p
    = match findIndex_from (DM.qualifies (psize p)) rest (length pre) with
      | Some k =>
          match nth_error (pre ++ rest) k with
          | Some b => Some (DM.split_at k b p (pre ++ rest))
          | None => None
          end
      | None => None
      end.
Proof.
  induction rest as [|block rest IH]; intros pre; cbn [Legacy.allocate_scan findIndex_from];
    [reflexivity|].
  unfold DM.qualifies at 1.
  destruct (DM.free block && JS.ge (DM.size block) (psize p)).
  - rewrite nth_error_app2 by lia. now rewrite Nat.sub_diag.
  - specialize (IH (pre ++ [block])).
    rewrite <- app_assoc, length_app in IH. cbn [app length] in IH.
    rewrite Nat.add_1_r in IH. exact IH.
Qed.

Lemma legacy_allocate_cases (m : Legacy.t) (p : ProcessControlBlock) :
  match DM.find_block "first" (Legacy.memory m) (psize p) with
  | Some k =>
      exists b, nth_error (Legacy.memory m) k = Some b
                /\ Legacy.allocate m p
                   = mkAllocResult
                       {| Legacy.totalSize := Legacy.totalSize m;
                          Legacy.coalesceEnabled := Legacy.coalesceEnabled m;
                          Legacy.memory := DM.split_at k b p (Legacy.memory m) |}
                       (Legacy.set_allocated true p) true None
  | None => Legacy.allocate m p = mkAllocResult m p false (Some (AlertNoMemory p ""))
  end.
Proof.
  unfold Legacy.allocate.
  change (DM.find_block "first" (Legacy.memory m) (psize p))
    with (findIndex_from (DM.qualifies (psize p)) (Legacy.memory m) 0).
  pose proof (legacy_scan_first_fit p (Legacy.memory m) []) as Hscan.
  cbn [app length] in Hscan. rewrite Hscan.
  destruct (findIndex_from (DM.qualifies (psize p)) (Legacy.memory m) 0) as [k|] eqn:Hk;
    [|reflexivity].
  destruct (find_block_in_range "first" (Legacy.memory m) (psize p) k Hk) as (b & Hnth & _).
  exists b. rewrite Hnth. split; reflexivity.
Qed.

(** X13 - The earlier revision's dynamic manager is the current one fixed
    to first fit, up to the [partitionId] bookkeeping.  [allocate] and
    [deallocate] of [part_000] produce the same block list, the same return
    value and the same [allocated] flags as the current code with
    [fitAlgorithm = 'first']; the only difference is that the earlier code
    never writes [partitionId] in dynamic mode. *)
Theorem legacy_dynamic_is_first_fit (m : Legacy.t) (ps : list ProcessControlBlock)
        (p : ProcessControlBlock) (wanted : Z) :
  let old := Legacy.allocate m p in
  let cur := DM.allocate (Legacy.as_first_fit m) p in
  let old' := Legacy.deallocate m ps wanted in
  let cur' := DM.deallocate (Legacy.as_first_fit m) ps wanted in
  (Legacy.memory (ar_manager old) = DM.memory (ar_manager cur)
   /\ ar_ok old = ar_ok cur
   /\ pid (ar_process old) = pid (ar_process cur)
   /\ psize (ar_process old) = psize (ar_process cur)
   /\ allocated (ar_process old) = allocated (ar_process cur)
   /\ partitionId (ar_process old) = partitionId p)
  /\ (Legacy.memory (fst old') = DM.memory (fst cur')
      /\ map (fun q => (pid q, psize q, allocated q)) (snd old')
         = map (fun q => (pid q, psize q, allocated q)) (snd cur')
      /\ map partitionId (snd old') = map partitionId ps).
Proof.
  cbv zeta. split.
  - pose proof (legacy_allocate_cases m p) as Hold.
    unfold DM.allocate. cbn [Legacy.as_first_fit DM.fitAlgorithm DM.memory].
    destruct (DM.find_block "first" (Legacy.memory m) (psize p)) as [k|].
    + destruct Hold as (b & Hnth & ->). rewrite Hnth.
      cbn [ar_manager ar_ok ar_process Legacy.memory DM.with_memory DM.memory
           Legacy.set_allocated mark_allocated pid psize allocated partitionId].
      repeat split.
    + rewrite Hold. cbn [ar_manager ar_ok ar_process]. repeat split.
  - unfold Legacy.deallocate, DM.deallocate.
    cbn [Legacy.as_first_fit DM.memory DM.coalesceEnabled].
    destruct (find (DM.owned_by wanted) (Legacy.memory m)); cbn [fst snd].
    + cbn [Legacy.memory DM.with_memory DM.memory]. split; [reflexivity|]. split.
      * now apply map_update_first_same.
      * now apply map_update_first.
    + repeat split.
Qed.

Lemma legacy_new_static_layout :
  static_layout 0 (SM.memory (Legacy.new_static (Fin TOTAL_MEMORY))) TOTAL_MEMORY.
Proof.
  exists MiB. repeat split.
  exists (2 * MiB)%Z. repeat split.
  exists (4 * MiB)%Z. repeat split.
  exists (8 * MiB)%Z. repeat split.
  exists MiB. repeat split.
Qed.

Lemma legacy_allocate_layout (m : Legacy.t) (p : ProcessControlBlock) (start stop : Z) :
  valid_size (psize p) ->
  layout start (Legacy.memory m) stop ->
  layout start (Legacy.memory (ar_manager (Legacy.allocate m p))) stop.
Proof.
  intros Hv Hlay. pose proof (legacy_allocate_cases m p) as Hold.
  destruct (DM.find_block "first" (Legacy.memory m) (psize p)) as [k|] eqn:Hk.
  - destruct Hold as (b & Hnth & ->). cbn [ar_manager Legacy.memory].
    destruct (find_block_in_range _ _ _ _ Hk) as (b' & Hnth' & Hq).
    assert (b' = b) by congruence. subst b'.
    destruct (nth_error_split_at _ _ _ Hnth) as (pre & post & Hm & Hlen).
    rewrite Hm in *. rewrite <- Hlen, split_at_app. now apply layout_split.
  - now rewrite Hold.
Qed.

Lemma legacy_deallocate_layout (m : Legacy.t) (ps : list ProcessControlBlock)
      (wanted start stop : Z) :
  layout start (Legacy.memory m) stop ->
  layout start (Legacy.memory (fst (Legacy.deallocate m ps wanted))) stop.
Proof.
  intros Hlay. unfold Legacy.deallocate.
  destruct (first_split (DM.owned_by wanted) (Legacy.memory m))
    as [(pre & b & post & Hm & Hpre & Hb) | Hnone].
  - rewrite Hm in *. rewrite find_split, update_first_split by assumption.
    cbn [fst Legacy.memory]. apply layout_release in Hlay.
    destruct (Legacy.coalesceEnabled m); [now apply layout_coalesce | exact Hlay].
  - rewrite find_none_all by assumption. exact Hlay.
Qed.

(** X14 - Region coverage in the earlier revision.  Without the reserved
    prefix, the regions of both managers tile the whole memory after any
    sequence of [allocate] and [deallocate] calls: they start at address
    [0], each starts where the previous one ends, every size is positive
    and the last one ends at [TOTAL_MEMORY]. *)
Theorem legacy_region_coverage (dynamic : Legacy.t) (static : SM.t) :
  Legacy.dynamic_run dynamic -> Legacy.static_run static ->
  layout 0 (Legacy.memory dynamic) TOTAL_MEMORY
  /\ static_layout 0 (SM.memory static) TOTAL_MEMORY.
Proof.
  intros Hdyn Hsta. split.
  - clear Hsta. induction Hdyn as [c | m p _ IH Hv | m ps wanted _ IH].
    + exists TOTAL_MEMORY. repeat split.
    + now apply legacy_allocate_layout.
    + now apply legacy_deallocate_layout.
  - clear Hdyn. induction Hsta as [| m p _ IH | m ps wanted _ IH].
    + exact legacy_new_static_layout.
    + exact (static_layout_geometry _ _ (eq_sym (static_allocate_geometry m p)) _ _ IH).
    + exact (static_layout_geometry _ _ (eq_sym (static_deallocate_geometry m ps wanted)) _ _ IH).
Qed.

Lemma legacy_region_coverage_witness :
  layout 0 (Legacy.memory legacy_dynamic_example) TOTAL_MEMORY
  /\ static_layout 0 (SM.memory legacy_static_example) TOTAL_MEMORY.
Proof.
  apply (legacy_region_coverage legacy_dynamic_example legacy_static_example).
  - apply Legacy.dynamic_run_allocate; [apply Legacy.dynamic_run_new | reflexivity].
  - apply Legacy.static_run_deallocate, Legacy.static_run_allocate, Legacy.static_run_new.
Defined.

Example legacy_examples :
  map (fun b => (DM.address b, DM.size b, DM.processId b))
      (Legacy.memory legacy_dynamic_example)
  = [(Fin 0, Fin (512 * KiB), Some 0%Z);
     (Fin (512 * KiB), Fin (TOTAL_MEMORY - 512 * KiB), None)]
  /\ map geometry (SM.memory legacy_static_example)
     = [(0, Fin 0, Fin MiB); (1, Fin MiB, Fin (2 * MiB)); (2, Fin (3 * MiB), Fin (4 * MiB));
        (3, Fin (7 * MiB), Fin (8 * MiB)); (4, Fin (15 * MiB), Fin MiB)]%Z.
Proof. split; reflexivity. Qed.
